(** * tinyWebSynth: synthesis engine, step sequencer, command decoder, WAV export

    A shallow embedding of the tinyWebSynth sketch (the chiptune synthesizer
    of the tinySpeak repository) and the properties its specification states.

    Numbers follow the target (ESP32-S3, Arduino core):
    - [float] is IEEE-754 binary32 and [double] is binary64, both modelled
      exactly with the parameterised operations of [SpecFloat]
      (round to nearest, ties to even);
    - [int], [long], [int32_t] are 32-bit, [int16_t] is 16-bit,
      [unsigned long] is 32-bit and wraps modulo 2^32;
    - arrays are lists indexed from 0. *)

From Stdlib Require Import ZArith List Bool String Ascii Lia SpecFloat.
Import ListNotations.
Local Open Scope Z_scope.

(** ** Machine integers *)

Definition wrapU (w z : Z) : Z := z mod 2 ^ w.
Definition wrapS (w z : Z) : Z := (z + 2 ^ (w - 1)) mod 2 ^ w - 2 ^ (w - 1).

Definition u32 := wrapU 32.
Definition i32 := wrapS 32.
Definition i16 := wrapS 16.

(** Arduino's [constrain(amt, low, high)] macro. *)
Definition constrain (amt low high : Z) : Z :=
  if amt <? low then low else if amt >? high then high else amt.

(** ** Floating point *)

Definition float := spec_float.

(** Truncation toward zero, the value part of a C++ float-to-integer
    conversion.  NaN and the infinities have no integer value; the model
    gives 0 there. *)
Definition Ftrunc (x : float) : Z :=
  match x with
  | S754_finite s m e =>
      let a := Z.shiftl (Zpos m) e in if s then - a else a
  | _ => 0
  end.

(** The float nearest to the decimal [m * 10^x], the way a decimal literal
    or a parsed decimal string is rounded. *)
Definition Fdecimal (prec emax : Z) (neg : bool) (m : Z) (x : Z) : float :=
  match m with
  | Zpos p =>
      match x with
      | Zneg k =>
          SFdiv prec emax (S754_finite neg p 0)
                (S754_finite false (Pos.pow 10 k) 0)
      | _ => binary_normalize prec emax
               (if neg then - (m * 10 ^ x) else m * 10 ^ x) 0 neg
      end
  | _ => S754_zero neg
  end.

(** Conversion between the two formats: exact when widening, rounded when
    narrowing. *)
Definition Fconvert (prec emax : Z) (x : float) : float :=
  match x with
  | S754_finite s m e =>
      binary_normalize prec emax (if s then Zneg m else Zpos m) e s
  | _ => x
  end.

Module F32.
Definition prec := 24.
Definition emax := 128.
Definition mul := SFmul prec emax.
Definition div := SFdiv prec emax.
Definition add := SFadd prec emax.
Definition sub := SFsub prec emax.
Definition ltb := SFltb.
Definition eqb := SFeqb.
Definition of_Z (z : Z) : float := binary_normalize prec emax z 0 false.
Definition lit (m x : Z) : float := Fdecimal prec emax false m x.
Definition of_double := Fconvert prec emax.
End F32.

Module F64.
Definition prec := 53.
Definition emax := 1024.
Definition mul := SFmul prec emax.
Definition div := SFdiv prec emax.
Definition add := SFadd prec emax.
Definition sub := SFsub prec emax.
Definition ltb := SFltb.
Definition leb := SFleb.
Definition of_Z (z : Z) : float := binary_normalize prec emax z 0 false.
Definition of_float := Fconvert prec emax.
End F64.

(** [x >= y] on floats is [y <= x]. *)
Definition Fgeb (x y : float) : bool := SFleb y x.

(** The float literals of the sketch. *)
Definition f_0 : float := S754_zero false.
Definition f_1 : float := F32.of_Z 1.
Definition f_2 : float := F32.of_Z 2.
Definition f_30 : float := F32.of_Z 30.
Definition f_200 : float := F32.of_Z 200.
Definition f_440 : float := F32.of_Z 440.
Definition f_0_5 : float := F32.lit 5 (-1).
Definition f_0_001 : float := F32.lit 1 (-3).
Definition f_0_9998 : float := F32.lit 9998 (-4).
Definition f_0_9997 : float := F32.lit 9997 (-4).
Definition f_0_9991 : float := F32.lit 9991 (-4).
Definition f_0_9988 : float := F32.lit 9988 (-4).
Definition f_0_9970 : float := F32.lit 9970 (-4).

(** [PI] is the macro of Arduino.h, the double literal
    3.1415926535897932384626433832795. *)
Definition PI : float :=
  Fdecimal F64.prec F64.emax false 31415926535897932384626433832795 (-31).

(** [2.0f * PI] and [PI * 0.5f], evaluated in double. *)
Definition TWO_PI : float := F64.mul (F64.of_float f_2) PI.
Definition HALF_PI : float := F64.mul PI (F64.of_float f_0_5).

(** ** Arrays *)

Fixpoint upd {A : Type} (i : nat) (x : A) (l : list A) : list A :=
  match l, i with
  | [], _ => []
  | _ :: t, O => x :: t
  | h :: t, S j => h :: upd j x t
  end.

(** ** Audio configuration *)

Definition SAMPLE_RATE : Z := 44100.
Definition BUF_SZ : nat := 64.
Definition NUM_CH : nat := 5.
Definition NUM_STEPS : nat := 16.
Definition NUM_MEL_TRK : nat := 2.
Definition NUM_DRM_TRK : nat := 3.

Definition CH_LEAD : nat := 0.
Definition CH_BASS : nat := 1.
Definition CH_KICK : nat := 2.
Definition CH_SNARE : nat := 3.
Definition CH_HAT : nat := 4.

(** ** Audio engine state *)

Record Channel := mkChannel {
  phase : float;
  curFreq : float;
  waveType : Z;
  envLvl : float;
  envDcy : float;
  active : bool;
  isNoise : bool;
  pitchMul : float
}.

(** [Channel()], the default member initialisers of the struct. *)
Definition Channel0 : Channel :=
  mkChannel f_0 f_440 0 f_0 f_0_9998 false false f_1.

Record MelStep := mkMelStep { freq : float; wave : Z }.

Definition MelStep0 : MelStep := mkMelStep f_0 0.

Record Synth := mkSynth {
  ch : list Channel;
  gAmp : Z;
  liveWave : Z;
  nlfsr : list Z;
  melPat : list (list MelStep);
  drmPat : list (list bool);
  seqPlay : bool;
  seqBPM : Z;
  seqStep : Z;
  lastStepMs : Z
}.

Definition set_ch (v : list Channel) (st : Synth) : Synth :=
  mkSynth v (gAmp st) (liveWave st) (nlfsr st) (melPat st) (drmPat st)
          (seqPlay st) (seqBPM st) (seqStep st) (lastStepMs st).
Definition set_gAmp (v : Z) (st : Synth) : Synth :=
  mkSynth (ch st) v (liveWave st) (nlfsr st) (melPat st) (drmPat st)
          (seqPlay st) (seqBPM st) (seqStep st) (lastStepMs st).
Definition set_liveWave (v : Z) (st : Synth) : Synth :=
  mkSynth (ch st) (gAmp st) v (nlfsr st) (melPat st) (drmPat st)
          (seqPlay st) (seqBPM st) (seqStep st) (lastStepMs st).
Definition set_nlfsr (v : list Z) (st : Synth) : Synth :=
  mkSynth (ch st) (gAmp st) (liveWave st) v (melPat st) (drmPat st)
          (seqPlay st) (seqBPM st) (seqStep st) (lastStepMs st).
Definition set_melPat (v : list (list MelStep)) (st : Synth) : Synth :=
  mkSynth (ch st) (gAmp st) (liveWave st) (nlfsr st) v (drmPat st)
          (seqPlay st) (seqBPM st) (seqStep st) (lastStepMs st).
Definition set_drmPat (v : list (list bool)) (st : Synth) : Synth :=
  mkSynth (ch st) (gAmp st) (liveWave st) (nlfsr st) (melPat st) v
          (seqPlay st) (seqBPM st) (seqStep st) (lastStepMs st).
Definition set_seqPlay (v : bool) (st : Synth) : Synth :=
  mkSynth (ch st) (gAmp st) (liveWave st) (nlfsr st) (melPat st) (drmPat st)
          v (seqBPM st) (seqStep st) (lastStepMs st).
Definition set_seqBPM (v : Z) (st : Synth) : Synth :=
  mkSynth (ch st) (gAmp st) (liveWave st) (nlfsr st) (melPat st) (drmPat st)
          (seqPlay st) v (seqStep st) (lastStepMs st).
Definition set_seqStep (v : Z) (st : Synth) : Synth :=
  mkSynth (ch st) (gAmp st) (liveWave st) (nlfsr st) (melPat st) (drmPat st)
          (seqPlay st) (seqBPM st) v (lastStepMs st).
Definition set_lastStepMs (v : Z) (st : Synth) : Synth :=
  mkSynth (ch st) (gAmp st) (liveWave st) (nlfsr st) (melPat st) (drmPat st)
          (seqPlay st) (seqBPM st) (seqStep st) v.

(** [ch[c]] and [ch[c] = k]. *)
Definition chan (c : nat) (st : Synth) : Channel := nth c (ch st) Channel0.
Definition put_chan (c : nat) (k : Channel) (st : Synth) : Synth :=
  set_ch (upd c k (ch st)) st.

(** The state at power-up: the global initialisers of the sketch. *)
Definition Synth0 : Synth :=
  mkSynth (repeat Channel0 NUM_CH) 10000 0 [0xACE1; 0x9182]
          (repeat (repeat MelStep0 NUM_STEPS) NUM_MEL_TRK)
          (repeat (repeat false NUM_STEPS) NUM_DRM_TRK)
          false 120 0 0.

(** 15-bit Galois LFSR. *)
Definition lfsrNext (s : Z) : Z :=
  Z.lxor (Z.shiftr s 1) (if Z.testbit s 0 then 0xB400 else 0).

(** ** Note triggers *)

Definition trigNote (c : nat) (f : float) (w : Z) (st : Synth) : Synth :=
  put_chan c (mkChannel f_0 f w f_1 f_0_9998 true false f_1) st.

Definition releaseNote (c : nat) (st : Synth) : Synth :=
  let k := chan c st in
  put_chan c (mkChannel (phase k) (curFreq k) (waveType k) f_0 (envDcy k)
                        false (isNoise k) (pitchMul k)) st.

Definition trigKick (st : Synth) : Synth :=
  put_chan CH_KICK (mkChannel f_0 f_200 0 f_1 f_0_9997 true false f_0_9991) st.

Definition trigSnare (st : Synth) : Synth :=
  let k := chan CH_SNARE st in
  set_nlfsr (upd 0%nat 0xACE1 (nlfsr st))
    (put_chan CH_SNARE
       (mkChannel (phase k) (curFreq k) (waveType k) f_1 f_0_9988 true true f_1)
       st).

Definition trigHat (st : Synth) : Synth :=
  let k := chan CH_HAT st in
  set_nlfsr (upd 1%nat 0x9182 (nlfsr st))
    (put_chan CH_HAT
       (mkChannel (phase k) (curFreq k) (waveType k) f_1 f_0_9970 true true f_1)
       st).

(** ** Per-sample synthesis *)

Definition set_phase (v : float) (k : Channel) : Channel :=
  mkChannel v (curFreq k) (waveType k) (envLvl k) (envDcy k)
            (active k) (isNoise k) (pitchMul k).
Definition set_curFreq (v : float) (k : Channel) : Channel :=
  mkChannel (phase k) v (waveType k) (envLvl k) (envDcy k)
            (active k) (isNoise k) (pitchMul k).
Definition set_envLvl (v : float) (k : Channel) : Channel :=
  mkChannel (phase k) (curFreq k) (waveType k) v (envDcy k)
            (active k) (isNoise k) (pitchMul k).
Definition set_active (v : bool) (k : Channel) : Channel :=
  mkChannel (phase k) (curFreq k) (waveType k) (envLvl k) (envDcy k)
            v (isNoise k) (pitchMul k).

(** [(int32_t)((float)gAmp / NUM_CH * ch[c].envLvl)] *)
Definition voiceAmp (g : Z) (k : Channel) : Z :=
  i32 (Ftrunc (F32.mul (F32.div (F32.of_Z g) (F32.of_Z (Z.of_nat NUM_CH)))
                       (envLvl k))).

(** The [switch (ch[c].waveType)] of [synthSample]; [val] keeps its
    initial 0 when no case matches. *)
Definition waveVal (k : Channel) (amp : Z) : Z :=
  match waveType k with
  | 0 => if F64.ltb (F64.of_float (phase k)) PI then i16 amp else i16 (- amp)
  | 1 => i16 (Ftrunc
           (F64.mul
              (F64.sub
                 (F64.mul (F64.div (F64.of_float (phase k)) TWO_PI)
                          (F64.of_float f_2))
                 (F64.of_float f_1))
              (F64.of_Z amp)))
  | 2 => if F64.ltb (F64.of_float (phase k)) HALF_PI
         then i16 amp else i16 (- amp)
  | _ => 0
  end.

(** Phase advance with wrap at one cycle. *)
Definition phaseStep (k : Channel) : Channel :=
  let phInc :=
    F32.of_double
      (F64.div (F64.mul TWO_PI (F64.of_float (curFreq k)))
               (F64.of_Z SAMPLE_RATE)) in
  let p := F32.add (phase k) phInc in
  set_phase
    (if Fgeb (F64.of_float p) TWO_PI
     then F32.of_double (F64.sub (F64.of_float p) TWO_PI)
     else p) k.

(** Kick pitch sweep. *)
Definition pitchStep (k : Channel) : Channel :=
  if negb (F32.eqb (pitchMul k) f_1) then
    let f := F32.mul (curFreq k) (pitchMul k) in
    set_curFreq (if F32.ltb f f_30 then f_30 else f) k
  else k.

(** [ch[c].envLvl *= ch[c].envDcy] *)
Definition envStep (k : Channel) : Channel :=
  set_envLvl (F32.mul (envLvl k) (envDcy k)) k.

Definition synthSample (c : nat) (st : Synth) : Z * Synth :=
  let k := chan c st in
  if negb (active k) || F32.ltb (envLvl k) f_0_001 then
    (0, put_chan c (set_active false k) st)
  else
    let amp := voiceAmp (gAmp st) k in
    if isNoise k then
      let ni := if Nat.eqb c CH_SNARE then 0%nat else 1%nat in
      let r := lfsrNext (nth ni (nlfsr st) 0) in
      let val := if Z.testbit r 0 then i16 amp else i16 (- amp) in
      (val, put_chan c (envStep k) (set_nlfsr (upd ni r (nlfsr st)) st))
    else
      (waveVal k amp, put_chan c (envStep (pitchStep (phaseStep k))) st).

(** ** Sequencer *)

(** [melPat[t][s]] and [drmPat[t][s]]. *)
Definition mel (t s : nat) (st : Synth) : MelStep :=
  nth s (nth t (melPat st) []) MelStep0.
Definition drm (t s : nat) (st : Synth) : bool :=
  nth s (nth t (drmPat st) []) false.

Definition trigMelodyTrack (t s : nat) (st : Synth) : Synth :=
  let c := if Nat.eqb t 0 then CH_LEAD else CH_BASS in
  if F32.ltb f_0 (freq (mel t s st))
  then trigNote c (freq (mel t s st)) (wave (mel t s st)) st
  else releaseNote c st.

Definition trigSequencerStep (s : nat) (st : Synth) : Synth :=
  let st := trigMelodyTrack 0 s st in
  let st := trigMelodyTrack 1 s st in
  let st := if drm 0 s st then trigKick st else st in
  let st := if drm 1 s st then trigSnare st else st in
  let st := if drm 2 s st then trigHat st else st in
  st.

(** One output frame: the sum of the five voices before the clamp, and
    the clamped sample. *)
Fixpoint mixChannels (n : nat) (c : nat) (mix : Z) (st : Synth) : Z * Synth :=
  match n with
  | O => (mix, st)
  | S n' =>
      let '(v, st') := synthSample c st in
      mixChannels n' (S c) (i32 (mix + v)) st'
  end.

Definition mixFrame (st : Synth) : Z * Synth := mixChannels NUM_CH 0 0 st.

Definition clampSample (mix : Z) : Z := i16 (constrain mix (-32767) 32767).

(** ** Arduino [String] operations used by the command decoder *)

Local Open Scope string_scope.
Local Open Scope Z_scope.

Fixpoint startsWith (s p : string) {struct p} : bool :=
  match p with
  | EmptyString => true
  | String b p' =>
      match s with
      | String a s' => (Ascii.eqb a b && startsWith s' p')%bool
      | EmptyString => false
      end
  end.

Fixpoint dropStr (n : nat) (s : string) : string :=
  match n, s with
  | O, _ => s
  | S n', String _ s' => dropStr n' s'
  | S _, EmptyString => EmptyString
  end.

Fixpoint takeStr (n : nat) (s : string) : string :=
  match n, s with
  | S n', String a s' => String a (takeStr n' s')
  | _, _ => EmptyString
  end.

Fixpoint findChar (c : ascii) (s : string) : option nat :=
  match s with
  | EmptyString => None
  | String a s' =>
      if Ascii.eqb a c then Some O else option_map S (findChar c s')
  end.

(** [s.indexOf(c, from)]; [from] is an [unsigned int]. *)
Definition indexOf (s : string) (c : ascii) (from : Z) : Z :=
  let from := u32 from in
  if Z.of_nat (String.length s) <=? from then -1
  else match findChar c (dropStr (Z.to_nat from) s) with
       | Some i => from + Z.of_nat i
       | None => -1
       end.

(** [s.substring(left, right)] and [s.substring(left)]; both bounds are
    [unsigned int]. *)
Definition substring (s : string) (left right : Z) : string :=
  let l := u32 left in
  let r := u32 right in
  let '(l, r) := if l >? r then (r, l) else (l, r) in
  if Z.of_nat (String.length s) <=? l then EmptyString
  else takeStr (Z.to_nat (r - l)) (dropStr (Z.to_nat l) s).

Definition substringFrom (s : string) (left : Z) : string :=
  substring s left (Z.of_nat (String.length s)).

(** C [isspace] and decimal digits. *)
Definition isSpace (a : ascii) : bool :=
  let n := N_of_ascii a in
  (N.eqb n 32 || (N.leb 9 n && N.leb n 13))%bool.

Definition digitVal (a : ascii) : option Z :=
  let n := Z.of_N (N_of_ascii a) in
  if (48 <=? n) && (n <=? 57) then Some (n - 48) else None.

Fixpoint skipSpaces (s : string) : string :=
  match s with
  | String a s' => if isSpace a then skipSpaces s' else s
  | EmptyString => s
  end.

(** Reads an optional sign; returns whether it was a minus. *)
Definition readSign (s : string) : bool * string :=
  match s with
  | String "-" s' => (true, s')
  | String "+" s' => (false, s')
  | _ => (false, s)
  end.

(** Reads a run of digits onto the accumulator [acc]; returns the value,
    the number of digits read and the rest. *)
Fixpoint readDigits (s : string) (acc : Z) (cnt : Z) : Z * Z * string :=
  match s with
  | String a s' =>
      match digitVal a with
      | Some d => readDigits s' (10 * acc + d) (cnt + 1)
      | None => (acc, cnt, s)
      end
  | EmptyString => (acc, cnt, s)
  end.

(** [s.toInt()]: [atol], that is [strtol] in base 10, which saturates. *)
Definition toInt (s : string) : Z :=
  let '(neg, s1) := readSign (skipSpaces s) in
  let '(v, _, _) := readDigits s1 0 0 in
  constrain (if neg then - v else v) (- 2 ^ 31) (2 ^ 31 - 1).

(** The optional exponent part of a decimal floating literal. *)
Definition readExponent (s : string) : Z :=
  match s with
  | String a s' =>
      if (Ascii.eqb a "e" || Ascii.eqb a "E")%bool then
        let '(neg, s2) := readSign s' in
        let '(v, cnt, _) := readDigits s2 0 0 in
        if cnt =? 0 then 0 else if neg then - v else v
      else 0
  | EmptyString => 0
  end.

(** [atof] on the decimal forms [[ws][sign]digits[.digits][e[sign]digits]],
    correctly rounded to double.  Text with no digits reads as 0; the
    hexadecimal, [inf] and [nan] spellings of [strtod] are not covered. *)
Definition atof (s : string) : float :=
  let '(neg, s1) := readSign (skipSpaces s) in
  let '(ip, icnt, s2) := readDigits s1 0 0 in
  let '(m, fcnt, s3) :=
    match s2 with
    | String "." s' => readDigits s' ip 0
    | _ => (ip, 0, s2)
    end in
  if icnt + fcnt =? 0 then S754_zero false
  else Fdecimal F64.prec F64.emax neg m (readExponent s3 - fcnt).

(** [s.toFloat()] returns [atof] narrowed to float. *)
Definition toFloat (s : string) : float := F32.of_double (atof s).

(** ** Pattern store updates *)

Definition set_mel (t s : nat) (m : MelStep) (st : Synth) : Synth :=
  set_melPat (upd t (upd s m (nth t (melPat st) [])) (melPat st)) st.

Definition set_drm (t s : nat) (v : bool) (st : Synth) : Synth :=
  set_drmPat (upd t (upd s v (nth t (drmPat st) [])) (drmPat st)) st.

(** ** WebSocket handler (text frames)

    [now] is the value [millis()] returns during the call. *)
Definition onWsEvent (msg : string) (now : Z) (st : Synth) : Synth :=
  if startsWith msg "PLAY:" then
    trigNote CH_LEAD (toFloat (substringFrom msg 5)) (liveWave st) st
  else if String.eqb msg "STOP" then
    releaseNote CH_LEAD st
  else if startsWith msg "WAVE:" then
    set_liveWave (constrain (toInt (substringFrom msg 5)) 0 2) st
  else if startsWith msg "VOL:" then
    set_gAmp (constrain (toInt (substringFrom msg 4)) 0 30000) st
  else if startsWith msg "SEQ_SET:" then
    let body := substringFrom msg 8 in
    let c1 := indexOf body "," 0 in
    let c2 := indexOf body "," (c1 + 1) in
    let c3 := indexOf body "," (c2 + 1) in
    if (c1 <? 0) || (c2 <? 0) || (c3 <? 0) then st
    else
      let t := constrain (toInt (substring body 0 c1)) 0
                         (Z.of_nat NUM_MEL_TRK - 1) in
      let s := constrain (toInt (substring body (c1 + 1) c2)) 0
                         (Z.of_nat NUM_STEPS - 1) in
      let f := toFloat (substring body (c2 + 1) c3) in
      let w := constrain (toInt (substringFrom body (c3 + 1))) 0 2 in
      set_mel (Z.to_nat t) (Z.to_nat s) (mkMelStep f w) st
  else if startsWith msg "SEQ_DRUM:" then
    let body := substringFrom msg 9 in
    let c1 := indexOf body "," 0 in
    let c2 := indexOf body "," (c1 + 1) in
    if (c1 <? 0) || (c2 <? 0) then st
    else
      let t := constrain (toInt (substring body 0 c1)) 0
                         (Z.of_nat NUM_DRM_TRK - 1) in
      let s := constrain (toInt (substring body (c1 + 1) c2)) 0
                         (Z.of_nat NUM_STEPS - 1) in
      set_drm (Z.to_nat t) (Z.to_nat s)
              (negb (toInt (substringFrom body (c2 + 1)) =? 0)) st
  else if startsWith msg "SEQ_BPM:" then
    set_seqBPM (constrain (toInt (substringFrom msg 8)) 40 240) st
  else if String.eqb msg "SEQ_PLAY" then
    set_seqPlay true (set_lastStepMs (u32 now) (set_seqStep 0 st))
  else if String.eqb msg "SEQ_STOP" then
    releaseNote CH_BASS (releaseNote CH_LEAD (set_seqPlay false st))
  else if String.eqb msg "SEQ_CLEAR" then
    releaseNote CH_BASS
      (releaseNote CH_LEAD
         (set_drmPat (repeat (repeat false NUM_STEPS) NUM_DRM_TRK)
            (set_melPat (repeat (repeat MelStep0 NUM_STEPS) NUM_MEL_TRK) st)))
  else st.

Local Close Scope string_scope.

(** ** Service loop *)

(** Step duration in ms: [60000UL / (unsigned long)seqBPM / 4].  (A zero
    divisor traps on the target; BPM is kept within 40..240 by the
    decoder.) *)
Definition stepDurMs (bpm : Z) : Z := 60000 / u32 bpm / 4.

(** The sequencer part of [loop()]; [now] is [millis()].  Returns the step
    announced to the browser ([STEP:n]) when a step fired. *)
Definition loopSequencer (now : Z) (st : Synth) : Synth * option Z :=
  if seqPlay st then
    let stepDur := stepDurMs (seqBPM st) in
    if u32 (u32 now - lastStepMs st) >=? stepDur then
      let st1 := set_lastStepMs (u32 (lastStepMs st + stepDur)) st in
      let st2 := trigSequencerStep (Z.to_nat (seqStep st1)) st1 in
      (set_seqStep (Z.rem (seqStep st2 + 1) (Z.of_nat NUM_STEPS)) st2,
       Some (seqStep st2))
    else (st, None)
  else (st, None).

(** [n] output frames: the sums before the clamp, in order. *)
Fixpoint renderFrames (n : nat) (st : Synth) : list Z * Synth :=
  match n with
  | O => ([], st)
  | S n' =>
      let '(mix, st1) := mixFrame st in
      let '(l, st2) := renderFrames n' st1 in
      (mix :: l, st2)
  end.

(** The interleaved stereo buffer handed to [i2s_write]. *)
Definition stereo (mixes : list Z) : list Z :=
  flat_map (fun mix => [clampSample mix; clampSample mix]) mixes.

(** The audio part of [loop()]. *)
Definition loopAudio (st : Synth) : list Z * Synth :=
  let '(mixes, st') := renderFrames BUF_SZ st in (stereo mixes, st').

(** Sequencer and audio parts of one [loop()] iteration. *)
Definition loop (now : Z) (st : Synth) : Synth * option Z * list Z :=
  let '(st1, note) := loopSequencer now st in
  let '(buf, st2) := loopAudio st1 in
  (st2, note, buf).

(** Serial menu, keys [+] and [-]. *)
Definition volumeUp (st : Synth) : Synth :=
  set_gAmp (Z.min (i32 (gAmp st + 1000)) 30000) st.
Definition volumeDown (st : Synth) : Synth :=
  set_gAmp (Z.max (i32 (gAmp st - 1000)) 0) st.

(** ** WAV export *)

(** The SD card as the sketch uses it: [SD.begin()] succeeds or not,
    [SD.open(path, FILE_WRITE)] succeeds or not, and the files it holds. *)
Record SDCard := mkSD {
  sd_begin : bool;
  sd_open : bool;
  sd_files : list (string * list Z)
}.

Definition sd_exists (path : string) (sd : SDCard) : bool :=
  existsb (fun f => String.eqb (fst f) path) (sd_files sd).
Definition sd_remove (path : string) (sd : SDCard) : SDCard :=
  mkSD (sd_begin sd) (sd_open sd)
       (filter (fun f => negb (String.eqb (fst f) path)) (sd_files sd)).
Definition sd_store (path : string) (bytes : list Z) (sd : SDCard) : SDCard :=
  mkSD (sd_begin sd) (sd_open sd)
       ((path, bytes) ::
        filter (fun f => negb (String.eqb (fst f) path)) (sd_files sd)).
Definition sd_read (path : string) (sd : SDCard) : option (list Z) :=
  option_map snd (find (fun f => String.eqb (fst f) path) (sd_files sd)).

(** Lines printed on the serial console by the export. *)
Inductive SerialLine :=
| ExportFailedSD
| ExportFailedOpen (path : string)
| Exporting (filename : string) (loops bpm totalSamples kb : Z)
| LoopDone (i n : Z)
| ExportComplete (path : string) (kb : Z).

(** Little-endian bytes of a 16- and a 32-bit value. *)
Definition bytesU16LE (v : Z) : list Z :=
  [v mod 256; (v / 256) mod 256].
Definition bytesU32LE (v : Z) : list Z :=
  [v mod 256; (v / 256) mod 256; (v / 65536) mod 256; (v / 16777216) mod 256].

Definition bytesOfString (s : string) : list Z :=
  map (fun a => Z.of_N (N_of_ascii a)) (list_ascii_of_string s).

(** File output is modelled by the bytes written so far. *)
Definition writeU16LE (f : list Z) (v : Z) : list Z := f ++ bytesU16LE v.
Definition writeU32LE (f : list Z) (v : Z) : list Z := f ++ bytesU32LE v.

Definition writeWAVHeader (f : list Z) (totalSamples : Z) : list Z :=
  let dataBytes := u32 (totalSamples * 4) in
  let chunkSize := u32 (36 + dataBytes) in
  let f := f ++ bytesOfString "RIFF" in
  let f := writeU32LE f chunkSize in
  let f := f ++ bytesOfString "WAVE" in
  let f := f ++ bytesOfString "fmt " in
  let f := writeU32LE f 16 in
  let f := writeU16LE f 1 in
  let f := writeU16LE f 2 in
  let f := writeU32LE f SAMPLE_RATE in
  let f := writeU32LE f (SAMPLE_RATE * 4) in
  let f := writeU16LE f 4 in
  let f := writeU16LE f 16 in
  let f := f ++ bytesOfString "data" in
  writeU32LE f dataBytes.

(** The render state of the export: the engine, the file written so far,
    and the filled part of [wbuf] ([wbufPos] stereo pairs). *)
Record Render := mkRender {
  r_synth : Synth;
  r_file : list Z;
  r_wbuf : list Z
}.

Definition WBUF_SZ : Z := 256.

Definition wbufPos (r : Render) : Z := Z.of_nat (List.length (r_wbuf r)) / 2.

Definition flushBuf (r : Render) : Render :=
  mkRender (r_synth r)
           (r_file r ++ flat_map (fun v => bytesU16LE (wrapU 16 v)) (r_wbuf r))
           [].

(** One pass of the innermost loop: a frame into [wbuf], flushed when
    full. *)
Definition exportFrame (r : Render) : Render :=
  let '(mix, st) := mixFrame (r_synth r) in
  let out := clampSample mix in
  let r1 := mkRender st (r_file r) (r_wbuf r ++ [out; out]) in
  if wbufPos r1 >=? WBUF_SZ then flushBuf r1 else r1.

(** A [for] loop whose body does not read its counter. *)
Fixpoint iterate {A : Type} (n : nat) (f : A -> A) (x : A) : A :=
  match n with
  | O => x
  | S n' => iterate n' f (f x)
  end.

Definition exportFrames (n : nat) (r : Render) : Render :=
  iterate n exportFrame r.

(** [for (step = from; step < from + n; step++)] *)
Fixpoint exportSteps (n : nat) (step : nat) (sps : nat) (r : Render) : Render :=
  match n with
  | O => r
  | S n' =>
      let r1 := mkRender (trigSequencerStep step (r_synth r))
                         (r_file r) (r_wbuf r) in
      exportSteps n' (S step) sps (exportFrames sps r1)
  end.

Definition exportLoops (n : nat) (sps : nat) (r : Render) : Render :=
  iterate n (exportSteps NUM_STEPS 0 sps) r.

(** [ch[c] = Channel()] for every channel. *)
Fixpoint resetChannels (n : nat) (c : nat) (st : Synth) : Synth :=
  match n with
  | O => st
  | S n' => resetChannels n' (S c) (put_chan c Channel0 st)
  end.

Definition loopLines (numLoops : Z) : list SerialLine :=
  map (fun i => LoopDone (Z.of_nat i + 1) numLoops)
      (seq 0 (Z.to_nat numLoops)).

Definition exportPatternToWAV (filename : string) (numLoops : Z)
           (sd : SDCard) (st : Synth) : Synth * SDCard * list SerialLine :=
  if negb (sd_begin sd) then (st, sd, [ExportFailedSD])
  else
    let path := ("/" ++ filename)%string in
    let sd := if sd_exists path sd then sd_remove path sd else sd in
    if negb (sd_open sd) then (st, sd, [ExportFailedOpen path])
    else
      let stepDur := stepDurMs (seqBPM st) in
      let samplesPerStep := u32 (SAMPLE_RATE * stepDur) / 1000 in
      let totalSamples :=
        u32 (u32 (samplesPerStep * Z.of_nat NUM_STEPS) * u32 numLoops) in
      let f := writeWAVHeader [] totalSamples in
      let st := resetChannels NUM_CH 0 st in
      let r := exportLoops (Z.to_nat numLoops) (Z.to_nat samplesPerStep)
                           (mkRender st f []) in
      let r := if wbufPos r >? 0 then flushBuf r else r in
      (r_synth r, sd_store path (r_file r) sd,
       [Exporting filename numLoops (seqBPM st) totalSamples
                  (u32 (totalSamples * 4) / 1024)]
       ++ loopLines numLoops
       ++ [ExportComplete path (u32 (totalSamples * 4) / 1024)]).

(** Serial menu, key [e]: the file name and loop count typed by the user. *)
Definition endsWith (s suffix : string) : bool :=
  (Nat.leb (String.length suffix) (String.length s)
   && String.eqb (dropStr (String.length s - String.length suffix) s) suffix)%bool.

Definition menuExport (fname loopsStr : string) (sd : SDCard) (st : Synth)
  : Synth * SDCard * list SerialLine :=
  if String.eqb fname "" then (st, sd, [])
  else
    let fname := if endsWith fname ".wav" then fname
                 else (fname ++ ".wav")%string in
    let loops := constrain (toInt loopsStr) 1 8 in
    let loops := if loops =? 0 then 2 else loops in
    exportPatternToWAV fname loops sd st.

(** ** Everything that acts on the engine *)

Inductive Event :=
| EvWs (msg : string) (now : Z)
| EvLoop (now : Z)
| EvKeyPlus
| EvKeyMinus
| EvKeyExport (fname loopsStr : string) (sd : SDCard).

Definition handle (ev : Event) (st : Synth) : Synth :=
  match ev with
  | EvWs msg now => onWsEvent msg now st
  | EvLoop now => fst (fst (loop now st))
  | EvKeyPlus => volumeUp st
  | EvKeyMinus => volumeDown st
  | EvKeyExport fname loopsStr sd => fst (fst (menuExport fname loopsStr sd st))
  end.

Definition run (evs : list Event) (st : Synth) : Synth :=
  fold_left (fun s ev => handle ev s) evs st.

(** States the running sketch can be in. *)
Definition reachable (st : Synth) : Prop := exists evs, st = run evs Synth0.

(** ** Vocabulary of the properties *)

(** What a trigger and a release leave in a channel. *)
Definition noteOn (f : float) (w : Z) : Channel :=
  mkChannel f_0 f w f_1 f_0_9998 true false f_1.
Definition released (k : Channel) : Channel :=
  set_active false (set_envLvl f_0 k).
Definition kickOn : Channel :=
  mkChannel f_0 f_200 0 f_1 f_0_9997 true false f_0_9991.
Definition noiseOn (dcy : float) (k : Channel) : Channel :=
  mkChannel (phase k) (curFreq k) (waveType k) f_1 dcy true true f_1.

(** "Exactly 0": the two signed zeros. *)
Definition isZero (x : float) : bool :=
  match x with S754_zero _ => true | _ => false end.

Definition Flt (x y : float) : Prop := SFltb x y = true.
Definition Fle (x y : float) : Prop := SFleb x y = true.


(** Comma-delimited fields of a command body: one more than its commas. *)
Fixpoint countChar (c : ascii) (s : string) : nat :=
  match s with
  | EmptyString => O
  | String a s' => if Ascii.eqb a c then S (countChar c s') else countChar c s'
  end.

Definition fieldCount (body : string) : nat := S (countChar "," body).

(** A set-melodic-step message needs four fields, a set-drum-step message
    three. *)
Definition lacksField (msg : string) : Prop :=
  (exists body, msg = ("SEQ_SET:" ++ body)%string /\ (fieldCount body < 4)%nat)
  \/ (exists body, msg = ("SEQ_DRUM:" ++ body)%string /\ (fieldCount body < 3)%nat).

(** Runs [loop()] once at each of the times [nows]; returns the final state
    and the steps announced, in order. *)
Fixpoint runLoops (nows : list Z) (st : Synth) : Synth * list Z :=
  match nows with
  | [] => (st, [])
  | now :: rest =>
      let '(st1, note, _) := loop now st in
      let '(st2, notes) := runLoops rest st1 in
      (st2, match note with Some n => n :: notes | None => notes end)
  end.

(** Every iteration at the times [nows] finds at least [d] ms elapsed on
    the 32-bit clock since the reference, which starts at [ref] and moves
    by [d] per iteration. *)
Fixpoint allDue (d ref : Z) (nows : list Z) : Prop :=
  match nows with
  | [] => True
  | now :: rest => d <= u32 (u32 now - ref) /\ allDue d (u32 (ref + d)) rest
  end.

(** The part of the state that triggers and synthesis never write. *)
Definition sameControl (a b : Synth) : Prop :=
  gAmp a = gAmp b /\ liveWave a = liveWave b
  /\ melPat a = melPat b /\ drmPat a = drmPat b
  /\ seqPlay a = seqPlay b /\ seqBPM a = seqBPM b
  /\ seqStep a = seqStep b /\ lastStepMs a = lastStepMs b
  /\ List.length (ch a) = List.length (ch b)
  /\ List.length (nlfsr a) = List.length (nlfsr b).

(** An all-rest, all-off pattern and an engine with no active voice. *)
Definition allRest (st : Synth) : Prop :=
  forall t s, (t < NUM_MEL_TRK)%nat -> (s < NUM_STEPS)%nat ->
              isZero (freq (mel t s st)) = true.
Definition allOff (st : Synth) : Prop :=
  forall t s, (t < NUM_DRM_TRK)%nat -> (s < NUM_STEPS)%nat ->
              drm t s st = false.
Definition silent (st : Synth) : Prop :=
  forall c, (c < NUM_CH)%nat -> active (chan c st) = false.
Definition quiet (st : Synth) : Prop := silent st /\ allRest st /\ allOff st.

(** A render that has produced [frames] frames of silence behind the
    header [hdr]: part of them in the file, the rest still in [wbuf]. *)
Definition zeroRender (hdr : list Z) (frames : nat) (r : Render) : Prop :=
  quiet (r_synth r)
  /\ exists k n, r_file r = hdr ++ repeat 0 k
                 /\ r_wbuf r = repeat 0 (2 * n)
                 /\ (k + 4 * n = 4 * frames)%nat.

(** [synthSample] seen from one voice: what it does to the channel record,
    the sample it returns given the noise register [lf] it reads, and
    whether it advances that register. *)
Definition voiceIdle (k : Channel) : bool :=
  negb (active k) || F32.ltb (envLvl k) f_0_001.

Definition voiceNext (k : Channel) : Channel :=
  if voiceIdle k then set_active false k
  else if isNoise k then envStep k
  else envStep (pitchStep (phaseStep k)).

Definition voiceVal (g : Z) (k : Channel) (lf : Z) : Z :=
  if voiceIdle k then 0
  else if isNoise k then
    if Z.testbit (lfsrNext lf) 0 then i16 (voiceAmp g k)
    else i16 (- voiceAmp g k)
  else waveVal k (voiceAmp g k).

Definition usesNoise (k : Channel) : bool := negb (voiceIdle k) && isNoise k.

Definition noiseIndex (c : nat) : nat :=
  if Nat.eqb c CH_SNARE then 0%nat else 1%nat.

(** Two engines that render the same audio from here on: same channels,
    volume and patterns, and the same noise register wherever a sounding
    noise voice will read it before the next reseed. *)
Definition agree (a b : Synth) : Prop :=
  ch a = ch b
  /\ List.length (ch a) = NUM_CH
  /\ gAmp a = gAmp b /\ melPat a = melPat b /\ drmPat a = drmPat b
  /\ List.length (nlfsr a) = 2%nat /\ List.length (nlfsr b) = 2%nat
  /\ (forall c, (c < CH_SNARE)%nat -> isNoise (chan c a) = false)
  /\ (active (chan CH_SNARE a) = true ->
      nth 0 (nlfsr a) 0 = nth 0 (nlfsr b) 0)
  /\ (active (chan CH_HAT a) = true ->
      nth 1 (nlfsr a) 0 = nth 1 (nlfsr b) 0).

Definition agreeRender (ra rb : Render) : Prop :=
  agree (r_synth ra) (r_synth rb)
  /\ r_file ra = r_file rb /\ r_wbuf ra = r_wbuf rb.

(** A live note-on whose frequency text reads as zero. *)
Definition playsZero (ev : Event) : bool :=
  match ev with
  | EvWs msg _ =>
      startsWith msg "PLAY:" && isZero (toFloat (substringFrom msg 5))
  | _ => false
  end.

(** No sounding channel holds frequency 0; the two noise channels never
    hold it at all (their triggers do not write the frequency). *)
Definition freqInv (st : Synth) : Prop :=
  List.length (ch st) = NUM_CH
  /\ (forall c, (c < NUM_CH)%nat -> active (chan c st) = true ->
                isZero (curFreq (chan c st)) = false)
  /\ isZero (curFreq (chan CH_SNARE st)) = false
  /\ isZero (curFreq (chan CH_HAT st)) = false.

(** Structural equality on floats (not the IEEE comparison). *)
Definition float_same (x y : float) : bool :=
  match x, y with
  | S754_zero s, S754_zero s' => Bool.eqb s s'
  | S754_infinity s, S754_infinity s' => Bool.eqb s s'
  | S754_nan, S754_nan => true
  | S754_finite s m e, S754_finite s' m' e' =>
      Bool.eqb s s' && Pos.eqb m m' && Z.eqb e e'
  | _, _ => false
  end.

(** [n] rendered samples of the Kick channel. *)
Definition renderKick (n : nat) (st : Synth) : Synth :=
  iterate n (fun s => snd (synthSample CH_KICK s)) st.

(** Runs a voice for [n] samples, checking on every sample that the
    frequency is above the 30 Hz floor and that the sample lowers it;
    returns the voice afterwards. *)
Fixpoint sweepRun (n : nat) (k : Channel) : option Channel :=
  match n with
  | O => Some k
  | S n' =>
      let k' := voiceNext k in
      if SFltb (curFreq k') (curFreq k) && SFltb f_30 (curFreq k)
      then sweepRun n' k' else None
  end.

(** The number of samples after which the Kick first sits on its floor. *)
Definition KICK_SWEEP : nat := Z.to_nat 2108.

(** Envelope levels a voice passes through from level [x] under decay [d]:
    the level decays while it is at least 0.001. *)
Inductive envFrom (d : float) : float -> float -> Prop :=
| envFrom_here x : envFrom d x x
| envFrom_next x y :
    F32.ltb x f_0_001 = false -> envFrom d (F32.mul x d) y -> envFrom d x y.

(** A float that is zero or positive and at most 1, decided on mantissa
    and exponent. *)
Definition unitLevelb (x : float) : bool :=
  match x with
  | S754_zero _ => true
  | S754_finite false m e => (e <=? 0) && (Zpos m <=? 2 ^ (- e))
  | _ => false
  end.

(** Follows the envelope from [x] until it drops below 0.001 (within
    [fuel] samples), checking that every level is an ordinary number
    within [0,1] and that every decay step does not raise it. *)
Fixpoint envDecays (fuel : nat) (d x : float) : bool :=
  match fuel with
  | O => false
  | S n =>
      SFleb x x && SFleb f_0 x && unitLevelb x
      && (if F32.ltb x f_0_001 then true
          else SFleb (F32.mul x d) x && envDecays n d (F32.mul x d))
  end.

(** Samples allowed for an envelope to fall below 0.001. *)
Definition envFuel : nat := Z.to_nat 40000.

(** Triggers, and the operations between two triggers of a channel. *)
Inductive Trigger :=
| TrNote (c : nat) (f : float) (w : Z)
| TrKick
| TrSnare
| TrHat.

Definition triggerChan (t : Trigger) : nat :=
  match t with
  | TrNote c _ _ => c
  | TrKick => CH_KICK
  | TrSnare => CH_SNARE
  | TrHat => CH_HAT
  end.

Definition triggerDecay (t : Trigger) : float :=
  match t with
  | TrNote _ _ _ => f_0_9998
  | TrKick => f_0_9997
  | TrSnare => f_0_9988
  | TrHat => f_0_9970
  end.

Definition fire (t : Trigger) (st : Synth) : Synth :=
  match t with
  | TrNote c f w => trigNote c f w st
  | TrKick => trigKick st
  | TrSnare => trigSnare st
  | TrHat => trigHat st
  end.

Inductive VoiceOp :=
| OpSynth (c : nat)
| OpRelease (c : nat)
| OpFire (t : Trigger).

Definition applyOp (op : VoiceOp) (st : Synth) : Synth :=
  match op with
  | OpSynth c => snd (synthSample c st)
  | OpRelease c => releaseNote c st
  | OpFire t => fire t st
  end.

(** [op] is not a trigger of channel [c]. *)
Definition noTriggerOf (c : nat) (op : VoiceOp) : Prop :=
  match op with
  | OpFire t => triggerChan t <> c
  | _ => True
  end.

(** A channel on its way down from a trigger with decay [d]. *)
Definition decaying (d : float) (k : Channel) : Prop :=
  envDcy k = d /\ (envLvl k = f_0 \/ envFrom d f_1 (envLvl k)).

(** ** Vocabulary of the amplitude bound *)

(** Order of the dyadic numbers [m1 * 2^e1] and [m2 * 2^e2]. *)
Definition dle (m1 e1 m2 e2 : Z) : Prop :=
  m1 * 2 ^ (e1 - Z.min e1 e2) <= m2 * 2 ^ (e2 - Z.min e1 e2).

(** Something was lost in a right shift. *)
Definition inexact (r : shr_record) : bool := shr_r r || shr_s r.

(** [r'] is [r] shifted right by [k] bits: the mantissa is halved [k]
    times, and nothing is flagged lost unless something was. *)
Definition shiftedBy (k : Z) (r r' : shr_record) : Prop :=
  shr_m r' = shr_m r / 2 ^ k
  /\ (inexact r = false -> shr_m r mod 2 ^ k = 0 -> inexact r' = false).

(** A float whose magnitude is at most 1, and one that is also not
    negative. *)
Definition unitRamp (x : float) : Prop :=
  match x with
  | S754_zero _ => True
  | S754_finite _ m e => dle (Zpos m) e 1 0
  | _ => False
  end.

Definition unitLevel (x : float) : Prop :=
  match x with
  | S754_zero _ => True
  | S754_finite false m e => dle (Zpos m) e 1 0
  | _ => False
  end.

(** The ramp factor of the sawtooth, [phase / (2.0f * PI) * 2.0f - 1.0f]. *)
Definition sawRamp (k : Channel) : float :=
  F64.sub (F64.mul (F64.div (F64.of_float (phase k)) TWO_PI)
                   (F64.of_float f_2))
          (F64.of_float f_1).

(** The voice is sounding on the sawtooth branch. *)
Definition takesSaw (k : Channel) : bool :=
  negb (voiceIdle k) && negb (isNoise k) && (waveType k =? 1).

(** A channel within the design range of the mixer: envelope level in
    [0,1] and, if it sounds a sawtooth, ramp factor in [-1,1]. *)
Definition tame (k : Channel) : Prop :=
  unitLevel (envLvl k) /\ (takesSaw k = true -> unitRamp (sawRamp k)).

(** [(float)g / NUM_CH] comes out as a regular float, not negative, not
    above [g / 5]. *)
Definition fifthOk (g : Z) : bool :=
  match F32.div (F32.of_Z g) (F32.of_Z (Z.of_nat NUM_CH)) with
  | S754_zero _ => true
  | S754_finite false m e =>
      bounded F32.prec F32.emax m e && (e <=? 0)
      && (Z.shiftl (Zpos m) e <=? g / 5)
  | _ => false
  end.

(** An amplitude converts to double exactly, as a regular float. *)
Definition ampOk (a : Z) : bool :=
  match F64.of_Z a with
  | S754_zero _ => a =? 0
  | S754_finite false m e =>
      bounded F64.prec F64.emax m e && (e <=? 0)
      && (Z.shiftl (Zpos m) e =? a)
  | _ => false
  end.

(** [f] holds at [z], [z+1], ..., [z+n-1]. *)
Fixpoint allFrom (f : Z -> bool) (n : nat) (z : Z) : bool :=
  match n with
  | O => true
  | S n' => f z && allFrom f n' (z + 1)
  end.

(** The envelope of the channel is 0 or on its way down from some
    trigger. *)
Definition enveloped (k : Channel) : Prop :=
  exists t, decaying (triggerDecay t) k.

(** The ranges the mixer is designed for: volume within 0..30000 and
    every channel enveloped. *)
Definition inDesign (st : Synth) : Prop :=
  0 <= gAmp st <= 30000
  /\ List.length (ch st) = NUM_CH
  /\ forall c, (c < NUM_CH)%nat -> enveloped (chan c st).

(** States the engine passes through, operation by operation: commands
    and keys, sequencer steps, single voices and frames, and the steps of
    an export. *)
Inductive live : Synth -> Prop :=
| live_start : live Synth0
| live_handle ev st : live st -> live (handle ev st)
| live_sequencer now st : live st -> live (fst (loopSequencer now st))
| live_voice c st : live st -> live (snd (synthSample c st))
| live_frame st : live st -> live (snd (mixFrame st))
| live_reset st : live st -> live (resetChannels NUM_CH 0 st)
| live_step s st : live st -> live (trigSequencerStep s st).

(** ** Vocabulary of the noise generator *)

(** The register after [n] steps. *)
Definition lfsrRun (n : nat) (s : Z) : Z := iterate n lfsrNext s.

(** The step back: bit 15 of a successor tells whether the feedback mask
    was applied. *)
Definition lfsrPrev (s : Z) : Z :=
  if Z.testbit s 15 then Z.lor (Z.shiftl (Z.lxor s 0xB400) 1) 1
  else Z.shiftl s 1.

(** One step keeps a 16-bit value 16-bit, keeps a nonzero value nonzero,
    and is undone by [lfsrPrev]. *)
Definition lfsrStepOk (s : Z) : bool :=
  let r := lfsrNext s in
  (0 <=? r) && (r <? 2 ^ 16) && (lfsrPrev r =? s)
  && ((s =? 0) || negb (r =? 0)).

(** Steps until the register, now at [x] after [n] steps, is first back
    at [s]; [None] if that takes more than [fuel] steps. *)
Fixpoint firstReturn (fuel : nat) (s x : Z) (n : Z) : option Z :=
  match fuel with
  | O => None
  | S fuel' =>
      let x' := lfsrNext x in
      if x' =? s then Some (n + 1) else firstReturn fuel' s x' (n + 1)
  end.

(** The period of a maximal-length 16-bit register. *)
Definition LFSR_PERIOD : nat := Z.to_nat 65535.

(** ** Vocabulary of the state invariants *)

(** A waveform selector with a case in the [switch] of [synthSample]. *)
Definition waveOk (w : Z) : Prop := 0 <= w <= 2.

(** The arrays have their declared sizes, the indices and parameters the
    engine computes with are within their ranges, the noise registers are
    nonzero 16-bit values, and only the Snare and Hat channels are noise
    voices. *)
Record wellFormed (st : Synth) : Prop := mkWellFormed {
  wf_ch : List.length (ch st) = NUM_CH;
  wf_nlfsr : List.length (nlfsr st) = 2%nat;
  wf_noise : Forall (fun r => 0 < r < 2 ^ 16) (nlfsr st);
  wf_mel : List.length (melPat st) = NUM_MEL_TRK;
  wf_melSteps : Forall (fun t => List.length t = NUM_STEPS) (melPat st);
  wf_drm : List.length (drmPat st) = NUM_DRM_TRK;
  wf_drmSteps : Forall (fun t => List.length t = NUM_STEPS) (drmPat st);
  wf_waves : Forall (Forall (fun m => waveOk (wave m))) (melPat st);
  wf_gAmp : 0 <= gAmp st <= 30000;
  wf_liveWave : waveOk (liveWave st);
  wf_bpm : 40 <= seqBPM st <= 240;
  wf_step : 0 <= seqStep st < Z.of_nat NUM_STEPS;
  wf_clock : 0 <= lastStepMs st < 2 ^ 32;
  wf_voice : forall c, (c < NUM_CH)%nat -> waveOk (waveType (chan c st));
  wf_tonal : forall c, (c < CH_SNARE)%nat -> isNoise (chan c st) = false
}.

(** ** Vocabulary of the ring time of a voice *)

(** [n] rendered samples of channel [c]. *)
Definition renderVoice (c : nat) (n : nat) (st : Synth) : Synth :=
  iterate n (fun s => snd (synthSample c s)) st.

(** Counts the samples an envelope at level [x] under decay [d] stays at
    or above the 0.001 cut-off, from count [n]; [None] if more than [fuel]. *)
Fixpoint soundsFor (fuel : nat) (d x : float) (n : Z) : option Z :=
  match fuel with
  | O => None
  | S fuel' =>
      if F32.ltb x f_0_001 then Some n
      else soundsFor fuel' d (F32.mul x d) (n + 1)
  end.

(** Samples a voice sounds for after its trigger. *)
Definition ringSamples (t : Trigger) : Z :=
  match t with
  | TrNote _ _ _ => 34540
  | TrKick => 23024
  | TrSnare => 5753
  | TrHat => 2300
  end.

(** ** Vocabulary of the export *)

(** The frames of [n] sequencer steps from [step] on, [sps] frames after
    each trigger: the sums before the clamp, in order, and the engine
    afterwards. *)
Fixpoint stepsFrames (n step sps : nat) (st : Synth) : list Z * Synth :=
  match n with
  | O => ([], st)
  | S n' =>
      let '(l1, st1) := renderFrames sps (trigSequencerStep step st) in
      let '(l2, st2) := stepsFrames n' (S step) sps st1 in
      (l1 ++ l2, st2)
  end.

(** The frames of [n] passes over the 16 steps. *)
Fixpoint loopsFrames (n sps : nat) (st : Synth) : list Z * Synth :=
  match n with
  | O => ([], st)
  | S n' =>
      let '(l1, st1) := stepsFrames NUM_STEPS 0 sps st in
      let '(l2, st2) := loopsFrames n' sps st1 in
      (l1 ++ l2, st2)
  end.

(** The two bytes of a 16-bit sample and the four bytes of a stereo frame
    as they lie in the file: the clamped sum, little-endian, left then
    right. *)
Definition sampleBytes (v : Z) : list Z := bytesU16LE (wrapU 16 v).
Definition frameBytes (mix : Z) : list Z :=
  sampleBytes (clampSample mix) ++ sampleBytes (clampSample mix).

(** Everything a render has produced: the file so far followed by what
    still sits in the write buffer. *)
Definition produced (r : Render) : list Z :=
  r_file r ++ flat_map sampleBytes (r_wbuf r).

(** The write buffer holds whole frames and has room for one more. *)
Definition bufferOk (r : Render) : Prop :=
  Nat.Even (List.length (r_wbuf r))
  /\ (List.length (r_wbuf r) < 2 * Z.to_nat WBUF_SZ)%nat.

(** The sizes [exportPatternToWAV] computes. *)
Definition samplesPerStep (bpm : Z) : Z :=
  u32 (SAMPLE_RATE * stepDurMs bpm) / 1000.
Definition totalSamples (bpm numLoops : Z) : Z :=
  u32 (u32 (samplesPerStep bpm * Z.of_nat NUM_STEPS) * u32 numLoops).

(** The value of a little-endian byte string, and the field of [n] bytes
    at offset [off] of a file. *)
Definition leValue (bs : list Z) : Z :=
  fold_right (fun b acc => b + 256 * acc) 0 bs.
Definition field (off n : nat) (file : list Z) : list Z :=
  firstn n (skipn off file).

Definition isByte (b : Z) : Prop := 0 <= b < 256.

(** ** Numbers as text *)

Local Open Scope string_scope.
Local Open Scope Z_scope.

(** The decimal digits of [n >= 0] in front of [acc], least significant
    digit first as [itoa] produces them; [fuel] bounds the digit count. *)
Fixpoint digitsOf (fuel : nat) (n : Z) (acc : string) : string :=
  match fuel with
  | O => acc
  | S fuel' =>
      let acc' := String (ascii_of_N (Z.to_N (48 + n mod 10))) acc in
      if n / 10 =? 0 then acc' else digitsOf fuel' (n / 10) acc'
  end.

(** Arduino's [String(int)]: [itoa] in base 10.  A 32-bit [int] has at
    most ten digits.  JavaScript's conversion of an integer of that size
    to a string gives the same text. *)
Definition String_of_int (n : Z) : string :=
  if n <? 0 then String "-" (digitsOf 10 (- n) "") else digitsOf 10 n "".

(** The text of a whole frequency reads back as that frequency. *)
Definition freqTextOk (f : Z) : bool :=
  float_same (toFloat (String_of_int f)) (F32.of_Z f).

Local Close Scope string_scope.

(** ** The control page

    The script of the page the sketch serves, as far as it keeps the
    pattern grid and builds the text messages it sends to the device.
    Its numbers are the integers of its tables and controls; [+] on a
    string and such a number appends the number's decimal text. *)

Module Page.
Local Open Scope string_scope.
Local Open Scope Z_scope.

(** [NOTES]: name and frequency; index 0, [null], is the rest. *)
Definition NOTES : list (option (string * Z)) :=
  [None;
   Some ("C3", 131); Some ("D3", 147); Some ("E3", 165); Some ("F3", 175);
   Some ("G3", 196); Some ("A3", 220); Some ("B3", 247);
   Some ("C4", 262); Some ("D4", 294); Some ("E4", 330); Some ("F4", 349);
   Some ("G4", 392); Some ("A4", 440); Some ("B4", 494);
   Some ("C5", 523); Some ("D5", 587); Some ("E5", 659); Some ("F5", 698);
   Some ("G5", 784); Some ("A5", 880); Some ("B5", 988);
   Some ("C6", 1047)].

(** The piano keys: frequencies of [WKS] (white) and [BKS] (black). *)
Definition WKS : list Z :=
  [131; 147; 165; 175; 196; 220; 247; 262; 294; 330; 349; 392; 440; 494;
   523; 587; 659; 698; 784; 880; 988; 1047].
Definition BKS : list Z :=
  [139; 156; 185; 208; 233; 277; 311; 370; 415; 466; 554; 622; 740; 831;
   932].

(** A cell of the melodic grid, [{ni, wave}]. *)
Record Step := mkStep { ni : nat; wave : Z }.

(** The page's state: [melPat], [drmPat], [curWave], [seqRunning]. *)
Record State := mkState {
  melPat : list (list Step);
  drmPat : list (list bool);
  curWave : Z;
  seqRunning : bool
}.

(** The state after the script has loaded. *)
Definition State0 : State :=
  mkState [repeat (mkStep 0 0) 16; repeat (mkStep 0 1) 16]
          (repeat (repeat false 16) 3) 0 false.

(** [melPat[ti][s]] and [drmPat[ti][s]] for indices of the grid. *)
Definition mel (ti s : nat) (p : State) : Step :=
  nth s (nth ti (melPat p) []) (mkStep 0 0).
Definition drm (ti s : nat) (p : State) : bool :=
  nth s (nth ti (drmPat p) []) false.

Definition set_mel (ti s : nat) (x : Step) (p : State) : State :=
  mkState (upd ti (upd s x (nth ti (melPat p) [])) (melPat p))
          (drmPat p) (curWave p) (seqRunning p).
Definition set_drm (ti s : nat) (v : bool) (p : State) : State :=
  mkState (melPat p)
          (upd ti (upd s v (nth ti (drmPat p) [])) (drmPat p)) (curWave p)
          (seqRunning p).

(** [n ? n.f : 0] for [n = NOTES[step.ni]]. *)
Definition freqOf (x : Step) : Z :=
  match nth (ni x) NOTES None with
  | Some (_, f) => f
  | None => 0
  end.

(** The messages handed to [send]. *)
Definition sendMelStep (ti s : nat) (x : Step) : string :=
  "SEQ_SET:" ++ String_of_int (Z.of_nat ti) ++ ","
  ++ String_of_int (Z.of_nat s) ++ ","
  ++ String_of_int (freqOf x) ++ "," ++ String_of_int (wave x).

Definition sendDrmStep (ti s : nat) (v : bool) : string :=
  "SEQ_DRUM:" ++ String_of_int (Z.of_nat ti) ++ ","
  ++ String_of_int (Z.of_nat s) ++ ","
  ++ String_of_int (if v then 1 else 0).

(** [cycleMel], [clearMel] and [toggleDrm] on the cell of track [ti]
    (the [td.ti] of its row) and step [s]: the new state and the messages
    sent. *)
Definition cycleMel (ti s : nat) (p : State) : State * list string :=
  let x := mkStep (Nat.modulo (ni (mel ti s p) + 1) (List.length NOTES))
                  (curWave p) in
  (set_mel ti s x p, [sendMelStep ti s x]).

Definition clearMel (ti s : nat) (p : State) : State * list string :=
  let x := mkStep 0 (curWave p) in
  (set_mel ti s x p, [sendMelStep ti s x]).

Definition toggleDrm (ti s : nat) (p : State) : State * list string :=
  let v := negb (drm ti s p) in
  (set_drm ti s v p, [sendDrmStep ti s v]).

(** [setWave], [setVol], [setBPM] and [pressKey] with a new key. *)
Definition setWave (w : Z) (p : State) : State * list string :=
  (mkState (melPat p) (drmPat p) w (seqRunning p),
   ["WAVE:" ++ String_of_int w]).
Definition setVol (v : Z) : string := "VOL:" ++ String_of_int (v * 1000).
Definition setBPM (v : Z) : string := "SEQ_BPM:" ++ String_of_int v.
Definition pressKey (f : Z) : string := "PLAY:" ++ String_of_int f.

(** [clearAll]: every cell of track [ti] becomes [{ni:0, wave: ti===1?1:0}],
    every drum cell [false]. *)
Fixpoint clearTracks (ti : nat) (l : list (list Step)) : list (list Step) :=
  match l with
  | [] => []
  | t :: r =>
      map (fun _ => mkStep 0 (if Nat.eqb ti 1 then 1 else 0)) t
      :: clearTracks (S ti) r
  end.

Definition clearAll (p : State) : State * list string :=
  (mkState (clearTracks 0 (melPat p))
           (map (map (fun _ => false)) (drmPat p)) (curWave p)
           (seqRunning p),
   ["SEQ_CLEAR"]).

(** [togglePlay] and [stopSeq]. *)
Definition togglePlay (p : State) : State * list string :=
  if seqRunning p
  then (mkState (melPat p) (drmPat p) (curWave p) false, ["SEQ_STOP"])
  else (mkState (melPat p) (drmPat p) (curWave p) true, ["SEQ_PLAY"]).

Definition stopSeq (p : State) : State * list string :=
  (mkState (melPat p) (drmPat p) (curWave p) false, ["SEQ_STOP"]).

(** The grid has its two melodic and three drum rows of 16 cells, and the
    selectors are within their tables. *)
Record ok (p : State) : Prop := mkOk {
  ok_mel : List.length (melPat p) = 2%nat;
  ok_melSteps : Forall (fun t => List.length t = 16%nat) (melPat p);
  ok_drm : List.length (drmPat p) = 3%nat;
  ok_drmSteps : Forall (fun t => List.length t = 16%nat) (drmPat p);
  ok_cells :
    Forall (Forall (fun x => (ni x < List.length NOTES)%nat
                             /\ 0 <= wave x <= 2)) (melPat p);
  ok_wave : 0 <= curWave p <= 2
}.

(** A saved song, [{name, bpm, mel, drm}], and the list kept in
    [localStorage] under [LS_KEY].  The list is stored as its JSON text;
    for these records of strings, whole numbers and booleans parsing that
    text gives the list back, so the store is modelled by the list. *)
Record Song := mkSong {
  name : string;
  bpm : Z;
  mel_of : list (list Step);
  drm_of : list (list bool)
}.

(** [saveSong] with the trimmed content [nm] of the name field and
    [parseInt] of the BPM field ([None] for [NaN]); [|| 120] replaces
    [NaN] and 0. *)
Fixpoint putSong (song : Song) (songs : list Song) : list Song :=
  match songs with
  | [] => [song]
  | x :: rest =>
      if String.eqb (name x) (name song) then song :: rest
      else x :: putSong song rest
  end.

Definition saveSong (nm : string) (bpmIn : option Z) (p : State)
           (songs : list Song) : list Song :=
  if String.eqb nm "" then songs
  else
    let b := match bpmIn with
             | Some b => if b =? 0 then 120 else b
             | None => 120
             end in
    putSong (mkSong nm b (melPat p) (drmPat p)) songs.

(** [deleteSong]. *)
Definition deleteSong (nm : string) (songs : list Song) : list Song :=
  filter (fun s => negb (String.eqb (name s) nm)) songs.

(** The first song of a name, as the list shows it. *)
Definition findSong (nm : string) (songs : list Song) : option Song :=
  find (fun s => String.eqb (name s) nm) songs.

(** The two nested [forEach] of [loadSong]: cell by cell, the page's cell
    is set and its message sent.  The cells lie within the grid for a
    song that was saved from it. *)
Fixpoint loadMelRow (ti s : nat) (row : list Step) (r : State * list string)
  : State * list string :=
  match row with
  | [] => r
  | x :: rest =>
      loadMelRow ti (S s) rest
        (set_mel ti s x (fst r), (snd r ++ [sendMelStep ti s x])%list)
  end.

Fixpoint loadMel (ti : nat) (rows : list (list Step))
         (r : State * list string) : State * list string :=
  match rows with
  | [] => r
  | row :: rest => loadMel (S ti) rest (loadMelRow ti 0 row r)
  end.

Fixpoint loadDrmRow (ti s : nat) (row : list bool) (r : State * list string)
  : State * list string :=
  match row with
  | [] => r
  | v :: rest =>
      loadDrmRow ti (S s) rest
        (set_drm ti s v (fst r), (snd r ++ [sendDrmStep ti s v])%list)
  end.

Fixpoint loadDrm (ti : nat) (rows : list (list bool))
         (r : State * list string) : State * list string :=
  match rows with
  | [] => r
  | row :: rest => loadDrm (S ti) rest (loadDrmRow ti 0 row r)
  end.

Definition loadSong (song : Song) (p : State) : State * list string :=
  let r := if seqRunning p then stopSeq p else (p, []) in
  let m := "SEQ_BPM:" ++ String_of_int (bpm song) in
  let r := (fst r, (snd r ++ [m])%list) in
  loadDrm 0 (drm_of song) (loadMel 0 (mel_of song) r).

(** A song with the shape of the grid. *)
Definition songOk (song : Song) : Prop :=
  ok (mkState (mel_of song) (drm_of song) 0 false)
  /\ - 2 ^ 31 <= bpm song < 2 ^ 31.

End Page.

(** ** Page and device together *)

(** What the user does on the page and what else happens to the device. *)
Inductive Action :=
| ACycle (ti s : nat)
| AClear (ti s : nat)
| AToggle (ti s : nat)
| AWave (w : Z)
| AClearAll
| ATogglePlay
| AStop
| ADevice (ev : Event).

(** The cells and selector values the page offers; a device event here is
    anything but a message from a second page. *)
Definition offered (a : Action) : Prop :=
  match a with
  | ACycle ti s | AClear ti s => (ti < 2)%nat /\ (s < 16)%nat
  | AToggle ti s => (ti < 3)%nat /\ (s < 16)%nat
  | AWave w => 0 <= w <= 2
  | ADevice (EvWs _ _) => False
  | _ => True
  end.

(** The messages of the page arrive in order, at time [now]. *)
Definition deliver (now : Z) (msgs : list string) (st : Synth) : Synth :=
  fold_left (fun s m => onWsEvent m now s) msgs st.

Definition act (now : Z) (a : Action) (ps : Page.State * Synth)
  : Page.State * Synth :=
  let '(p, st) := ps in
  let via (r : Page.State * list string) := (fst r, deliver now (snd r) st) in
  match a with
  | ACycle ti s => via (Page.cycleMel ti s p)
  | AClear ti s => via (Page.clearMel ti s p)
  | AToggle ti s => via (Page.toggleDrm ti s p)
  | AWave w => via (Page.setWave w p)
  | AClearAll => via (Page.clearAll p)
  | ATogglePlay => via (Page.togglePlay p)
  | AStop => via (Page.stopSeq p)
  | ADevice ev => (p, handle ev st)
  end.

(** The device holds what the page shows: every melodic cell's frequency,
    its waveform unless the cell is a rest, every drum cell, the live
    waveform and whether the sequencer runs. *)
Definition mirrors (p : Page.State) (st : Synth) : Prop :=
  (forall ti s, (ti < 2)%nat -> (s < 16)%nat ->
     freq (mel ti s st) = F32.of_Z (Page.freqOf (Page.mel ti s p))
     /\ (Page.freqOf (Page.mel ti s p) <> 0 ->
         wave (mel ti s st) = Page.wave (Page.mel ti s p)))
  /\ (forall ti s, (ti < 3)%nat -> (s < 16)%nat ->
        drm ti s st = Page.drm ti s p)
  /\ liveWave st = Page.curWave p
  /\ seqPlay st = Page.seqRunning p.

(** The part of the device state the page shows. *)
Definition samePattern (a b : Synth) : Prop :=
  melPat a = melPat b /\ drmPat a = drmPat b
  /\ liveWave a = liveWave b /\ seqPlay a = seqPlay b.

(** A session: the page freshly loaded, the device freshly started, and a
    list of timed actions. *)
Definition session (acts : list (Z * Action)) : Page.State * Synth :=
  fold_left (fun ps a => act (fst a) (snd a) ps) acts (Page.State0, Synth0).

(** ** Serial input *)

(** One pass of the polling loop of [readSerialLine]: what [millis()]
    returns at the loop test, and the character waiting on the port, if
    any. *)
Definition Poll : Type := (Z * option ascii)%type.

Definition LF : ascii := "010"%char.
Definition CR : ascii := "013"%char.

(** [r.replace("\r", "")] *)
Fixpoint removeCR (s : string) : string :=
  match s with
  | EmptyString => EmptyString
  | String a s' =>
      if Ascii.eqb a CR then removeCR s' else String a (removeCR s')
  end.

(** The [while] loop of [readSerialLine] entered at time [t] with [r]
    read so far; [None] when the observed polls end and it is still
    waiting. *)
Fixpoint readSerialLoop (timeoutMs t : Z) (polls : list Poll) (r : string)
  : option string :=
  match polls with
  | [] => None
  | (now, avail) :: rest =>
      if u32 (u32 now - t) <? u32 timeoutMs then
        match avail with
        | Some c =>
            if Ascii.eqb c LF then Some r
            else if negb (Ascii.eqb c CR)
                 then readSerialLoop timeoutMs t rest
                                     (r ++ String c EmptyString)
                 else readSerialLoop timeoutMs t rest r
        | None => readSerialLoop timeoutMs t rest r
        end
      else Some r
  end.

Definition readSerialLine (timeoutMs t : Z) (polls : list Poll)
  : option string :=
  option_map removeCR (readSerialLoop timeoutMs t polls EmptyString).

(** The characters that arrive during the polls. *)
Fixpoint typed (polls : list Poll) : string :=
  match polls with
  | [] => EmptyString
  | (_, Some c) :: rest => String c (typed rest)
  | (_, None) :: rest => typed rest
  end.

(** ** Vocabulary of the sound of a hit *)

(** Two voices that sound alike from here on: same envelope and state
    flags, and the same oscillator unless they are noise voices. *)
Definition alike (k1 k2 : Channel) : Prop :=
  envLvl k1 = envLvl k2 /\ envDcy k1 = envDcy k2
  /\ active k1 = active k2 /\ isNoise k1 = isNoise k2
  /\ (isNoise k1 = false -> k1 = k2).

(** Channel [c] of two engines sounds alike: alike voices, the same
    volume, and the same noise register if the voice reads it. *)
Definition soundsAlike (c : nat) (a b : Synth) : Prop :=
  List.length (ch a) = NUM_CH /\ List.length (ch b) = NUM_CH
  /\ List.length (nlfsr a) = 2%nat /\ List.length (nlfsr b) = 2%nat
  /\ gAmp a = gAmp b
  /\ alike (chan c a) (chan c b)
  /\ (usesNoise (chan c a) = true ->
      nth (noiseIndex c) (nlfsr a) 0 = nth (noiseIndex c) (nlfsr b) 0).

(** With the messages sent so far delivered to the device that was in
    state [st0]: the page is well shaped, the device well formed and
    showing the page's pattern, and its tempo is [B]. *)
Definition inStep (now : Z) (st0 : Synth) (B : Z)
           (r : Page.State * list string) : Prop :=
  Page.ok (fst r)
  /\ wellFormed (deliver now (snd r) st0)
  /\ mirrors (fst r) (deliver now (snd r) st0)
  /\ seqBPM (deliver now (snd r) st0) = B.

(** What loading leaves of the page besides the row being written: the
    other rows, the drum grid (or the melodic grid), the selector and the
    run flag. *)
Definition sameBut (ti : nat) (p p' : Page.State) : Prop :=
  List.length (Page.melPat p') = List.length (Page.melPat p)
  /\ (forall t, t <> ti ->
        nth t (Page.melPat p') [] = nth t (Page.melPat p) [])
  /\ Page.drmPat p' = Page.drmPat p
  /\ Page.curWave p' = Page.curWave p
  /\ Page.seqRunning p' = Page.seqRunning p.

Definition sameButDrum (ti : nat) (p p' : Page.State) : Prop :=
  List.length (Page.drmPat p') = List.length (Page.drmPat p)
  /\ (forall t, t <> ti ->
        nth t (Page.drmPat p') [] = nth t (Page.drmPat p) [])
  /\ Page.melPat p' = Page.melPat p
  /\ Page.curWave p' = Page.curWave p
  /\ Page.seqRunning p' = Page.seqRunning p.
(** * Properties *)

(** ** The embedding on concrete inputs *)

Example literal_0_9998 : f_0_9998 = S754_finite false 16773861 (-24).
Proof. reflexivity. Qed.

Example literal_0_001 : f_0_001 = S754_finite false 8589935 (-33).
Proof. reflexivity. Qed.

Example PI_bits : PI = S754_finite false 7074237752028440 (-51).
Proof. reflexivity. Qed.

Example lfsrNext_seed : lfsrNext 0xACE1 = 0xE270.
Proof. reflexivity. Qed.

Example stepDurMs_120 : stepDurMs 120 = 125.
Proof. reflexivity. Qed.

Example toInt_stops_at_junk : toInt " -12x" = -12.
Proof. reflexivity. Qed.

Example toFloat_440_5 : toFloat "440.5" = S754_finite false 14434304 (-15).
Proof. reflexivity. Qed.

Example wave_command_clamps : liveWave (onWsEvent "WAVE:5" 0 Synth0) = 2.
Proof. reflexivity. Qed.

Example volume_command_clamps : gAmp (onWsEvent "VOL:99999" 0 Synth0) = 30000.
Proof. reflexivity. Qed.

Example bpm_command_clamps : seqBPM (onWsEvent "SEQ_BPM:300" 0 Synth0) = 240.
Proof. reflexivity. Qed.

Example drum_step_set :
  drm 1 5 (onWsEvent "SEQ_DRUM:1,5,1" 0 Synth0) = true.
Proof. reflexivity. Qed.

Example melodic_step_then_trigger :
  chan CH_LEAD (trigSequencerStep 0 (onWsEvent "SEQ_SET:0,0,440,0" 0 Synth0))
  = mkChannel f_0 f_440 0 f_1 f_0_9998 true false f_1.
Proof. reflexivity. Qed.

Example first_step_fires :
  let '(st, note, buf) := loop 125 (onWsEvent "SEQ_PLAY" 0 Synth0) in
  (note, seqStep st, lastStepMs st, List.length buf)
  = (Some 0, 1, 125, 128%nat).
Proof. vm_compute. reflexivity. Qed.

Example header_of_100_frames :
  writeWAVHeader [] 100
  = [82; 73; 70; 70; 180; 1; 0; 0; 87; 65; 86; 69; 102; 109; 116; 32;
     16; 0; 0; 0; 1; 0; 2; 0; 68; 172; 0; 0; 16; 177; 2; 0; 4; 0; 16; 0;
     100; 97; 116; 97; 144; 1; 0; 0].
Proof. reflexivity. Qed.

(** ** Arrays and channel access *)

Lemma length_upd {A} (i : nat) (x : A) (l : list A) :
  List.length (upd i x l) = List.length l.
Proof.
  revert i; induction l as [|h t IH]; intros [|j]; simpl; auto.
Qed.

Lemma nth_upd_same {A} (i : nat) (x d : A) (l : list A) :
  (i < List.length l)%nat -> nth i (upd i x l) d = x.
Proof.
  revert i; induction l as [|h t IH]; intros [|j] H; simpl in *;
    try lia; auto.
  apply IH; lia.
Qed.

Lemma nth_upd_other {A} (i j : nat) (x d : A) (l : list A) :
  i <> j -> nth j (upd i x l) d = nth j l d.
Proof.
  revert i j; induction l as [|h t IH]; intros [|i] [|j] H; simpl;
    try congruence; auto.
Qed.

Lemma upd_nth_id {A} (i : nat) (d : A) (l : list A) :
  upd i (nth i l d) l = l.
Proof.
  revert i; induction l as [|h t IH]; intros [|j]; simpl; auto.
  now rewrite IH.
Qed.

Lemma upd_overflow {A} (i : nat) (x : A) (l : list A) :
  (List.length l <= i)%nat -> upd i x l = l.
Proof.
  revert i; induction l as [|h t IH]; intros [|j] H; simpl in *; auto;
    try lia.
  f_equal. apply IH. lia.
Qed.

Lemma chan_put_same c k st :
  (c < List.length (ch st))%nat -> chan c (put_chan c k st) = k.
Proof. intros H; unfold chan, put_chan; simpl; now apply nth_upd_same. Qed.

Lemma chan_put_other c c' k st :
  c <> c' -> chan c' (put_chan c k st) = chan c' st.
Proof. intros H; unfold chan, put_chan; simpl; now apply nth_upd_other. Qed.

Lemma length_ch_put c k st :
  List.length (ch (put_chan c k st)) = List.length (ch st).
Proof. unfold put_chan; simpl; apply length_upd. Qed.


Ltac five_channels st H :=
  destruct st as [chs g lw lf mp dp pl bpm stp last]; simpl in H;
  destruct chs as [|k0 [|k1 [|k2 [|k3 [|k4 [|k5 chs]]]]]];
  simpl in H; try discriminate H; try (exfalso; unfold NUM_CH in H; lia).

(** ** Trigger dispatch *)

(** C5, as amended: for a step index below 16, [trigSequencerStep] leaves
    Lead (track 0) and Bass (track 1) freshly triggered with the stored
    frequency and waveform when that frequency is greater than 0, and
    released otherwise; Kick, Snare and Hat are triggered exactly when
    their hit flag at the step is set, and are otherwise untouched.  A
    Snare trigger also reseeds noise register 0 with 0xACE1 and a Hat
    trigger noise register 1 with 0x9182; without the trigger the
    register keeps its value.  Nothing else changes: there are still five
    channels, and volume, live waveform, both patterns, run flag, tempo,
    step index and step clock are those of before. *)
Theorem trigSequencerStep_dispatch (s : nat) (st : Synth) :
  (s < NUM_STEPS)%nat ->
  List.length (ch st) = NUM_CH ->
  let st' := trigSequencerStep s st in
  chan CH_LEAD st' =
    (if F32.ltb f_0 (freq (mel 0 s st))
     then noteOn (freq (mel 0 s st)) (wave (mel 0 s st))
     else released (chan CH_LEAD st))
  /\ chan CH_BASS st' =
    (if F32.ltb f_0 (freq (mel 1 s st))
     then noteOn (freq (mel 1 s st)) (wave (mel 1 s st))
     else released (chan CH_BASS st))
  /\ chan CH_KICK st' = (if drm 0 s st then kickOn else chan CH_KICK st)
  /\ chan CH_SNARE st' =
    (if drm 1 s st then noiseOn f_0_9988 (chan CH_SNARE st)
     else chan CH_SNARE st)
  /\ chan CH_HAT st' =
    (if drm 2 s st then noiseOn f_0_9970 (chan CH_HAT st)
     else chan CH_HAT st)
  /\ nlfsr st' =
    (let regs := if drm 1 s st then upd 0%nat 0xACE1 (nlfsr st)
                 else nlfsr st in
     if drm 2 s st then upd 1%nat 0x9182 regs else regs)
  /\ List.length (ch st') = NUM_CH
  /\ gAmp st' = gAmp st /\ liveWave st' = liveWave st
  /\ melPat st' = melPat st /\ drmPat st' = drmPat st
  /\ seqPlay st' = seqPlay st /\ seqBPM st' = seqBPM st
  /\ seqStep st' = seqStep st /\ lastStepMs st' = lastStepMs st.
Proof.
  intros _ H. five_channels st H.
  unfold trigSequencerStep, trigMelodyTrack, mel, drm.
  repeat (simpl;
          match goal with
          | |- context [if ?b then _ else _] =>
              lazymatch b with
              | context [if _ then _ else _] => fail
              | _ => destruct b
              end
          end);
    repeat split; reflexivity.
Qed.

(** Step 0 holds a Lead note and a Snare hit, and both noise registers
    have run on from their seeds. *)
Lemma trigSequencerStep_dispatch_witness :
  let st := set_nlfsr [1; 2]
              (set_drm 1 0 true (set_mel 0 0 (mkMelStep f_440 0) Synth0)) in
  chan CH_LEAD (trigSequencerStep 0 st) = noteOn f_440 0
  /\ chan CH_BASS (trigSequencerStep 0 st) = released Channel0
  /\ chan CH_KICK (trigSequencerStep 0 st) = Channel0
  /\ chan CH_SNARE (trigSequencerStep 0 st) = noiseOn f_0_9988 Channel0
  /\ chan CH_HAT (trigSequencerStep 0 st) = Channel0
  /\ nlfsr (trigSequencerStep 0 st) = [0xACE1; 2].
Proof.
  intros st.
  destruct (trigSequencerStep_dispatch 0 st)
    as (H0 & H1 & H2 & H3 & H4 & H5 & _).
  - unfold NUM_STEPS; lia.
  - reflexivity.
  - exact (conj H0 (conj H1 (conj H2 (conj H3 (conj H4 H5))))).
Defined.

(** C5 as stated fails: a stored frequency of -5 is nonzero, yet the step
    releases Lead instead of triggering it. *)
Lemma trigSequencerStep_negative_frequency :
  let st := onWsEvent "SEQ_SET:0,0,-5,0" 0 Synth0 in
  isZero (freq (mel 0 0 st)) = false
  /\ chan CH_LEAD (trigSequencerStep 0 st) = released (chan CH_LEAD st)
  /\ chan CH_LEAD (trigSequencerStep 0 st)
     <> noteOn (freq (mel 0 0 st)) (wave (mel 0 0 st)).
Proof.
  vm_compute. repeat split; discriminate.
Qed.

(** ** Export failure *)

(** C7: when [SD.begin()] fails or the file cannot be opened, the export
    returns, prints one failure line, and hands back the engine state it
    was given: channels, both pattern grids, run flag, step index and BPM
    are those of before. *)
Theorem export_failure_keeps_engine
        (filename : string) (numLoops : Z) (sd : SDCard) (st : Synth) :
  sd_begin sd = false \/ sd_open sd = false ->
  let '(st', _, lines) := exportPatternToWAV filename numLoops sd st in
  st' = st
  /\ (lines = [ExportFailedSD]
      \/ lines = [ExportFailedOpen ("/" ++ filename)%string]).
Proof.
  intros H. unfold exportPatternToWAV.
  destruct (sd_begin sd) eqn:Hb; cbv beta iota zeta delta [negb].
  - destruct H as [H|H]; [discriminate|].
    destruct (sd_exists _ sd); cbv [sd_remove sd_open]; fold (sd_open sd);
      rewrite H; (split; [reflexivity | now right]).
  - split; [reflexivity | now left].
Qed.

Lemma export_failure_keeps_engine_witness :
  let sd := mkSD false true [] in
  let '(st', _, lines) := exportPatternToWAV "song.wav" 2 sd Synth0 in
  st' = Synth0
  /\ (lines = [ExportFailedSD] \/ lines = [ExportFailedOpen "/song.wav"]).
Proof.
  apply (export_failure_keeps_engine "song.wav" 2 (mkSD false true []) Synth0).
  left; reflexivity.
Defined.

(** ** Command decoder: incomplete messages *)

Lemma u32_small z : 0 <= z < 2 ^ 32 -> u32 z = z.
Proof. intros H; unfold u32, wrapU; now apply Z.mod_small. Qed.

Lemma length_append_str (p b : string) :
  String.length (p ++ b) = (String.length p + String.length b)%nat.
Proof. induction p as [|a p IH]; simpl; auto. Qed.

Lemma dropStr_app (p b : string) : dropStr (String.length p) (p ++ b) = b.
Proof. induction p as [|a p IH]; simpl; auto. Qed.

Lemma takeStr_all (b : string) : takeStr (String.length b) b = b.
Proof. induction b as [|a b IH]; simpl; auto. now rewrite IH. Qed.

Lemma dropStr_dropStr (n m : nat) (s : string) :
  dropStr n (dropStr m s) = dropStr (m + n) s.
Proof.
  revert s; induction m as [|m IH]; intros s; simpl; auto.
  destruct s as [|a s]; simpl.
  - destruct n; reflexivity.
  - apply IH.
Qed.

Lemma countChar_dropStr_le c (n : nat) (s : string) :
  (countChar c (dropStr n s) <= countChar c s)%nat.
Proof.
  revert s; induction n as [|n IH]; intros s; simpl; auto.
  destruct s as [|a s]; simpl; auto.
  specialize (IH s). destruct (Ascii.eqb a c); lia.
Qed.

Lemma findChar_count c (s : string) (i : nat) :
  findChar c s = Some i ->
  (i < String.length s)%nat
  /\ countChar c s = S (countChar c (dropStr (S i) s)).
Proof.
  revert i; induction s as [|a s IH]; intros i H; simpl in *.
  - discriminate.
  - destruct (Ascii.eqb a c).
    + injection H as <-. split; [lia | reflexivity].
    + destruct (findChar c s) as [j|]; simpl in H; [|discriminate].
      injection H as <-. destruct (IH j eq_refl) as [Hl Hc].
      split; [lia | exact Hc].
Qed.

(** A successful [indexOf] finds a comma at or after [from]; one comma
    fewer remains behind it. *)
Lemma indexOf_found (s : string) c (from : nat) :
  Z.of_nat from < 2 ^ 32 ->
  0 <= indexOf s c (Z.of_nat from) ->
  exists r : nat,
    indexOf s c (Z.of_nat from) = Z.of_nat r
    /\ (r < String.length s)%nat
    /\ countChar c (dropStr from s) = S (countChar c (dropStr (S r) s)).
Proof.
  intros Hf H. unfold indexOf in *.
  rewrite u32_small in * by lia.
  destruct (Z.of_nat (String.length s) <=? Z.of_nat from) eqn:Hlen; [lia|].
  apply Z.leb_gt in Hlen.
  rewrite Nat2Z.id in *.
  destruct (findChar c (dropStr from s)) as [i|] eqn:Hfind; [|lia].
  destruct (findChar_count _ _ _ Hfind) as [Hl Hc].
  exists (from + i)%nat. split; [lia|].
  rewrite dropStr_dropStr in Hc. split.
  - assert (Hd : forall n t, (String.length (dropStr n t) <= String.length t - n)%nat).
    { induction n as [|n IHn]; intros [|a t]; simpl; try lia.
      specialize (IHn t); lia. }
    specialize (Hd from s). lia.
  - rewrite Hc. f_equal. f_equal. f_equal. lia.
Qed.

Lemma substringFrom_app (p body : string) :
  Z.of_nat (String.length (p ++ body)) < 2 ^ 32 ->
  substringFrom (p ++ body) (Z.of_nat (String.length p)) = body.
Proof.
  intros H. unfold substringFrom, substring.
  rewrite length_append_str in *.
  rewrite !u32_small by lia.
  destruct (Z.of_nat (String.length p)
            >? Z.of_nat (String.length p + String.length body)) eqn:E.
  - apply Z.gtb_lt in E. lia.
  - destruct (Z.of_nat (String.length p + String.length body)
              <=? Z.of_nat (String.length p)) eqn:E2.
    + apply Z.leb_le in E2.
      destruct body; [reflexivity | simpl in E2; lia].
    + rewrite Nat2Z.id, dropStr_app.
      replace (Z.to_nat _) with (String.length body) by lia.
      apply takeStr_all.
Qed.

(** Fewer than two commas: one of the two searches of the drum decoder
    fails. *)
Lemma two_commas_found (body : string) :
  Z.of_nat (String.length body) < 2 ^ 32 ->
  let c1 := indexOf body "," 0 in
  let c2 := indexOf body "," (c1 + 1) in
  0 <= c1 -> 0 <= c2 ->
  exists r1 r2 : nat,
    c1 = Z.of_nat r1 /\ c2 = Z.of_nat r2
    /\ (r2 < String.length body)%nat
    /\ countChar "," body = S (S (countChar "," (dropStr (S r2) body))).
Proof.
  intros Hlen c1 c2 H1 H2.
  destruct (indexOf_found body "," 0) as (r1 & E1 & L1 & C1);
    [simpl; lia | exact H1 |].
  subst c1 c2. simpl Z.of_nat in *. rewrite E1 in *.
  replace (Z.of_nat r1 + 1) with (Z.of_nat (S r1)) in * by lia.
  destruct (indexOf_found body "," (S r1)) as (r2 & E2 & L2 & C2);
    [lia | exact H2 |].
  exists r1, r2. simpl dropStr in C1.
  repeat split; auto. rewrite C1. f_equal. exact C2.
Qed.

(** C8: a set-melodic-step message with fewer than four comma-delimited
    fields, or a set-drum-step message with fewer than three, is dropped:
    the decoder returns the state it was given. *)
Theorem incomplete_command_dropped (msg : string) (now : Z) (st : Synth) :
  Z.of_nat (String.length msg) < 2 ^ 32 ->
  lacksField msg ->
  onWsEvent msg now st = st.
Proof.
  intros Hlen [(body & -> & Hf) | (body & -> & Hf)]; unfold fieldCount in Hf.
  - pose proof (substringFrom_app "SEQ_SET:" body Hlen) as Hb.
    change (Z.of_nat (String.length "SEQ_SET:")) with 8 in Hb.
    unfold onWsEvent.
    change (startsWith ("SEQ_SET:" ++ body) "PLAY:") with false.
    change (String.eqb ("SEQ_SET:" ++ body) "STOP") with false.
    change (startsWith ("SEQ_SET:" ++ body) "WAVE:") with false.
    change (startsWith ("SEQ_SET:" ++ body) "VOL:") with false.
    change (startsWith ("SEQ_SET:" ++ body) "SEQ_SET:") with true.
    cbv iota. rewrite Hb.
    assert (Hl : Z.of_nat (String.length body) < 2 ^ 32).
    { rewrite length_append_str in Hlen. lia. }
    destruct (indexOf body "," 0 <? 0) eqn:E1; [reflexivity|].
    destruct (indexOf body "," (indexOf body "," 0 + 1) <? 0) eqn:E2;
      [reflexivity|].
    destruct (indexOf body ","
                (indexOf body "," (indexOf body "," 0 + 1) + 1) <? 0) eqn:E3;
      [reflexivity|].
    exfalso. apply Z.ltb_ge in E1, E2, E3.
    destruct (two_commas_found body Hl E1 E2) as (r1 & r2 & _ & Q2 & L2 & C).
    rewrite Q2 in E3.
    replace (Z.of_nat r2 + 1) with (Z.of_nat (S r2)) in E3 by lia.
    destruct (indexOf_found body "," (S r2)) as (r3 & _ & _ & C3);
      [lia | exact E3 |].
    rewrite C3 in C. lia.
  - pose proof (substringFrom_app "SEQ_DRUM:" body Hlen) as Hb.
    change (Z.of_nat (String.length "SEQ_DRUM:")) with 9 in Hb.
    unfold onWsEvent.
    change (startsWith ("SEQ_DRUM:" ++ body) "PLAY:") with false.
    change (String.eqb ("SEQ_DRUM:" ++ body) "STOP") with false.
    change (startsWith ("SEQ_DRUM:" ++ body) "WAVE:") with false.
    change (startsWith ("SEQ_DRUM:" ++ body) "VOL:") with false.
    change (startsWith ("SEQ_DRUM:" ++ body) "SEQ_SET:") with false.
    change (startsWith ("SEQ_DRUM:" ++ body) "SEQ_DRUM:") with true.
    cbv iota. rewrite Hb.
    assert (Hl : Z.of_nat (String.length body) < 2 ^ 32).
    { rewrite length_append_str in Hlen. lia. }
    destruct (indexOf body "," 0 <? 0) eqn:E1; [reflexivity|].
    destruct (indexOf body "," (indexOf body "," 0 + 1) <? 0) eqn:E2;
      [reflexivity|].
    exfalso. apply Z.ltb_ge in E1, E2.
    destruct (two_commas_found body Hl E1 E2) as (r1 & r2 & _ & _ & _ & C).
    lia.
Qed.

Lemma incomplete_command_dropped_witness :
  onWsEvent "SEQ_DRUM:1,5" 0 Synth0 = Synth0.
Proof.
  apply (incomplete_command_dropped "SEQ_DRUM:1,5" 0 Synth0).
  - vm_compute; reflexivity.
  - right. exists "1,5"%string. split; [reflexivity | unfold fieldCount; simpl; lia].
Defined.

(** ** Triggers and synthesis leave the control state alone *)

Lemma sameControl_refl st : sameControl st st.
Proof. unfold sameControl; repeat split; reflexivity. Qed.

Lemma sameControl_trans a b c :
  sameControl a b -> sameControl b c -> sameControl a c.
Proof.
  unfold sameControl; intros H1 H2.
  decompose [and] H1; decompose [and] H2; repeat split; congruence.
Qed.

Lemma put_chan_control c k st : sameControl st (put_chan c k st).
Proof.
  unfold sameControl, put_chan; simpl; repeat split; auto.
  now rewrite length_upd.
Qed.

Lemma set_nlfsr_control v st :
  List.length v = List.length (nlfsr st) -> sameControl st (set_nlfsr v st).
Proof. intros H; unfold sameControl; simpl; repeat split; auto. Qed.

Lemma trigNote_control c f w st : sameControl st (trigNote c f w st).
Proof. apply put_chan_control. Qed.

Lemma releaseNote_control c st : sameControl st (releaseNote c st).
Proof. apply put_chan_control. Qed.

Lemma trigKick_control st : sameControl st (trigKick st).
Proof. apply put_chan_control. Qed.

Lemma trigSnare_control st : sameControl st (trigSnare st).
Proof.
  unfold trigSnare. eapply sameControl_trans; [apply put_chan_control|].
  apply set_nlfsr_control. apply length_upd.
Qed.

Lemma trigHat_control st : sameControl st (trigHat st).
Proof.
  unfold trigHat. eapply sameControl_trans; [apply put_chan_control|].
  apply set_nlfsr_control. apply length_upd.
Qed.

Lemma trigMelodyTrack_control t s st :
  sameControl st (trigMelodyTrack t s st).
Proof.
  unfold trigMelodyTrack.
  destruct (F32.ltb _ _);
    [apply trigNote_control | apply releaseNote_control].
Qed.

Lemma trigSequencerStep_control s st :
  sameControl st (trigSequencerStep s st).
Proof.
  unfold trigSequencerStep.
  eapply sameControl_trans; [apply (trigMelodyTrack_control 0 s)|].
  eapply sameControl_trans; [apply (trigMelodyTrack_control 1 s)|].
  eapply sameControl_trans;
    [|destruct (drm 2 s _); [apply trigHat_control | apply sameControl_refl]].
  eapply sameControl_trans;
    [|destruct (drm 1 s _); [apply trigSnare_control | apply sameControl_refl]].
  destruct (drm 0 s _); [apply trigKick_control | apply sameControl_refl].
Qed.

Lemma synthSample_control c st : sameControl st (snd (synthSample c st)).
Proof.
  unfold synthSample.
  destruct (negb _ || _); simpl; [apply put_chan_control|].
  destruct (isNoise _); simpl; [|apply put_chan_control].
  eapply sameControl_trans;
    [apply set_nlfsr_control, length_upd | apply put_chan_control].
Qed.

Lemma mixChannels_control n c mix st :
  sameControl st (snd (mixChannels n c mix st)).
Proof.
  revert c mix st; induction n as [|n IH]; intros c mix st; simpl.
  - apply sameControl_refl.
  - pose proof (synthSample_control c st) as H.
    destruct (synthSample c st) as [v st1]; simpl in H.
    eapply sameControl_trans; [exact H | apply IH].
Qed.

Lemma mixFrame_control st : sameControl st (snd (mixFrame st)).
Proof. apply mixChannels_control. Qed.

Lemma renderFrames_control n st : sameControl st (snd (renderFrames n st)).
Proof.
  revert st; induction n as [|n IH]; intros st; simpl.
  - apply sameControl_refl.
  - pose proof (mixFrame_control st) as H.
    destruct (mixFrame st) as [mix st1]; simpl in H.
    specialize (IH st1). destruct (renderFrames n st1) as [l st2]; simpl in *.
    eapply sameControl_trans; eassumption.
Qed.

Lemma loopAudio_control st : sameControl st (snd (loopAudio st)).
Proof.
  unfold loopAudio. pose proof (renderFrames_control BUF_SZ st) as H.
  destruct (renderFrames BUF_SZ st) as [l st1]; exact H.
Qed.

(** ** Sequencer clock *)

(** One [loop()] iteration: the run flag and the tempo stay; the reference
    either stays (no step) or moves by exactly one step duration (a step),
    and a step fires exactly when the iteration is due. *)
Lemma loop_clock now st :
  seqPlay st = true ->
  let d := stepDurMs (seqBPM st) in
  let '(st1, note, _) := loop now st in
  seqPlay st1 = true /\ seqBPM st1 = seqBPM st
  /\ ((note = None /\ lastStepMs st1 = lastStepMs st
       /\ ~ d <= u32 (u32 now - lastStepMs st))
      \/ ((exists n, note = Some n)
          /\ lastStepMs st1 = u32 (lastStepMs st + d)
          /\ d <= u32 (u32 now - lastStepMs st))).
Proof.
  intros Hp d. unfold loop, loopSequencer. rewrite Hp. fold d.
  destruct (u32 (u32 now - lastStepMs st) >=? d) eqn:E.
  - apply Z.geb_le in E.
    set (st1 := set_lastStepMs (u32 (lastStepMs st + d)) st).
    set (st2 := trigSequencerStep (Z.to_nat (seqStep st1)) st1).
    set (st3 := set_seqStep _ st2).
    pose proof (loopAudio_control st3) as H.
    destruct (loopAudio st3) as [buf st4]. cbn [snd] in H.
    pose proof (trigSequencerStep_control (Z.to_nat (seqStep st1)) st1) as H2.
    fold st2 in H2.
    destruct H as (_ & _ & _ & _ & Hp3 & Hb3 & _ & Hl3 & _).
    destruct H2 as (_ & _ & _ & _ & Hp2 & Hb2 & _ & Hl2 & _).
    change (seqPlay st3) with (seqPlay st2) in Hp3.
    change (seqBPM st3) with (seqBPM st2) in Hb3.
    change (lastStepMs st3) with (lastStepMs st2) in Hl3.
    change (seqPlay st1) with (seqPlay st) in Hp2.
    change (seqBPM st1) with (seqBPM st) in Hb2.
    change (lastStepMs st1) with (u32 (lastStepMs st + d)) in Hl2.
    split; [congruence | split; [congruence|]].
    right. split; [eauto | split; [congruence | exact E]].
  - assert (~ d <= u32 (u32 now - lastStepMs st)).
    { intro H. apply Z.geb_le in H. congruence. }
    pose proof (loopAudio_control st) as H1.
    destruct (loopAudio st) as [buf st2]. cbn [snd] in H1.
    destruct H1 as (_ & _ & _ & _ & Hp3 & Hb3 & _ & Hl3 & _).
    split; [congruence | split; [congruence|]].
    left. split; [reflexivity | split; [congruence | assumption]].
Qed.

(** C1, as amended: over any N iterations of the running sequencer at
    constant tempo, at most N steps fire, the reference has advanced by
    exactly the number of fired steps times the step duration (modulo
    2^32, never reset to now), and exactly N steps fire if and only if
    every iteration finds at least one step duration elapsed since the
    reference. *)
Theorem sequencer_fires_when_due (nows : list Z) (st : Synth) :
  seqPlay st = true ->
  0 <= lastStepMs st < 2 ^ 32 ->
  let d := stepDurMs (seqBPM st) in
  let '(st', notes) := runLoops nows st in
  (List.length notes <= List.length nows)%nat
  /\ lastStepMs st' = u32 (lastStepMs st + Z.of_nat (List.length notes) * d)
  /\ (allDue d (lastStepMs st) nows
      <-> List.length notes = List.length nows).
Proof.
  revert st; induction nows as [|now rest IH]; intros st Hp Hr d.
  - simpl. rewrite Z.add_0_r, u32_small by lia. repeat split; auto.
  - simpl. pose proof (loop_clock now st Hp) as H. fold d in H.
    destruct (loop now st) as [[st1 note] buf].
    destruct H as (Hp1 & Hb & H).
    assert (Hr1 : 0 <= lastStepMs st1 < 2 ^ 32).
    { destruct H as [(_ & -> & _) | (_ & -> & _)]; [lia|].
      unfold u32, wrapU. apply Z.mod_pos_bound. lia. }
    specialize (IH st1 Hp1 Hr1). rewrite Hb in IH. fold d in IH.
    destruct (runLoops rest st1) as [st2 notes].
    destruct IH as (IHl & IHr & IHd).
    destruct H as [(-> & E & Hn) | ((n & ->) & E & Hy)].
    + rewrite E in *. split; [lia | split; [exact IHr | split]].
      * intros [Hd _]. contradiction.
      * intros Hc. lia.
    + simpl List.length. split; [lia | split; [| split]].
      * rewrite IHr, E. unfold u32, wrapU.
        rewrite Zplus_mod_idemp_l. f_equal. lia.
      * intros [_ Hd]. rewrite <- E in Hd. apply IHd in Hd. lia.
      * intros Hc. split; [exact Hy | rewrite <- E; apply IHd; lia].
Qed.

(** Three irregularly spaced iterations at 130, 250 and 375 ms after a
    start at 0 (120 BPM, 125 ms per step) fire three steps. *)
Lemma sequencer_fires_when_due_witness :
  let st := onWsEvent "SEQ_PLAY" 0 Synth0 in
  let '(st', notes) := runLoops [130; 250; 375] st in
  (List.length notes <= 3)%nat
  /\ lastStepMs st' = u32 (0 + Z.of_nat (List.length notes) * 125)
  /\ (allDue 125 0 [130; 250; 375] <-> List.length notes = 3%nat).
Proof.
  apply (sequencer_fires_when_due [130; 250; 375]
                                  (onWsEvent "SEQ_PLAY" 0 Synth0)).
  - reflexivity.
  - vm_compute; split; congruence.
Defined.

(** C1 as stated fails: two iterations after a start at 0, the second one
    exactly two step durations (2 x 125 ms) after the start, fire one
    step, not two, because the first came 10 ms after the start. *)
Lemma sequencer_spacing_matters :
  let st := onWsEvent "SEQ_PLAY" 0 Synth0 in
  let nows := [10; 250] in
  seqPlay st = true
  /\ last nows 0 - lastStepMs st = 2 * stepDurMs (seqBPM st)
  /\ List.length (snd (runLoops nows st)) = 1%nat.
Proof. vm_compute. repeat split. Qed.

(** ** Export of a silent pattern *)

Lemma nth_upd_cases {A} (i j : nat) (x d : A) (l : list A) :
  nth j (upd i x l) d = x \/ nth j (upd i x l) d = nth j l d.
Proof.
  destruct (Nat.eq_dec i j) as [<-|Hn].
  - destruct (Nat.lt_ge_cases i (List.length l)) as [Hl|Hl].
    + left. now apply nth_upd_same.
    + right. rewrite !nth_overflow; auto. now rewrite length_upd.
  - right. now apply nth_upd_other.
Qed.

Lemma put_chan_id c st : put_chan c (chan c st) st = st.
Proof.
  unfold put_chan, chan. rewrite upd_nth_id. destruct st; reflexivity.
Qed.

Lemma synthSample_inactive c st :
  active (chan c st) = false -> synthSample c st = (0, st).
Proof.
  intros H. unfold synthSample. rewrite H. simpl.
  replace (set_active false (chan c st)) with (chan c st).
  - now rewrite put_chan_id.
  - destruct (chan c st); simpl in *; subst; reflexivity.
Qed.

Lemma mixFrame_silent st : silent st -> mixFrame st = (0, st).
Proof.
  intros H. unfold mixFrame, NUM_CH. simpl.
  repeat (rewrite synthSample_inactive by (apply H; unfold NUM_CH; lia)).
  reflexivity.
Qed.

Lemma isZero_not_positive x : isZero x = true -> F32.ltb f_0 x = false.
Proof. destruct x; simpl; try discriminate; reflexivity. Qed.

Lemma silent_put c k st :
  active k = false -> silent st -> silent (put_chan c k st).
Proof.
  intros Hk Hs c' Hc'. unfold chan, put_chan; simpl.
  destruct (nth_upd_cases c c' k Channel0 (ch st)) as [-> | ->];
    [exact Hk | now apply Hs].
Qed.

(** With rests on both melody tracks and no drum hit at step [s], the
    step only releases Lead and Bass. *)
Lemma trigSequencerStep_rest s st :
  (s < NUM_STEPS)%nat -> allRest st -> allOff st ->
  trigSequencerStep s st = releaseNote CH_BASS (releaseNote CH_LEAD st).
Proof.
  intros Hs Hrest Hoff.
  unfold trigSequencerStep, trigMelodyTrack. cbv zeta. cbn [Nat.eqb].
  rewrite (isZero_not_positive _
             (Hrest 0%nat s ltac:(unfold NUM_MEL_TRK; lia) Hs)).
  change (mel 1 s (releaseNote CH_LEAD st)) with (mel 1 s st).
  rewrite (isZero_not_positive _
             (Hrest 1%nat s ltac:(unfold NUM_MEL_TRK; lia) Hs)).
  set (st2 := releaseNote CH_BASS (releaseNote CH_LEAD st)).
  change (drm 0 s st2) with (drm 0 s st).
  rewrite (Hoff 0%nat s ltac:(unfold NUM_DRM_TRK; lia) Hs).
  change (drm 1 s st2) with (drm 1 s st).
  rewrite (Hoff 1%nat s ltac:(unfold NUM_DRM_TRK; lia) Hs).
  change (drm 2 s st2) with (drm 2 s st).
  rewrite (Hoff 2%nat s ltac:(unfold NUM_DRM_TRK; lia) Hs).
  reflexivity.
Qed.

Lemma quiet_trigSequencerStep s st :
  (s < NUM_STEPS)%nat -> quiet st -> quiet (trigSequencerStep s st).
Proof.
  intros Hs (Hsil & Hrest & Hoff).
  rewrite (trigSequencerStep_rest s st Hs Hrest Hoff).
  split; [|split].
  - unfold releaseNote.
    apply silent_put; [reflexivity|]. apply silent_put; [reflexivity|].
    exact Hsil.
  - exact Hrest.
  - exact Hoff.
Qed.

Lemma flat_map_zero_samples (m : nat) :
  flat_map (fun v => bytesU16LE (wrapU 16 v)) (repeat 0 m) = repeat 0 (2 * m).
Proof.
  induction m as [|m IH]; simpl; auto.
  rewrite IH. replace (m + S (m + 0))%nat with (S (2 * m)) by lia.
  reflexivity.
Qed.

Lemma repeat_snoc2 {A} (x : A) (n : nat) :
  repeat x (2 * n) ++ [x; x] = repeat x (2 * S n).
Proof.
  replace (2 * S n)%nat with (2 * n + 2)%nat by lia.
  now rewrite repeat_app.
Qed.

Lemma zeroRender_exportFrame hdr frames r :
  zeroRender hdr frames r -> zeroRender hdr (S frames) (exportFrame r).
Proof.
  intros (Hq & k & n & Hf & Hw & Hk).
  unfold exportFrame. rewrite (mixFrame_silent _ (proj1 Hq)).
  change (clampSample 0) with 0. rewrite Hw, repeat_snoc2.
  destruct (wbufPos _ >=? WBUF_SZ).
  - split; [exact Hq|]. exists (k + 4 * S n)%nat, 0%nat.
    unfold flushBuf; cbn [r_file r_wbuf r_synth].
    rewrite flat_map_zero_samples, Hf, <- app_assoc, <- repeat_app.
    repeat split; try lia.
    f_equal. f_equal. lia.
  - split; [exact Hq|]. exists k, (S n). cbn [r_file r_wbuf r_synth].
    repeat split; auto; lia.
Qed.

Lemma iterate_S {A} (n : nat) (f : A -> A) (x : A) :
  iterate (S n) f x = iterate n f (f x).
Proof. reflexivity. Qed.

Lemma exportFrames_S n r :
  exportFrames (S n) r = exportFrames n (exportFrame r).
Proof. unfold exportFrames. apply iterate_S. Qed.

Lemma exportSteps_S n step sps r :
  exportSteps (S n) step sps r
  = exportSteps n (S step) sps
      (exportFrames sps (mkRender (trigSequencerStep step (r_synth r))
                                  (r_file r) (r_wbuf r))).
Proof. reflexivity. Qed.

Lemma exportLoops_S n sps r :
  exportLoops (S n) sps r = exportLoops n sps (exportSteps NUM_STEPS 0 sps r).
Proof. unfold exportLoops. apply iterate_S. Qed.

Lemma zeroRender_exportFrames hdr n frames r :
  zeroRender hdr frames r -> zeroRender hdr (frames + n) (exportFrames n r).
Proof.
  revert frames r; induction n as [|n IH]; intros frames r H.
  - now rewrite Nat.add_0_r.
  - rewrite exportFrames_S.
    replace (frames + S n)%nat with (S frames + n)%nat by lia.
    apply IH. now apply zeroRender_exportFrame.
Qed.

Lemma zeroRender_exportSteps hdr k step sps frames r :
  (step + k <= NUM_STEPS)%nat ->
  zeroRender hdr frames r ->
  zeroRender hdr (frames + k * sps) (exportSteps k step sps r).
Proof.
  revert step frames r; induction k as [|k IH]; intros step frames r Hk H.
  - now rewrite Nat.add_0_r.
  - rewrite exportSteps_S.
    replace (frames + S k * sps)%nat
      with ((frames + sps) + k * sps)%nat by lia.
    apply IH; [lia|]. apply zeroRender_exportFrames.
    destruct H as (Hq & Hrest). split; [|exact Hrest].
    cbn [r_synth]. apply quiet_trigSequencerStep; [lia | exact Hq].
Qed.

Lemma zeroRender_exportLoops hdr n sps frames r :
  zeroRender hdr frames r ->
  zeroRender hdr (frames + n * (NUM_STEPS * sps)) (exportLoops n sps r).
Proof.
  revert frames r; induction n as [|n IH]; intros frames r H.
  - now rewrite Nat.add_0_r.
  - rewrite exportLoops_S.
    replace (frames + S n * (NUM_STEPS * sps))%nat
      with ((frames + NUM_STEPS * sps) + n * (NUM_STEPS * sps))%nat by lia.
    apply IH.
    apply (zeroRender_exportSteps hdr NUM_STEPS 0 sps frames r);
      [apply Nat.le_refl | exact H].
Qed.

Lemma chan_put_default c st : chan c (put_chan c Channel0 st) = Channel0.
Proof.
  unfold chan, put_chan; simpl.
  destruct (nth_upd_cases c c Channel0 Channel0 (ch st)) as [H|H];
    [exact H|].
  rewrite H.
  destruct (Nat.lt_ge_cases c (List.length (ch st))) as [Hl|Hl].
  - rewrite <- H. now apply nth_upd_same.
  - now apply nth_overflow.
Qed.

(** After the reset loop of the export every channel is [Channel()]. *)
Lemma chan_resetChannels c st :
  (c < NUM_CH)%nat -> chan c (resetChannels NUM_CH 0 st) = Channel0.
Proof.
  intros Hc. unfold resetChannels, NUM_CH in *.
  do 5 (destruct c as [|c];
        [repeat (rewrite chan_put_other by lia); apply chan_put_default|]).
  lia.
Qed.

Lemma resetChannels_control st : sameControl st (resetChannels NUM_CH 0 st).
Proof.
  unfold resetChannels, NUM_CH.
  repeat (eapply sameControl_trans; [|apply put_chan_control]).
  apply sameControl_refl.
Qed.

Lemma length_writeWAVHeader t : List.length (writeWAVHeader [] t) = 44%nat.
Proof. reflexivity. Qed.

Lemma sd_read_store path bytes sd :
  sd_read path (sd_store path bytes sd) = Some bytes.
Proof. unfold sd_read, sd_store; simpl. now rewrite String.eqb_refl. Qed.

(** C2: with the SD card available, exporting an all-rest, all-off
    pattern for L >= 1 loops at a BPM within 40..240 stores a file of
    exactly 44 + 4 * samplesPerStep * 16 * L bytes whose bytes after the
    44-byte header are all zero. *)
Theorem export_silent_pattern
        (filename : string) (L : Z) (sd : SDCard) (st : Synth) :
  1 <= L ->
  40 <= seqBPM st <= 240 ->
  sd_begin sd = true -> sd_open sd = true ->
  allRest st -> allOff st ->
  let samplesPerStep := SAMPLE_RATE * stepDurMs (seqBPM st) / 1000 in
  let '(_, sd', _) := exportPatternToWAV filename L sd st in
  exists bytes,
    sd_read ("/" ++ filename)%string sd' = Some bytes
    /\ Z.of_nat (List.length bytes) = 44 + 4 * samplesPerStep * 16 * L
    /\ Forall (fun b => b = 0) (skipn 44 bytes).
Proof.
  intros HL Hbpm Hb Ho Hrest Hoff sps.
  unfold exportPatternToWAV. rewrite Hb. cbv beta iota zeta delta [negb].
  assert (Ho' : sd_open (if sd_exists ("/" ++ filename) sd
                         then sd_remove ("/" ++ filename) sd else sd) = true).
  { destruct (sd_exists _ sd); [exact Ho | exact Ho]. }
  rewrite Ho'.
  assert (Hd : 62 <= stepDurMs (seqBPM st) <= 375).
  { unfold stepDurMs. rewrite u32_small by lia.
    split.
    - apply Z.div_le_lower_bound; [lia|].
      apply Z.div_le_lower_bound; [lia|]. lia.
    - apply Z.div_le_upper_bound; [lia|].
      apply Z.div_le_upper_bound; [lia|]. lia. }
  assert (Hu : u32 (SAMPLE_RATE * stepDurMs (seqBPM st)) / 1000 = sps).
  { unfold sps. rewrite u32_small; [reflexivity|]. unfold SAMPLE_RATE. lia. }
  rewrite Hu.
  assert (Hsps : 0 <= sps).
  { unfold sps. apply Z.div_pos; [unfold SAMPLE_RATE; lia | lia]. }
  set (hdr := writeWAVHeader [] _).
  set (st0 := resetChannels NUM_CH 0 st).
  assert (H0 : zeroRender hdr 0 (mkRender st0 hdr [])).
  { split.
    - cbn [r_synth]. pose proof (resetChannels_control st) as Hc.
      destruct Hc as (_ & _ & Hmel & Hdrm & _).
      split; [|split].
      + intros c Hc'. unfold st0. now rewrite chan_resetChannels.
      + intros t s Ht Hs. unfold mel, st0. rewrite <- Hmel. now apply Hrest.
      + intros t s Ht Hs. unfold drm, st0. rewrite <- Hdrm. now apply Hoff.
    - exists 0%nat, 0%nat.
      split; [cbn [r_file repeat]; now rewrite app_nil_r | split; reflexivity]. }
  apply (zeroRender_exportLoops hdr (Z.to_nat L) (Z.to_nat sps)) in H0.
  set (r := exportLoops _ _ _) in *.
  destruct H0 as (_ & k & n & Hf & Hw & Hk).
  set (total := (Z.to_nat L * (NUM_STEPS * Z.to_nat sps))%nat) in *.
  rewrite Nat.add_0_l in Hk.
  exists (hdr ++ repeat 0 (4 * total)).
  assert (Hfile : r_file (if wbufPos r >? 0 then flushBuf r else r)
                  = hdr ++ repeat 0 (4 * total)).
  { destruct (wbufPos r >? 0) eqn:E.
    - unfold flushBuf; cbn [r_file].
      rewrite Hw, flat_map_zero_samples, Hf, <- app_assoc, <- repeat_app.
      f_equal. f_equal. lia.
    - unfold wbufPos in E. rewrite Hw, repeat_length in E.
      rewrite Z.gtb_ltb in E. apply Z.ltb_ge in E.
      assert (n = 0)%nat.
      { destruct n; auto. exfalso.
        replace (Z.of_nat (2 * S n)) with (Z.of_nat (S n) * 2) in E by lia.
        rewrite Z.div_mul in E by lia. lia. }
      subst n. rewrite Hf. f_equal. f_equal. lia. }
  rewrite Hfile. split; [apply sd_read_store|]. split.
  - rewrite length_app, repeat_length. unfold hdr.
    rewrite length_writeWAVHeader. unfold total, NUM_STEPS. lia.
  - replace 44%nat with (List.length hdr + 0)%nat
      by (unfold hdr; now rewrite length_writeWAVHeader).
    rewrite skipn_app, Nat.add_0_r.
    replace (List.length hdr - List.length hdr)%nat with 0%nat by lia.
    rewrite skipn_all. simpl. apply Forall_forall.
    intros x Hx. now apply repeat_spec in Hx.
Qed.

Lemma export_silent_pattern_witness :
  let '(_, sd', _) :=
    exportPatternToWAV "song.wav" 2 (mkSD true true []) Synth0 in
  exists bytes,
    sd_read "/song.wav" sd' = Some bytes
    /\ Z.of_nat (List.length bytes)
       = 44 + 4 * (SAMPLE_RATE * stepDurMs (seqBPM Synth0) / 1000) * 16 * 2
    /\ Forall (fun b => b = 0) (skipn 44 bytes).
Proof.
  apply (export_silent_pattern "song.wav" 2 (mkSD true true []) Synth0).
  - lia.
  - simpl; lia.
  - reflexivity.
  - reflexivity.
  - intros t s Ht Hs. unfold NUM_MEL_TRK, NUM_STEPS in *.
    do 2 (destruct t as [|t]; [do 16 (destruct s as [|s]; [reflexivity|]); lia|]).
    lia.
  - intros t s Ht Hs. unfold NUM_DRM_TRK, NUM_STEPS in *.
    do 3 (destruct t as [|t]; [do 16 (destruct s as [|s]; [reflexivity|]); lia|]).
    lia.
Defined.

(** ** [synthSample], voice by voice *)

Lemma synthSample_val c st :
  fst (synthSample c st)
  = voiceVal (gAmp st) (chan c st) (nth (noiseIndex c) (nlfsr st) 0).
Proof.
  unfold synthSample, voiceVal, voiceIdle, noiseIndex.
  destruct (negb _ || _); [reflexivity|].
  destruct (isNoise _); reflexivity.
Qed.

Lemma synthSample_ch c st :
  ch (snd (synthSample c st)) = upd c (voiceNext (chan c st)) (ch st).
Proof.
  unfold synthSample, voiceNext, voiceIdle.
  destruct (negb _ || _); [reflexivity|].
  destruct (isNoise _); reflexivity.
Qed.

Lemma synthSample_nlfsr c st :
  nlfsr (snd (synthSample c st))
  = if usesNoise (chan c st)
    then upd (noiseIndex c)
             (lfsrNext (nth (noiseIndex c) (nlfsr st) 0)) (nlfsr st)
    else nlfsr st.
Proof.
  unfold synthSample, usesNoise, voiceIdle, noiseIndex.
  destruct (negb _ || _); [reflexivity|].
  destruct (isNoise _); reflexivity.
Qed.

Lemma chan_synthSample_same c st :
  (c < List.length (ch st))%nat ->
  chan c (snd (synthSample c st)) = voiceNext (chan c st).
Proof.
  intros H. unfold chan at 1. rewrite synthSample_ch. now apply nth_upd_same.
Qed.

Lemma chan_synthSample_other c c' st :
  c <> c' -> chan c' (snd (synthSample c st)) = chan c' st.
Proof.
  intros H. unfold chan. rewrite synthSample_ch. now apply nth_upd_other.
Qed.

Lemma voiceVal_quiet_register g k lf lf' :
  usesNoise k = false -> voiceVal g k lf = voiceVal g k lf'.
Proof.
  unfold usesNoise, voiceVal. destruct (voiceIdle k); [reflexivity|].
  destruct (isNoise k); [discriminate | reflexivity].
Qed.

Lemma usesNoise_active k : usesNoise k = true -> active k = true.
Proof.
  unfold usesNoise, voiceIdle. destruct (active k); simpl; auto.
Qed.

Lemma usesNoise_isNoise k : usesNoise k = true -> isNoise k = true.
Proof.
  unfold usesNoise. destruct (voiceIdle k); simpl; [discriminate | auto].
Qed.

Lemma isNoise_voiceNext k : isNoise (voiceNext k) = isNoise k.
Proof.
  unfold voiceNext, pitchStep.
  destruct (voiceIdle k); [reflexivity|].
  destruct (isNoise k) eqn:E; [exact E|].
  destruct (negb _); [destruct (F32.ltb _ _)|]; exact E.
Qed.

Lemma active_voiceNext k : active (voiceNext k) = true -> active k = true.
Proof.
  unfold voiceNext, pitchStep.
  destruct (voiceIdle k); [discriminate|].
  destruct (isNoise k); [auto|].
  destruct (negb _); [destruct (F32.ltb _ _)|]; auto.
Qed.

(** ** Export is deterministic *)

Lemma agree_chan c a b : agree a b -> chan c a = chan c b.
Proof. intros (H & _). unfold chan. now rewrite H. Qed.

Lemma agree_put c k a b :
  (c < CH_SNARE)%nat -> isNoise k = false ->
  agree a b -> agree (put_chan c k a) (put_chan c k b).
Proof.
  intros Hc Hk (Hch & Hlen & Hg & Hm & Hd & Hla & Hlb & Hn & H3 & H4).
  unfold agree, CH_SNARE, CH_HAT in *.
  rewrite !chan_put_other by lia.
  cbn [put_chan set_ch ch gAmp melPat drmPat nlfsr].
  rewrite Hch, length_upd, <- Hch.
  repeat split; auto.
  intros c' Hc'. unfold chan, put_chan; simpl.
  destruct (nth_upd_cases c c' k Channel0 (ch a)) as [-> | ->];
    [exact Hk | now apply Hn].
Qed.

Lemma agree_trigNote c f w a b :
  (c < CH_SNARE)%nat -> agree a b -> agree (trigNote c f w a) (trigNote c f w b).
Proof. intros Hc H. unfold trigNote. now apply agree_put. Qed.

Lemma agree_releaseNote c a b :
  (c < CH_SNARE)%nat -> agree a b -> agree (releaseNote c a) (releaseNote c b).
Proof.
  intros Hc H. unfold releaseNote. rewrite (agree_chan c a b H).
  apply agree_put; auto. cbn [isNoise].
  rewrite <- (agree_chan c a b H).
  destruct H as (_ & _ & _ & _ & _ & _ & _ & Hn & _). now apply Hn.
Qed.

Lemma agree_trigKick a b : agree a b -> agree (trigKick a) (trigKick b).
Proof.
  intros H. unfold trigKick.
  apply agree_put; [unfold CH_KICK, CH_SNARE; lia | reflexivity | exact H].
Qed.

Lemma agree_trigSnare a b : agree a b -> agree (trigSnare a) (trigSnare b).
Proof.
  intros H. pose proof (agree_chan CH_SNARE a b H) as Hk.
  destruct H as (Hch & Hlen & Hg & Hm & Hd & Hla & Hlb & Hn & H3 & H4).
  unfold trigSnare. rewrite Hk. set (k := mkChannel _ _ _ _ _ _ _ _).
  unfold agree, chan, CH_SNARE, CH_HAT in *.
  cbn [put_chan set_ch set_nlfsr ch gAmp melPat drmPat nlfsr].
  rewrite !length_upd, Hch.
  repeat split; auto; try congruence.
  - intros c Hc. rewrite nth_upd_other by lia. rewrite <- Hch. now apply Hn.
  - intros _. rewrite !nth_upd_same by lia. reflexivity.
  - rewrite nth_upd_other by lia. intros Ha.
    rewrite !(nth_upd_other 0 1) by lia. apply H4. now rewrite Hch.
Qed.

Lemma agree_trigHat a b : agree a b -> agree (trigHat a) (trigHat b).
Proof.
  intros H. pose proof (agree_chan CH_HAT a b H) as Hk.
  destruct H as (Hch & Hlen & Hg & Hm & Hd & Hla & Hlb & Hn & H3 & H4).
  unfold trigHat. rewrite Hk. set (k := mkChannel _ _ _ _ _ _ _ _).
  unfold agree, chan, CH_SNARE, CH_HAT in *.
  cbn [put_chan set_ch set_nlfsr ch gAmp melPat drmPat nlfsr].
  rewrite !length_upd, Hch.
  repeat split; auto; try congruence.
  - intros c Hc. rewrite nth_upd_other by lia. rewrite <- Hch. now apply Hn.
  - rewrite nth_upd_other by lia. intros Ha.
    rewrite !(nth_upd_other 1 0) by lia. apply H3. now rewrite Hch.
  - intros _. rewrite !nth_upd_same by lia. reflexivity.
Qed.

Lemma agree_patterns a b :
  agree a b ->
  (forall t s, mel t s a = mel t s b) /\ (forall t s, drm t s a = drm t s b).
Proof.
  intros (_ & _ & _ & Hm & Hd & _). unfold mel, drm. rewrite Hm, Hd. auto.
Qed.

Lemma agree_trigMelodyTrack t s a b :
  agree a b -> agree (trigMelodyTrack t s a) (trigMelodyTrack t s b).
Proof.
  intros H. unfold trigMelodyTrack.
  rewrite (proj1 (agree_patterns a b H)).
  assert (Hc : ((if Nat.eqb t 0 then CH_LEAD else CH_BASS) < CH_SNARE)%nat).
  { destruct (Nat.eqb t 0); unfold CH_LEAD, CH_BASS, CH_SNARE; lia. }
  destruct (F32.ltb _ _);
    [now apply agree_trigNote | now apply agree_releaseNote].
Qed.

Lemma agree_when (f : Synth -> Synth) (cond : Synth -> bool) a b :
  (forall x y, agree x y -> cond x = cond y) ->
  (forall x y, agree x y -> agree (f x) (f y)) ->
  agree a b ->
  agree (if cond a then f a else a) (if cond b then f b else b).
Proof.
  intros Hc Hf H. rewrite (Hc a b H). destruct (cond b); auto.
Qed.

Lemma agree_trigSequencerStep s a b :
  agree a b -> agree (trigSequencerStep s a) (trigSequencerStep s b).
Proof.
  intros H. unfold trigSequencerStep. cbv zeta.
  apply (agree_when trigHat (drm 2 s));
    [intros x y Hxy; apply (agree_patterns x y Hxy) | apply agree_trigHat |].
  apply (agree_when trigSnare (drm 1 s));
    [intros x y Hxy; apply (agree_patterns x y Hxy) | apply agree_trigSnare |].
  apply (agree_when trigKick (drm 0 s));
    [intros x y Hxy; apply (agree_patterns x y Hxy) | apply agree_trigKick |].
  now do 2 apply agree_trigMelodyTrack.
Qed.

Lemma agree_synthSample c a b :
  (c < NUM_CH)%nat -> agree a b ->
  fst (synthSample c a) = fst (synthSample c b)
  /\ agree (snd (synthSample c a)) (snd (synthSample c b)).
Proof.
  intros Hc H. pose proof (agree_chan c a b H) as Hk.
  destruct H as (Hch & Hlen & Hg & Hm & Hd & Hla & Hlb & Hn & H3 & H4).
  destruct (synthSample_control c a)
    as (Ga & _ & Ma & Da & _ & _ & _ & _ & La & Na).
  destruct (synthSample_control c b)
    as (Gb & _ & Mb & Db & _ & _ & _ & _ & Lb & Nb).
  unfold NUM_CH, CH_SNARE, CH_HAT in *.
  assert (Hreg : usesNoise (chan c b) = true ->
                 (c = 3 \/ c = 4)%nat
                 /\ nth (noiseIndex c) (nlfsr a) 0
                    = nth (noiseIndex c) (nlfsr b) 0).
  { intros Hu. rewrite <- Hk in Hu.
    pose proof (usesNoise_isNoise _ Hu) as Hi.
    pose proof (usesNoise_active _ Hu) as Ha.
    assert (Hc3 : ~ (c < 3)%nat) by (intros Hlt; rewrite (Hn c Hlt) in Hi; discriminate).
    assert (Hc' : (c = 3 \/ c = 4)%nat) by lia.
    split; [exact Hc'|].
    destruct Hc' as [-> | ->]; [now apply H3 | now apply H4]. }
  split.
  - rewrite !synthSample_val, Hk, Hg.
    destruct (usesNoise (chan c b)) eqn:Hu.
    + now rewrite (proj2 (Hreg eq_refl)).
    + now apply voiceVal_quiet_register.
  - unfold agree, chan, CH_SNARE, CH_HAT.
    rewrite !synthSample_ch, !synthSample_nlfsr, Hk, <- Hch.
    fold (chan c b).
    split; [reflexivity|]. split; [now rewrite length_upd|].
    split; [congruence|]. split; [congruence|]. split; [congruence|].
    split; [destruct (usesNoise _); now rewrite ?length_upd|].
    split; [destruct (usesNoise _); now rewrite ?length_upd|].
    split; [|split].
    + intros c' Hc'.
      destruct (nth_upd_cases c c' (voiceNext (chan c b)) Channel0 (ch a))
        as [E | E]; rewrite E; [|now apply Hn].
      destruct (Nat.eq_dec c c') as [<- | Hne].
      * rewrite isNoise_voiceNext, <- Hk. now apply Hn.
      * rewrite nth_upd_other in E by exact Hne.
        rewrite <- E. now apply Hn.
    + intros Ha.
      assert (Ha3 : active (chan 3 a) = true).
      { destruct (Nat.eq_dec c 3) as [-> | Hne].
        - rewrite nth_upd_same in Ha by lia.
          rewrite Hk. now apply active_voiceNext.
        - now rewrite nth_upd_other in Ha by exact Hne. }
      destruct (usesNoise (chan c b)) eqn:Hu; [|now apply H3].
      destruct (Hreg eq_refl) as [[-> | ->] Hr]; unfold noiseIndex in *;
        cbn [Nat.eqb CH_SNARE] in *.
      * rewrite !nth_upd_same by lia. now rewrite Hr.
      * rewrite !nth_upd_other by lia. now apply H3.
    + intros Ha.
      assert (Ha4 : active (chan 4 a) = true).
      { destruct (Nat.eq_dec c 4) as [-> | Hne].
        - rewrite nth_upd_same in Ha by lia.
          rewrite Hk. now apply active_voiceNext.
        - now rewrite nth_upd_other in Ha by exact Hne. }
      destruct (usesNoise (chan c b)) eqn:Hu; [|now apply H4].
      destruct (Hreg eq_refl) as [[-> | ->] Hr]; unfold noiseIndex in *;
        cbn [Nat.eqb CH_SNARE] in *.
      * rewrite !nth_upd_other by lia. now apply H4.
      * rewrite !nth_upd_same by lia. now rewrite Hr.
Qed.

Lemma agree_mixChannels n c mix a b :
  (c + n <= NUM_CH)%nat -> agree a b ->
  fst (mixChannels n c mix a) = fst (mixChannels n c mix b)
  /\ agree (snd (mixChannels n c mix a)) (snd (mixChannels n c mix b)).
Proof.
  revert c mix a b; induction n as [|n IH]; intros c mix a b Hc H;
    cbn [mixChannels].
  - split; [reflexivity | exact H].
  - destruct (agree_synthSample c a b) as [Hv Hs]; [lia | exact H |].
    destruct (synthSample c a) as [va a1], (synthSample c b) as [vb b1].
    cbn [fst snd] in Hv, Hs. subst vb.
    apply IH; [lia | exact Hs].
Qed.

Lemma agree_mixFrame a b :
  agree a b ->
  fst (mixFrame a) = fst (mixFrame b)
  /\ agree (snd (mixFrame a)) (snd (mixFrame b)).
Proof. apply agree_mixChannels. simpl; lia. Qed.

Lemma agreeRender_exportFrame ra rb :
  agreeRender ra rb -> agreeRender (exportFrame ra) (exportFrame rb).
Proof.
  intros (H & Hf & Hw). unfold exportFrame.
  destruct (agree_mixFrame _ _ H) as [Hv Hs].
  destruct (mixFrame (r_synth ra)) as [va a1],
           (mixFrame (r_synth rb)) as [vb b1].
  cbn [fst snd] in Hv, Hs. subst vb. rewrite Hf, Hw.
  unfold wbufPos; cbn [r_wbuf].
  destruct (_ >=? WBUF_SZ); unfold agreeRender, flushBuf;
    cbn [r_synth r_file r_wbuf]; auto.
Qed.

Lemma agreeRender_exportFrames n ra rb :
  agreeRender ra rb -> agreeRender (exportFrames n ra) (exportFrames n rb).
Proof.
  revert ra rb; induction n as [|n IH]; intros ra rb H.
  - exact H.
  - rewrite !exportFrames_S. apply IH. now apply agreeRender_exportFrame.
Qed.

Lemma agreeRender_exportSteps k step sps ra rb :
  agreeRender ra rb ->
  agreeRender (exportSteps k step sps ra) (exportSteps k step sps rb).
Proof.
  revert step ra rb; induction k as [|k IH]; intros step ra rb H.
  - exact H.
  - rewrite !exportSteps_S. apply IH. apply agreeRender_exportFrames.
    destruct H as (H & Hf & Hw). unfold agreeRender; cbn [r_synth r_file r_wbuf].
    split; [now apply agree_trigSequencerStep | auto].
Qed.

Lemma agreeRender_exportLoops n sps ra rb :
  agreeRender ra rb ->
  agreeRender (exportLoops n sps ra) (exportLoops n sps rb).
Proof.
  revert ra rb; induction n as [|n IH]; intros ra rb H.
  - exact H.
  - rewrite !exportLoops_S. apply IH. now apply agreeRender_exportSteps.
Qed.

Lemma agree_resetChannels a b :
  List.length (ch a) = NUM_CH -> List.length (ch b) = NUM_CH ->
  List.length (nlfsr a) = 2%nat -> List.length (nlfsr b) = 2%nat ->
  gAmp a = gAmp b -> melPat a = melPat b -> drmPat a = drmPat b ->
  agree (resetChannels NUM_CH 0 a) (resetChannels NUM_CH 0 b).
Proof.
  intros La Lb Na Nb Hg Hm Hd.
  destruct (resetChannels_control a)
    as (Ga & _ & Ma & Da & _ & _ & _ & _ & La' & Na').
  destruct (resetChannels_control b)
    as (Gb & _ & Mb & Db & _ & _ & _ & _ & Lb' & Nb').
  assert (Ha : ch (resetChannels NUM_CH 0 a) = repeat Channel0 NUM_CH).
  { clear - La. five_channels a La. reflexivity. }
  assert (Hb : ch (resetChannels NUM_CH 0 b) = repeat Channel0 NUM_CH).
  { clear - Lb. five_channels b Lb. reflexivity. }
  unfold agree, chan. rewrite Ha, Hb.
  split; [reflexivity|]. split; [reflexivity|].
  split; [congruence|]. split; [congruence|]. split; [congruence|].
  split; [congruence|]. split; [congruence|].
  unfold CH_SNARE, CH_HAT, NUM_CH. cbn [repeat nth].
  split; [|split]; try discriminate.
  intros c Hc. do 3 (destruct c as [|c]; [reflexivity|]). lia.
Qed.

(** C9: two exports of the same file name and loop count, from engines
    that share pattern contents, BPM and global amplitude but whose
    channel records and noise registers are arbitrary, leave the same
    files on the card (header and sample bytes) and print the same
    lines. *)
Theorem export_deterministic
        (filename : string) (numLoops : Z) (sd : SDCard) (a b : Synth) :
  List.length (ch a) = NUM_CH -> List.length (ch b) = NUM_CH ->
  List.length (nlfsr a) = 2%nat -> List.length (nlfsr b) = 2%nat ->
  melPat a = melPat b -> drmPat a = drmPat b ->
  seqBPM a = seqBPM b -> gAmp a = gAmp b ->
  snd (fst (exportPatternToWAV filename numLoops sd a))
  = snd (fst (exportPatternToWAV filename numLoops sd b))
  /\ snd (exportPatternToWAV filename numLoops sd a)
     = snd (exportPatternToWAV filename numLoops sd b).
Proof.
  intros La Lb Na Nb Hm Hd Hbpm Hg.
  unfold exportPatternToWAV.
  destruct (negb (sd_begin sd)); [split; reflexivity|].
  cbv zeta.
  destruct (negb (sd_open _)); [split; reflexivity|].
  change (seqBPM (resetChannels NUM_CH 0 a)) with (seqBPM a).
  change (seqBPM (resetChannels NUM_CH 0 b)) with (seqBPM b).
  rewrite Hbpm.
  set (f := writeWAVHeader [] _).
  set (sps := Z.to_nat (_ / 1000)).
  assert (H : agreeRender (mkRender (resetChannels NUM_CH 0 a) f [])
                          (mkRender (resetChannels NUM_CH 0 b) f [])).
  { split; [|split; reflexivity]. now apply agree_resetChannels. }
  apply (agreeRender_exportLoops (Z.to_nat numLoops) sps) in H.
  destruct H as (_ & Hf & Hw).
  set (ra := exportLoops _ _ (mkRender (resetChannels NUM_CH 0 a) _ _)) in *.
  set (rb := exportLoops _ _ (mkRender (resetChannels NUM_CH 0 b) _ _)) in *.
  assert (Hfinal : r_file (if wbufPos ra >? 0 then flushBuf ra else ra)
                   = r_file (if wbufPos rb >? 0 then flushBuf rb else rb)).
  { unfold wbufPos. rewrite Hw.
    destruct (_ >? 0); unfold flushBuf; cbn [r_file];
      rewrite ?Hf, ?Hw; reflexivity. }
  cbn [fst snd]. rewrite Hfinal. split; reflexivity.
Qed.

(** The same pattern exported from the power-up state and from a state
    with a sounding snare and a displaced noise register. *)
Lemma export_deterministic_witness :
  let a := Synth0 in
  let b := set_nlfsr [1; 2] (trigSnare (trigKick Synth0)) in
  snd (fst (exportPatternToWAV "song.wav" 1 (mkSD true true []) a))
  = snd (fst (exportPatternToWAV "song.wav" 1 (mkSD true true []) b))
  /\ snd (exportPatternToWAV "song.wav" 1 (mkSD true true []) a)
     = snd (exportPatternToWAV "song.wav" 1 (mkSD true true []) b).
Proof.
  intros a b.
  apply (export_deterministic "song.wav" 1 (mkSD true true []) a b);
    reflexivity.
Defined.

(** ** Invariants carried through the service loop and the export *)

Section Preserved.
Variable I : Synth -> Prop.
Hypothesis I_voice : forall c st, I st -> I (snd (synthSample c st)).
Hypothesis I_step : forall s st, I st -> I (trigSequencerStep s st).
Hypothesis I_reset : forall st, I st -> I (resetChannels NUM_CH 0 st).
Hypothesis I_frame : forall a b, ch a = ch b -> gAmp a = gAmp b -> I a -> I b.

Lemma preserved_mixChannels n c mix st :
  I st -> I (snd (mixChannels n c mix st)).
Proof.
  revert c mix st; induction n as [|n IH]; intros c mix st H;
    cbn [mixChannels]; [exact H|].
  pose proof (I_voice c st H) as H1.
  destruct (synthSample c st) as [v st1]. now apply IH.
Qed.

Lemma preserved_mixFrame st : I st -> I (snd (mixFrame st)).
Proof. apply preserved_mixChannels. Qed.

Lemma preserved_renderFrames n st : I st -> I (snd (renderFrames n st)).
Proof.
  revert st; induction n as [|n IH]; intros st H; cbn [renderFrames];
    [exact H|].
  pose proof (preserved_mixFrame st H) as H1.
  destruct (mixFrame st) as [mix st1]. specialize (IH st1 H1).
  destruct (renderFrames n st1) as [l st2]. exact IH.
Qed.

Lemma preserved_loopSequencer now st :
  I st -> I (fst (loopSequencer now st)).
Proof.
  intros H. unfold loopSequencer. destruct (seqPlay st); [|exact H].
  destruct (_ >=? _); [|exact H]. cbn [fst].
  eapply I_frame; [| |apply I_step; eapply I_frame; [| |exact H]];
    reflexivity.
Qed.

Lemma preserved_loop now st : I st -> I (fst (fst (loop now st))).
Proof.
  intros H. unfold loop.
  pose proof (preserved_loopSequencer now st H) as H1.
  destruct (loopSequencer now st) as [st1 note]. cbn [fst] in H1.
  unfold loopAudio.
  pose proof (preserved_renderFrames BUF_SZ st1 H1) as H2.
  destruct (renderFrames BUF_SZ st1) as [mixes st2]. exact H2.
Qed.

Lemma preserved_exportFrame r : I (r_synth r) -> I (r_synth (exportFrame r)).
Proof.
  intros H. unfold exportFrame.
  pose proof (preserved_mixFrame _ H) as H1.
  destruct (mixFrame (r_synth r)) as [mix st1].
  destruct (_ >=? _); exact H1.
Qed.

Lemma preserved_iterate (f : Render -> Render) n r :
  (forall x, I (r_synth x) -> I (r_synth (f x))) ->
  I (r_synth r) -> I (r_synth (iterate n f r)).
Proof.
  intros Hf. revert r; induction n as [|n IH]; intros r H; cbn [iterate]; auto.
Qed.

Lemma preserved_exportSteps k step sps r :
  I (r_synth r) -> I (r_synth (exportSteps k step sps r)).
Proof.
  revert step r; induction k as [|k IH]; intros step r H; [exact H|].
  rewrite exportSteps_S. apply IH. unfold exportFrames.
  apply preserved_iterate; [apply preserved_exportFrame|].
  cbn [r_synth]. now apply I_step.
Qed.

Lemma preserved_export filename numLoops sd st :
  I st -> I (fst (fst (exportPatternToWAV filename numLoops sd st))).
Proof.
  intros H. unfold exportPatternToWAV.
  destruct (negb (sd_begin sd)); [exact H|]. cbv zeta.
  destruct (negb (sd_open _)); [exact H|]. cbn [fst].
  match goal with
  | |- I (r_synth (if ?b then flushBuf ?r else ?r)) =>
      assert (Hr : I (r_synth r)); [|destruct b; exact Hr]
  end.
  unfold exportLoops. apply preserved_iterate.
  - intros x. apply preserved_exportSteps.
  - cbn [r_synth]. now apply I_reset.
Qed.

Lemma preserved_menuExport fname loopsStr sd st :
  I st -> I (fst (fst (menuExport fname loopsStr sd st))).
Proof.
  intros H. unfold menuExport. destruct (String.eqb fname ""); [exact H|].
  now apply preserved_export.
Qed.
End Preserved.

(** ** No sounding channel at frequency 0 *)

Lemma positive_not_zero x : F32.ltb f_0 x = true -> isZero x = false.
Proof. destruct x; simpl; try reflexivity; discriminate. Qed.

Lemma zero_below_floor x : isZero x = true -> F32.ltb x f_30 = true.
Proof. destruct x; simpl; try discriminate; reflexivity. Qed.

Lemma curFreq_voiceNext k :
  isZero (curFreq k) = false -> isZero (curFreq (voiceNext k)) = false.
Proof.
  intros H. unfold voiceNext, pitchStep.
  destruct (voiceIdle k); [exact H|].
  destruct (isNoise k); [exact H|].
  cbn [phaseStep set_phase curFreq pitchMul envStep set_envLvl].
  destruct (negb _); [|exact H].
  cbn [set_curFreq curFreq].
  destruct (F32.ltb (F32.mul (curFreq k) (pitchMul k)) f_30) eqn:E;
    [reflexivity|].
  destruct (isZero (F32.mul (curFreq k) (pitchMul k))) eqn:Z; [|reflexivity].
  apply zero_below_floor in Z. congruence.
Qed.

Lemma freqInv_ch a b : ch a = ch b -> freqInv a -> freqInv b.
Proof. unfold freqInv, chan. intros ->. auto. Qed.

Lemma freqInv_put c k st :
  (active k = true -> isZero (curFreq k) = false) ->
  ((c = CH_SNARE \/ c = CH_HAT) -> isZero (curFreq k) = false) ->
  freqInv st -> freqInv (put_chan c k st).
Proof.
  intros Hk Hn (Hl & Ha & H3 & H4).
  unfold freqInv. rewrite length_ch_put.
  split; [exact Hl|]. split; [|split].
  - intros c' Hc'.
    destruct (Nat.eq_dec c c') as [<- | Hne].
    + rewrite chan_put_same by (rewrite Hl; exact Hc'). exact Hk.
    + rewrite chan_put_other by exact Hne. now apply Ha.
  - destruct (Nat.eq_dec c CH_SNARE) as [-> | Hne].
    + rewrite chan_put_same by (rewrite Hl; unfold CH_SNARE, NUM_CH; lia).
      apply Hn; now left.
    + now rewrite chan_put_other by exact Hne.
  - destruct (Nat.eq_dec c CH_HAT) as [-> | Hne].
    + rewrite chan_put_same by (rewrite Hl; unfold CH_HAT, NUM_CH; lia).
      apply Hn; now right.
    + now rewrite chan_put_other by exact Hne.
Qed.

Lemma freqInv_trigNote c f w st :
  isZero f = false -> freqInv st -> freqInv (trigNote c f w st).
Proof.
  intros Hf. unfold trigNote. apply freqInv_put; cbn [curFreq]; auto.
Qed.

Lemma freqInv_releaseNote c st :
  (c < CH_SNARE)%nat -> freqInv st -> freqInv (releaseNote c st).
Proof.
  intros Hc. unfold releaseNote. apply freqInv_put; cbn [active curFreq].
  - discriminate.
  - unfold CH_SNARE, CH_HAT in *. lia.
Qed.

Lemma freqInv_trigKick st : freqInv st -> freqInv (trigKick st).
Proof.
  unfold trigKick. apply freqInv_put; cbn [curFreq]; auto.
Qed.

Lemma freqInv_trigSnare st : freqInv st -> freqInv (trigSnare st).
Proof.
  intros H. unfold trigSnare.
  eapply freqInv_ch; [|apply freqInv_put; [| |exact H]].
  - reflexivity.
  - cbn [curFreq]. intros _. apply H.
  - cbn [curFreq]. intros _. apply H.
Qed.

Lemma freqInv_trigHat st : freqInv st -> freqInv (trigHat st).
Proof.
  intros H. unfold trigHat.
  eapply freqInv_ch; [|apply freqInv_put; [| |exact H]].
  - reflexivity.
  - cbn [curFreq]. intros _. apply H.
  - cbn [curFreq]. intros _. apply H.
Qed.

Lemma freqInv_trigMelodyTrack t s st :
  freqInv st -> freqInv (trigMelodyTrack t s st).
Proof.
  intros H. unfold trigMelodyTrack.
  assert (Hc : ((if Nat.eqb t 0 then CH_LEAD else CH_BASS) < CH_SNARE)%nat).
  { destruct (Nat.eqb t 0); unfold CH_LEAD, CH_BASS, CH_SNARE; lia. }
  destruct (F32.ltb f_0 (freq (mel t s st))) eqn:E.
  - apply freqInv_trigNote; [now apply positive_not_zero | exact H].
  - now apply freqInv_releaseNote.
Qed.

Lemma freqInv_trigSequencerStep s st :
  freqInv st -> freqInv (trigSequencerStep s st).
Proof.
  intros H. unfold trigSequencerStep. cbv zeta.
  apply (freqInv_trigMelodyTrack 0 s) in H.
  apply (freqInv_trigMelodyTrack 1 s) in H.
  repeat match goal with
         | |- freqInv (if ?b then _ else _) => destruct b
         | |- freqInv (trigHat _) => apply freqInv_trigHat
         | |- freqInv (trigSnare _) => apply freqInv_trigSnare
         | |- freqInv (trigKick _) => apply freqInv_trigKick
         end; exact H.
Qed.

Lemma freqInv_synthSample c st :
  freqInv st -> freqInv (snd (synthSample c st)).
Proof.
  intros H. pose proof H as (Hl & Ha & H3 & H4).
  apply (freqInv_ch (put_chan c (voiceNext (chan c st)) st));
    [now rewrite synthSample_ch|].
  destruct (Nat.lt_ge_cases c NUM_CH) as [Hc | Hc].
  - apply freqInv_put; [| |exact H].
    + intros Hact. apply curFreq_voiceNext. apply Ha; [exact Hc|].
      now apply active_voiceNext.
    + intros [-> | ->]; now apply curFreq_voiceNext.
  - apply (freqInv_ch st); [|exact H].
    unfold put_chan; cbn [ch set_ch].
    symmetry. apply upd_overflow. now rewrite Hl.
Qed.

Lemma freqInv_resetChannels st :
  freqInv st -> freqInv (resetChannels NUM_CH 0 st).
Proof.
  intros H. unfold resetChannels, NUM_CH.
  repeat (apply freqInv_put; [discriminate | reflexivity |]). exact H.
Qed.

Lemma freqInv_frame a b : ch a = ch b -> gAmp a = gAmp b -> freqInv a -> freqInv b.
Proof. intros H _. now apply freqInv_ch. Qed.

Lemma freqInv_onWsEvent msg now st :
  playsZero (EvWs msg now) = false ->
  freqInv st -> freqInv (onWsEvent msg now st).
Proof.
  intros Hp H. unfold onWsEvent. cbn [playsZero] in Hp.
  destruct (startsWith msg "PLAY:").
  { apply freqInv_trigNote; [exact Hp | exact H]. }
  destruct (String.eqb msg "STOP").
  { apply freqInv_releaseNote; [unfold CH_LEAD, CH_SNARE; lia | exact H]. }
  destruct (startsWith msg "WAVE:"); [exact H|].
  destruct (startsWith msg "VOL:"); [exact H|].
  destruct (startsWith msg "SEQ_SET:").
  { cbv zeta. destruct (_ || _); exact H. }
  destruct (startsWith msg "SEQ_DRUM:").
  { cbv zeta. destruct (_ || _); exact H. }
  destruct (startsWith msg "SEQ_BPM:"); [exact H|].
  destruct (String.eqb msg "SEQ_PLAY"); [exact H|].
  destruct (String.eqb msg "SEQ_STOP").
  { do 2 (apply freqInv_releaseNote;
          [unfold CH_LEAD, CH_BASS, CH_SNARE; lia|]). exact H. }
  destruct (String.eqb msg "SEQ_CLEAR").
  { do 2 (apply freqInv_releaseNote;
          [unfold CH_LEAD, CH_BASS, CH_SNARE; lia|]). exact H. }
  exact H.
Qed.

Lemma freqInv_handle ev st :
  playsZero ev = false -> freqInv st -> freqInv (handle ev st).
Proof.
  intros Hp H. destruct ev as [msg now | now | | | fname loopsStr sd];
    cbn [handle].
  - now apply freqInv_onWsEvent.
  - apply (preserved_loop freqInv freqInv_synthSample
             freqInv_trigSequencerStep freqInv_frame); exact H.
  - exact H.
  - exact H.
  - apply (preserved_menuExport freqInv freqInv_synthSample
             freqInv_trigSequencerStep freqInv_resetChannels); exact H.
Qed.

Lemma freqInv_Synth0 : freqInv Synth0.
Proof.
  unfold freqInv. split; [reflexivity|]. split; [|split; reflexivity].
  intros c Hc Ha. unfold NUM_CH in Hc.
  do 5 (destruct c as [|c]; [discriminate Ha|]). lia.
Qed.

(** C10, as amended: in every state reached from power-up through
    commands, service-loop iterations, volume keys and exports, provided
    no live note-on carried a frequency that reads as 0, no channel is
    active with a frequency of exactly 0. *)
Theorem no_sounding_zero_frequency (evs : list Event) (c : nat) :
  Forall (fun ev => playsZero ev = false) evs ->
  (c < NUM_CH)%nat ->
  active (chan c (run evs Synth0)) = true ->
  isZero (curFreq (chan c (run evs Synth0))) = false.
Proof.
  intros Hev Hc.
  assert (H : freqInv (run evs Synth0)).
  { unfold run. generalize freqInv_Synth0. generalize Synth0.
    induction Hev as [|ev evs Hp _ IH]; intros st H; cbn [fold_left];
      [exact H|].
    apply IH. now apply freqInv_handle. }
  destruct H as (_ & Ha & _). now apply Ha.
Qed.

Lemma no_sounding_zero_frequency_witness :
  isZero (curFreq (chan CH_LEAD
                        (run [EvWs "VOL:20000" 0; EvWs "PLAY:440" 5] Synth0)))
  = false.
Proof.
  apply (no_sounding_zero_frequency
           [EvWs "VOL:20000" 0; EvWs "PLAY:440" 5] CH_LEAD).
  - repeat constructor.
  - unfold CH_LEAD, NUM_CH; lia.
  - reflexivity.
Defined.

(** C10 as stated fails: the live note-on [PLAY:0] leaves Lead active with
    frequency exactly 0. *)
Lemma play_zero_sounds :
  let st := run [EvWs "PLAY:0" 0] Synth0 in
  reachable st
  /\ active (chan CH_LEAD st) = true
  /\ isZero (curFreq (chan CH_LEAD st)) = true.
Proof.
  split; [now exists [EvWs "PLAY:0"%string 0] | split; reflexivity].
Qed.

(** ** Kick pitch sweep *)

Lemma float_same_eq x y : float_same x y = true -> x = y.
Proof.
  destruct x, y; simpl; try discriminate; intros H.
  - apply Bool.eqb_prop in H. now subst.
  - apply Bool.eqb_prop in H. now subst.
  - reflexivity.
  - apply andb_prop in H as [H He]. apply andb_prop in H as [Hs Hm].
    apply Bool.eqb_prop in Hs. apply Pos.eqb_eq in Hm. apply Z.eqb_eq in He.
    now subst.
Qed.

Lemma length_ch_synthSample c st :
  List.length (ch (snd (synthSample c st))) = List.length (ch st).
Proof. rewrite synthSample_ch. apply length_upd. Qed.

Lemma chan_renderKick n st :
  List.length (ch st) = NUM_CH ->
  chan CH_KICK (renderKick n st) = iterate n voiceNext (chan CH_KICK st).
Proof.
  unfold renderKick. revert st; induction n as [|n IH]; intros st H.
  - reflexivity.
  - rewrite !iterate_S, IH by (now rewrite length_ch_synthSample).
    rewrite chan_synthSample_same; [reflexivity|].
    rewrite H. unfold CH_KICK, NUM_CH. lia.
Qed.

Lemma sweepRun_sound n k k' :
  sweepRun n k = Some k' ->
  k' = iterate n voiceNext k
  /\ forall i, (i < n)%nat ->
       Flt (curFreq (iterate (S i) voiceNext k)) (curFreq (iterate i voiceNext k))
       /\ Flt f_30 (curFreq (iterate i voiceNext k)).
Proof.
  revert k; induction n as [|n IH]; intros k H; cbn [sweepRun] in H.
  - injection H as <-. split; [reflexivity | intros i Hi; lia].
  - destruct (SFltb (curFreq (voiceNext k)) (curFreq k)) eqn:E1;
      [|discriminate].
    destruct (SFltb f_30 (curFreq k)) eqn:E2; [|discriminate].
    cbn [andb] in H. destruct (IH _ H) as [Hk Hi].
    split; [exact Hk|].
    intros [|i] Hlt.
    + split; [exact E1 | exact E2].
    + rewrite !iterate_S. apply Hi. lia.
Qed.

(** The closed computation: 2108 samples after a Kick trigger the
    frequency has fallen on every sample and is exactly 30. *)
Lemma kick_sweep_run :
  match sweepRun KICK_SWEEP kickOn with
  | Some k => float_same (curFreq k) f_30 && float_same (pitchMul k) f_0_9991
  | None => false
  end = true.
Proof. vm_compute. reflexivity. Qed.

Lemma floor_stays k :
  curFreq k = f_30 -> pitchMul k = f_0_9991 ->
  curFreq (voiceNext k) = f_30 /\ pitchMul (voiceNext k) = f_0_9991.
Proof.
  intros Hf Hp. unfold voiceNext.
  destruct (voiceIdle k); [now split|].
  destruct (isNoise k); [now split|].
  unfold pitchStep. cbn [phaseStep set_phase curFreq pitchMul].
  rewrite Hp, Hf.
  change (negb (F32.eqb f_0_9991 f_1)) with true. cbv iota.
  change (F32.ltb (F32.mul f_30 f_0_9991) f_30) with true. cbv iota.
  cbn [envStep set_envLvl set_curFreq curFreq pitchMul set_phase].
  split; [reflexivity | exact Hp].
Qed.

Lemma floor_stays_iter n k :
  curFreq k = f_30 -> pitchMul k = f_0_9991 ->
  curFreq (iterate n voiceNext k) = f_30.
Proof.
  revert k; induction n as [|n IH]; intros k Hf Hp; [exact Hf|].
  rewrite iterate_S. destruct (floor_stays k Hf Hp). now apply IH.
Qed.

Lemma iterate_add {A} (n m : nat) (f : A -> A) (x : A) :
  iterate (n + m) f x = iterate m f (iterate n f x).
Proof.
  revert x; induction n as [|n IH]; intros x; [reflexivity|].
  cbn [Nat.add]. rewrite !iterate_S. apply IH.
Qed.

(** C4: after a Kick trigger the Kick frequency is 200 Hz; each of the
    next 2108 rendered samples finds it above 30 Hz and lowers it
    strictly; from the 2108th sample on it is exactly 30 Hz for as long
    as the channel is not triggered again. *)
Theorem kick_sweep_to_floor (st : Synth) :
  List.length (ch st) = NUM_CH ->
  let f := fun n => curFreq (chan CH_KICK (renderKick n (trigKick st))) in
  f O = f_200
  /\ (forall n, (n < KICK_SWEEP)%nat -> Flt f_30 (f n) /\ Flt (f (S n)) (f n))
  /\ (forall n, (KICK_SWEEP <= n)%nat -> f n = f_30).
Proof.
  intros Hl f.
  assert (Hf : forall n, f n = curFreq (iterate n voiceNext kickOn)).
  { intros n. unfold f. rewrite chan_renderKick.
    - unfold trigKick. rewrite chan_put_same; [reflexivity|].
      rewrite Hl. unfold CH_KICK, NUM_CH. lia.
    - unfold trigKick. now rewrite length_ch_put. }
  pose proof kick_sweep_run as Hrun.
  destruct (sweepRun KICK_SWEEP kickOn) as [k|] eqn:E; [|discriminate].
  apply andb_prop in Hrun as [H30 Hpm].
  apply float_same_eq in H30, Hpm.
  destruct (sweepRun_sound _ _ _ E) as [Hk Hdown].
  split; [|split].
  - rewrite Hf. reflexivity.
  - intros n Hn. rewrite !Hf. destruct (Hdown n Hn). now split.
  - intros n Hn. rewrite Hf.
    replace n with (KICK_SWEEP + (n - KICK_SWEEP))%nat by lia.
    rewrite iterate_add, <- Hk. now apply floor_stays_iter.
Qed.

Lemma kick_sweep_to_floor_witness :
  let f := fun n => curFreq (chan CH_KICK (renderKick n (trigKick Synth0))) in
  f O = f_200
  /\ (forall n, (n < KICK_SWEEP)%nat -> Flt f_30 (f n) /\ Flt (f (S n)) (f n))
  /\ (forall n, (KICK_SWEEP <= n)%nat -> f n = f_30).
Proof.
  apply (kick_sweep_to_floor Synth0). reflexivity.
Defined.

(** ** Envelope *)

Lemma envFrom_step d x y :
  envFrom d x y -> F32.ltb y f_0_001 = false -> envFrom d x (F32.mul y d).
Proof.
  induction 1 as [x | x y Hx H IH]; intros Hy.
  - apply envFrom_next; [exact Hy | apply envFrom_here].
  - apply envFrom_next; [exact Hx | now apply IH].
Qed.

Lemma envDecays_sound fuel d x y :
  envDecays fuel d x = true -> envFrom d x y ->
  Fle y y /\ Fle f_0 y /\ unitLevelb y = true
  /\ (F32.ltb y f_0_001 = false -> Fle (F32.mul y d) y).
Proof.
  revert x; induction fuel as [|n IH]; intros x H Hy; cbn [envDecays] in H;
    [discriminate|].
  apply andb_prop in H as [H Hrest]. apply andb_prop in H as [H Hu].
  apply andb_prop in H as [Hxx H0x].
  destruct Hy as [x | x y Hx Hy].
  - split; [exact Hxx | split; [exact H0x | split; [exact Hu|]]].
    intros Hlt. rewrite Hlt in Hrest. now apply andb_prop in Hrest as [? _].
  - rewrite Hx in Hrest. apply andb_prop in Hrest as [_ Hrest].
    now apply (IH (F32.mul x d)).
Qed.

(** The closed computations: from level 1.0 each of the four decay
    factors brings the envelope below 0.001 without ever raising it. *)
Lemma envDecays_note : envDecays envFuel f_0_9998 f_1 = true.
Proof. vm_compute. reflexivity. Qed.

Lemma envDecays_kick : envDecays envFuel f_0_9997 f_1 = true.
Proof. vm_compute. reflexivity. Qed.

Lemma envDecays_snare : envDecays envFuel f_0_9988 f_1 = true.
Proof. vm_compute. reflexivity. Qed.

Lemma envDecays_hat : envDecays envFuel f_0_9970 f_1 = true.
Proof. vm_compute. reflexivity. Qed.

Lemma envDecays_trigger t : envDecays envFuel (triggerDecay t) f_1 = true.
Proof.
  destruct t; [apply envDecays_note | apply envDecays_kick
               | apply envDecays_snare | apply envDecays_hat].
Qed.

Lemma envLvl_voiceNext k :
  envDcy (voiceNext k) = envDcy k
  /\ ((voiceIdle k = true /\ envLvl (voiceNext k) = envLvl k)
      \/ (F32.ltb (envLvl k) f_0_001 = false
          /\ envLvl (voiceNext k) = F32.mul (envLvl k) (envDcy k))).
Proof.
  unfold voiceNext. destruct (voiceIdle k) eqn:E.
  - split; [reflexivity | left; now split].
  - assert (Hlt : F32.ltb (envLvl k) f_0_001 = false).
    { unfold voiceIdle in E. now apply orb_false_elim in E as [_ ?]. }
    destruct (isNoise k).
    + split; [reflexivity | right; now split].
    + unfold pitchStep. destruct (negb _);
        [destruct (F32.ltb _ f_30)|];
        (split; [reflexivity | right; now split]).
Qed.

Section Decay.
Variable t : Trigger.
Let d := triggerDecay t.

Lemma decaying_le k :
  decaying d k -> Fle (envLvl k) (envLvl k) /\ Fle f_0 (envLvl k).
Proof.
  intros [_ [-> | H]]; [split; reflexivity|].
  destruct (envDecays_sound _ _ _ _ (envDecays_trigger t) H) as (? & ? & _).
  now split.
Qed.

Lemma decaying_voiceNext k :
  decaying d k ->
  decaying d (voiceNext k) /\ Fle (envLvl (voiceNext k)) (envLvl k).
Proof.
  intros Hk. pose proof Hk as [Hd He].
  destruct (envLvl_voiceNext k) as [Hd' [[_ Hl] | [Hlt Hl]]].
  - rewrite Hl. split; [|apply (decaying_le k Hk)].
    split; [congruence | now rewrite Hl].
  - rewrite Hl, Hd. destruct He as [E0 | H].
    + rewrite E0 in Hlt. discriminate Hlt.
    + split.
      * split; [congruence|]. rewrite Hl, Hd. right.
        now apply envFrom_step.
      * now apply (envDecays_sound _ _ _ _ (envDecays_trigger t) H).
Qed.

Lemma decaying_released k :
  decaying d k ->
  decaying d (set_active false
                (mkChannel (phase k) (curFreq k) (waveType k) f_0 (envDcy k)
                           (active k) (isNoise k) (pitchMul k)))
  /\ Fle f_0 (envLvl k).
Proof.
  intros Hk. split; [|apply (decaying_le k Hk)].
  destruct Hk as [Hd _]. split; [exact Hd | now left].
Qed.
End Decay.

Lemma chan_fire_other t c st :
  triggerChan t <> c -> chan c (fire t st) = chan c st.
Proof.
  intros H. destruct t; cbn [fire triggerChan] in *.
  - unfold trigNote. now rewrite chan_put_other.
  - unfold trigKick. now rewrite chan_put_other.
  - unfold trigSnare, chan; cbn [set_nlfsr ch put_chan set_ch].
    now rewrite nth_upd_other.
  - unfold trigHat, chan; cbn [set_nlfsr ch put_chan set_ch].
    now rewrite nth_upd_other.
Qed.

Lemma chan_fire_same t st :
  (triggerChan t < List.length (ch st))%nat ->
  envLvl (chan (triggerChan t) (fire t st)) = f_1
  /\ envDcy (chan (triggerChan t) (fire t st)) = triggerDecay t.
Proof.
  intros H. destruct t; cbn [fire triggerChan triggerDecay] in *.
  - unfold trigNote. rewrite chan_put_same by exact H. now split.
  - unfold trigKick. rewrite chan_put_same by exact H. now split.
  - unfold trigSnare, chan; cbn [set_nlfsr ch put_chan set_ch].
    rewrite nth_upd_same by exact H. now split.
  - unfold trigHat, chan; cbn [set_nlfsr ch put_chan set_ch].
    rewrite nth_upd_same by exact H. now split.
Qed.

Lemma length_ch_applyOp op st :
  List.length (ch (applyOp op st)) = List.length (ch st).
Proof.
  destruct op as [c | c | t]; cbn [applyOp].
  - apply length_ch_synthSample.
  - unfold releaseNote. apply length_ch_put.
  - symmetry. destruct t; cbn [fire];
      [apply (trigNote_control c f w st) | apply (trigKick_control st)
       | apply (trigSnare_control st) | apply (trigHat_control st)].
Qed.

(** One operation that is not a trigger of channel [c] keeps the channel
    on its decay and does not raise its envelope. *)
Lemma decaying_applyOp t c op st :
  (c < List.length (ch st))%nat ->
  noTriggerOf c op ->
  decaying (triggerDecay t) (chan c st) ->
  decaying (triggerDecay t) (chan c (applyOp op st))
  /\ Fle (envLvl (chan c (applyOp op st))) (envLvl (chan c st)).
Proof.
  intros Hc Hop Hk.
  destruct op as [c' | c' | t']; cbn [applyOp noTriggerOf] in *.
  - destruct (Nat.eq_dec c' c) as [-> | Hne].
    + rewrite chan_synthSample_same by exact Hc.
      now apply decaying_voiceNext.
    + rewrite chan_synthSample_other by exact Hne.
      split; [exact Hk | apply (decaying_le t _ Hk)].
  - unfold releaseNote. destruct (Nat.eq_dec c' c) as [-> | Hne].
    + rewrite chan_put_same by exact Hc.
      destruct (decaying_released t _ Hk) as [H1 H2].
      split; [exact H1 | exact H2].
    + rewrite chan_put_other by exact Hne.
      split; [exact Hk | apply (decaying_le t _ Hk)].
  - rewrite chan_fire_other by exact Hop.
    split; [exact Hk | apply (decaying_le t _ Hk)].
Qed.

(** C6: a trigger sets the envelope level of its channel to exactly 1.0,
    and after it every rendered sample, release, or trigger of another
    channel leaves the level of that channel no higher than before, for
    as long as the channel itself is not triggered again. *)
Theorem envelope_never_rises
        (t : Trigger) (ops : list VoiceOp) (op : VoiceOp) (st : Synth) :
  List.length (ch st) = NUM_CH ->
  (triggerChan t < NUM_CH)%nat ->
  Forall (noTriggerOf (triggerChan t)) ops ->
  noTriggerOf (triggerChan t) op ->
  let c := triggerChan t in
  let s := fold_left (fun s o => applyOp o s) ops (fire t st) in
  envLvl (chan c (fire t st)) = f_1
  /\ Fle (envLvl (chan c (applyOp op s))) (envLvl (chan c s)).
Proof.
  intros Hl Hc Hops Hop c s. subst c.
  destruct (chan_fire_same t st) as [H1 Hd]; [now rewrite Hl|].
  split; [exact H1|].
  assert (Hs : (triggerChan t < List.length (ch s))%nat
               /\ decaying (triggerDecay t) (chan (triggerChan t) s)).
  { subst s.
    assert (H0 : (triggerChan t < List.length (ch (fire t st)))%nat
                 /\ decaying (triggerDecay t)
                             (chan (triggerChan t) (fire t st))).
    { split.
      - pose proof (length_ch_applyOp (OpFire t) st) as X.
        cbn [applyOp] in X. rewrite X, Hl. exact Hc.
      - split; [exact Hd | right; rewrite H1; apply envFrom_here]. }
    revert H0. generalize (fire t st).
    induction Hops as [|o ops Ho _ IH]; intros s0 [Hlen Hk]; cbn [fold_left];
      [now split|].
    apply IH. split.
    - now rewrite length_ch_applyOp.
    - now apply decaying_applyOp. }
  destruct Hs as [Hlen Hk].
  now apply (decaying_applyOp t (triggerChan t) op s).
Qed.

Lemma envelope_never_rises_witness :
  let s := fold_left (fun s o => applyOp o s)
                     [OpSynth CH_SNARE; OpFire TrKick; OpSynth CH_SNARE]
                     (fire TrSnare Synth0) in
  envLvl (chan CH_SNARE (fire TrSnare Synth0)) = f_1
  /\ Fle (envLvl (chan CH_SNARE (applyOp (OpRelease CH_SNARE) s)))
         (envLvl (chan CH_SNARE s)).
Proof.
  apply (envelope_never_rises
           TrSnare [OpSynth CH_SNARE; OpFire TrKick; OpSynth CH_SNARE]
           (OpRelease CH_SNARE) Synth0).
  - reflexivity.
  - cbn [triggerChan]. unfold CH_SNARE, NUM_CH. lia.
  - repeat constructor. cbn [noTriggerOf triggerChan].
    unfold CH_KICK, CH_SNARE. lia.
  - exact I.
Defined.

(** ** Floating-point rounding against a representable bound *)

Lemma pow2_split a b : 0 <= a -> 0 <= b -> 2 ^ (a + b) = 2 ^ a * 2 ^ b.
Proof. intros; now apply Z.pow_add_r. Qed.

Lemma pow2_gt0 a : 0 <= a -> 0 < 2 ^ a.
Proof. intros; now apply Z.pow_pos_nonneg. Qed.

(** The comparison can be made at any exponent below both. *)
Lemma dle_base k m1 e1 m2 e2 :
  k <= e1 -> k <= e2 ->
  (dle m1 e1 m2 e2 <-> m1 * 2 ^ (e1 - k) <= m2 * 2 ^ (e2 - k)).
Proof.
  intros H1 H2. unfold dle. set (z := Z.min e1 e2).
  assert (Hz : k <= z) by (unfold z; lia).
  assert (Hz1 : z <= e1) by (unfold z; lia).
  assert (Hz2 : z <= e2) by (unfold z; lia).
  replace (e1 - k) with ((e1 - z) + (z - k)) by lia.
  replace (e2 - k) with ((e2 - z) + (z - k)) by lia.
  rewrite !pow2_split by lia.
  assert (Hp : 0 < 2 ^ (z - k)) by (apply pow2_gt0; lia).
  rewrite !Z.mul_assoc. split; intros H.
  - apply Z.mul_le_mono_nonneg_r; [lia | exact H].
  - now apply Z.mul_le_mono_pos_r in H.
Qed.

Lemma digits2_size p : digits2_pos p = Pos.size p.
Proof. induction p; simpl; now rewrite ?IHp. Qed.

Lemma digits2_bounds p :
  2 ^ (Zpos (digits2_pos p) - 1) <= Zpos p < 2 ^ Zpos (digits2_pos p).
Proof.
  rewrite digits2_size. split.
  - pose proof (Pos.size_le p) as H.
    assert (H0 : Zpos (2 ^ Pos.size p) <= Zpos p~0) by exact H.
    rewrite Pos2Z.inj_pow in H0.
    replace (Zpos (Pos.size p)) with ((Zpos (Pos.size p) - 1) + 1) in H0 by lia.
    rewrite pow2_split in H0 by lia. change (2 ^ 1) with 2 in H0. lia.
  - pose proof (Pos.size_gt p) as H.
    assert (H0 : Zpos p < Zpos (2 ^ Pos.size p)) by exact H.
    now rewrite Pos2Z.inj_pow in H0.
Qed.

(** ** Right shifts with round and sticky bits *)

Lemma shr_1_shifted r : 0 <= shr_m r -> shiftedBy 1 r (shr_1 r).
Proof.
  destruct r as [m rb sb]. unfold shiftedBy, inexact.
  cbn [shr_m shr_r shr_s]. change (2 ^ 1) with 2. intros Hm.
  destruct m as [|[p|p|]|p]; [| | | |lia]; cbn [shr_1 shr_m shr_r shr_s].
  - split; [reflexivity|]. intros H _. now rewrite H.
  - split; [rewrite Pos2Z.inj_xI; apply Z.div_unique with 1; lia|].
    intros _ H. rewrite Pos2Z.inj_xI in H.
    rewrite Z.add_comm, Z.mul_comm, Z.mod_add in H by lia. discriminate.
  - split; [rewrite Pos2Z.inj_xO; apply Z.div_unique with 0; lia|].
    intros H _. now rewrite H.
  - split; [reflexivity|]. intros _ H. discriminate.
Qed.

Lemma shiftedBy_trans a b r r' r'' :
  0 <= a -> 0 <= b ->
  shiftedBy a r r' -> shiftedBy b r' r'' -> shiftedBy (a + b) r r''.
Proof.
  intros Ha Hb [M1 E1] [M2 E2]. unfold shiftedBy.
  pose proof (pow2_gt0 a Ha) as Pa. pose proof (pow2_gt0 b Hb) as Pb.
  rewrite pow2_split by lia. split.
  - rewrite M2, M1. now rewrite Z.div_div by lia.
  - intros Hi Hmod. rewrite Z.rem_mul_r in Hmod by lia.
    pose proof (Z.mod_pos_bound (shr_m r) (2 ^ a) Pa) as B1.
    pose proof (Z.mod_pos_bound (shr_m r / 2 ^ a) (2 ^ b) Pb) as B2.
    assert (H1 : shr_m r mod 2 ^ a = 0) by nia.
    assert (H2 : (shr_m r / 2 ^ a) mod 2 ^ b = 0) by nia.
    apply E2; [now apply E1 | now rewrite M1].
Qed.

Lemma shiftedBy_nonneg k r r' :
  0 <= k -> 0 <= shr_m r -> shiftedBy k r r' -> 0 <= shr_m r'.
Proof.
  intros Hk Hm [M _]. rewrite M. apply Z.div_pos; [exact Hm | now apply pow2_gt0].
Qed.

Lemma iter_shr_1_shifted p r :
  0 <= shr_m r -> shiftedBy (Zpos p) r (iter_pos shr_1 p r).
Proof.
  revert r; induction p as [p IH | p IH |]; intros r Hm; simpl iter_pos.
  - pose proof (shr_1_shifted r Hm) as S1.
    pose proof (shiftedBy_nonneg 1 _ _ ltac:(lia) Hm S1) as N1.
    pose proof (IH _ N1) as S2.
    pose proof (shiftedBy_nonneg (Zpos p) _ _ ltac:(lia) N1 S2) as N2.
    pose proof (IH _ N2) as S3.
    replace (Zpos p~1) with (1 + (Zpos p + Zpos p)) by lia.
    eapply shiftedBy_trans; [lia | lia | exact S1 |].
    eapply shiftedBy_trans; [lia | lia | exact S2 | exact S3].
  - pose proof (IH _ Hm) as S2.
    pose proof (shiftedBy_nonneg (Zpos p) _ _ ltac:(lia) Hm S2) as N2.
    pose proof (IH _ N2) as S3.
    replace (Zpos p~0) with (Zpos p + Zpos p) by lia.
    eapply shiftedBy_trans; [lia | lia | exact S2 | exact S3].
  - now apply shr_1_shifted.
Qed.

(** ** Rounding never passes a representable bound *)

Section RoundBound.
Variables prec emax : Z.
Hypothesis prec_pos : 0 < prec.

Lemma fexp_mono a b : a <= b -> fexp prec emax a <= fexp prec emax b.
Proof. unfold fexp. lia. Qed.

Lemma shr_fexp_exact m e :
  0 <= m ->
  exists p r,
    shr_fexp prec emax m e loc_Exact = (r, e + p)
    /\ p = Z.max 0 (fexp prec emax (Zdigits2 m + e) - e)
    /\ shiftedBy p (Build_shr_record m false false) r.
Proof.
  intros Hm. unfold shr_fexp, shr. cbn [shr_record_of_loc].
  destruct (fexp prec emax (Zdigits2 m + e) - e) as [|p|p] eqn:E.
  - exists 0, (Build_shr_record m false false).
    rewrite Z.add_0_r. split; [reflexivity | split; [reflexivity|]].
    unfold shiftedBy; cbn [shr_m]. rewrite Z.div_1_r. auto.
  - exists (Zpos p), (iter_pos shr_1 p (Build_shr_record m false false)).
    split; [reflexivity | split; [lia|]].
    now apply iter_shr_1_shifted.
  - exists 0, (Build_shr_record m false false).
    rewrite Z.add_0_r. split; [reflexivity | split; [lia|]].
    unfold shiftedBy; cbn [shr_m]. rewrite Z.div_1_r. auto.
Qed.

Lemma round_nearest_even_cases r :
  let m := round_nearest_even (shr_m r) (loc_of_shr_record r) in
  m = shr_m r \/ (m = shr_m r + 1 /\ inexact r = true).
Proof.
  destruct r as [m [|] [|]]; unfold inexact; cbn; auto.
  destruct (Z.even m); auto.
Qed.

(** A number below a representable bound [mb * 2^eb] has its rounding
    exponent at or below [eb]. *)
Lemma fexp_le_bound (m : positive) e (mb : positive) eb :
  bounded prec emax mb eb = true ->
  dle (Zpos m) e (Zpos mb) eb ->
  fexp prec emax (Zpos (digits2_pos m) + e) <= eb.
Proof.
  intros Hb Hle. unfold bounded, canonical_mantissa in Hb.
  apply andb_prop in Hb as [Hc _]. apply Z.eqb_eq in Hc.
  rewrite <- Hc. apply fexp_mono.
  set (k := Z.min e eb).
  apply (dle_base k) in Hle; [|unfold k; lia|unfold k; lia].
  destruct (digits2_bounds m) as [Lm _].
  destruct (digits2_bounds mb) as [_ Ub].
  set (d := Zpos (digits2_pos m)) in *.
  set (db := Zpos (digits2_pos mb)) in *.
  assert (Pd : 0 < d) by (unfold d; lia).
  assert (Pdb : 0 < db) by (unfold db; lia).
  assert (P1 : 0 < 2 ^ (e - k)) by (apply pow2_gt0; unfold k; lia).
  assert (P2 : 0 < 2 ^ (eb - k)) by (apply pow2_gt0; unfold k; lia).
  assert (H : 2 ^ (d - 1 + (e - k)) < 2 ^ (db + (eb - k))).
  { rewrite (pow2_split (d - 1) (e - k)), (pow2_split db (eb - k))
      by (unfold k; lia).
    apply Z.le_lt_trans with (Zpos m * 2 ^ (e - k));
      [apply Z.mul_le_mono_nonneg_r; lia|].
    apply Z.le_lt_trans with (Zpos mb * 2 ^ (eb - k)); [exact Hle|].
    apply Z.mul_lt_mono_pos_r; lia. }
  apply Z.pow_lt_mono_r_iff in H; [lia | lia | unfold k; lia].
Qed.

Lemma round_aux_le s (m : positive) e (mb : positive) eb :
  e <= emax - prec ->
  bounded prec emax mb eb = true ->
  dle (Zpos m) e (Zpos mb) eb ->
  match binary_round_aux prec emax s (Zpos m) e loc_Exact with
  | S754_zero _ => True
  | S754_finite s' m' e' => s' = s /\ dle (Zpos m') e' (Zpos mb) eb
  | _ => False
  end.
Proof.
  intros He Hb Hle.
  pose proof (fexp_le_bound m e mb eb Hb Hle) as Hfe.
  assert (Heb : eb <= emax - prec).
  { unfold bounded in Hb. apply andb_prop in Hb as [_ H]. now apply Z.leb_le. }
  assert (Hemin : emin prec emax <= eb).
  { unfold bounded, canonical_mantissa in Hb.
    apply andb_prop in Hb as [H _]. apply Z.eqb_eq in H.
    rewrite <- H. unfold fexp. lia. }
  unfold binary_round_aux.
  destruct (shr_fexp_exact (Zpos m) e) as (p & r1 & E1 & Hp & [M1 X1]);
    [lia|].
  rewrite E1. cbn [shr_m] in M1. cbn [Zdigits2] in Hp.
  set (d := Zpos (digits2_pos m)) in *.
  assert (Hp0 : 0 <= p) by lia.
  pose proof (pow2_gt0 p Hp0) as Pp.
  (* the first shift *)
  set (m1 := shr_m r1) in *.
  assert (F1 : m1 * 2 ^ p <= Zpos m).
  { rewrite M1. pose proof (Z.mul_div_le (Zpos m) (2 ^ p) Pp). lia. }
  assert (N1 : 0 <= m1).
  { rewrite M1. apply Z.div_pos; lia. }
  assert (Hep : e + p <= eb \/ p = 0).
  { destruct (Z.eq_dec p 0); [now right | left]. lia. }
  (* rounding *)
  set (m2 := round_nearest_even m1 (loc_of_shr_record r1)).
  assert (V2 : m2 = 0 \/ (0 < m2 /\ dle m2 (e + p) (Zpos mb) eb)).
  { destruct (round_nearest_even_cases r1) as [R | [R I]]; fold m1 m2 in R.
    - destruct (Z.eq_dec m2 0) as [Z0 | NZ]; [now left | right].
      split; [lia|].
      set (k := Z.min e eb).
      apply (dle_base k) in Hle; [|unfold k; lia|unfold k; lia].
      apply (dle_base k); [unfold k; lia | unfold k; lia|].
      replace (e + p - k) with (p + (e - k)) by lia.
      rewrite pow2_split by (unfold k; lia).
      assert (P1 : 0 < 2 ^ (e - k)) by (apply pow2_gt0; unfold k; lia).
      rewrite R, Z.mul_assoc.
      apply Z.le_trans with (Zpos m * 2 ^ (e - k)); [|exact Hle].
      apply Z.mul_le_mono_nonneg_r; lia.
    - right. split; [lia|].
      destruct Hep as [Hep | Hp1].
      + assert (Hm : Zpos m mod 2 ^ p <> 0).
        { intros Hm. rewrite X1 in I; [discriminate | reflexivity | exact Hm]. }
        assert (F1' : m1 * 2 ^ p < Zpos m).
        { pose proof (Z.div_mod (Zpos m) (2 ^ p) ltac:(lia)) as Hdm.
          pose proof (Z.mod_pos_bound (Zpos m) (2 ^ p) Pp).
          rewrite <- M1 in Hdm. lia. }
        apply (dle_base e) in Hle; [|lia|lia].
        apply (dle_base e); [lia | lia|].
        rewrite Z.sub_diag, Z.mul_1_r in Hle.
        replace (e + p - e) with p by lia.
        replace (eb - e) with ((eb - (e + p)) + p) in * by lia.
        rewrite pow2_split in * by lia.
        assert (P3 : 0 < 2 ^ (eb - (e + p))) by (apply pow2_gt0; lia).
        assert (Hlt : m1 < Zpos mb * 2 ^ (eb - (e + p))).
        { apply Z.mul_lt_mono_pos_r with (2 ^ p); [lia|].
          rewrite <- Z.mul_assoc. lia. }
        rewrite R, Z.mul_assoc. apply Z.mul_le_mono_nonneg_r; lia.
      + exfalso. rewrite X1 in I; [discriminate | reflexivity |].
        cbn [shr_m]. rewrite Hp1, Z.pow_0_r. apply Z.mod_1_r. }
  (* the second shift *)
  destruct V2 as [Z2 | [P2 V2]].
  { rewrite Z2. unfold shr_fexp, shr. cbn [Zdigits2 shr_record_of_loc].
    rewrite Z.add_0_l.
    assert (Hn : fexp prec emax (e + p) - (e + p) <= 0).
    { unfold fexp. destruct Hep as [Hep | ->]; [|unfold fexp in Hp; lia].
      unfold fexp in Hp. lia. }
    destruct (fexp prec emax (e + p) - (e + p)); try lia; exact I. }
  destruct (shr_fexp_exact m2 (e + p)) as (p2 & r3 & E3 & Hp2 & [M3 _]);
    [lia|].
  rewrite E3. cbn [shr_m] in M3.
  assert (Hp20 : 0 <= p2) by lia.
  pose proof (pow2_gt0 p2 Hp20) as Pp2.
  assert (F3 : shr_m r3 * 2 ^ p2 <= m2).
  { rewrite M3. pose proof (Z.mul_div_le m2 (2 ^ p2) Pp2). lia. }
  assert (N3 : 0 <= shr_m r3).
  { rewrite M3. apply Z.div_pos; lia. }
  destruct (shr_m r3) as [|m3|m3] eqn:E; [exact I | | lia].
  assert (Hle3 : dle (Zpos m3) (e + p + p2) (Zpos mb) eb).
  { set (k := Z.min (e + p) eb).
    apply (dle_base k) in V2; [|unfold k; lia|unfold k; lia].
    apply (dle_base k); [unfold k; lia | unfold k; lia|].
    replace (e + p + p2 - k) with (p2 + (e + p - k)) by lia.
    rewrite pow2_split by (unfold k; lia).
    assert (P1 : 0 < 2 ^ (e + p - k)) by (apply pow2_gt0; unfold k; lia).
    rewrite Z.mul_assoc.
    apply Z.le_trans with (m2 * 2 ^ (e + p - k)); [|exact V2].
    apply Z.mul_le_mono_nonneg_r; lia. }
  assert (Hfin : e + p + p2 <= emax - prec).
  { destruct (Z.eq_dec p2 0) as [-> | Hn2].
    - destruct Hep as [Hep | ->]; lia.
    - assert (Hp2' : p2 = fexp prec emax (Zdigits2 m2 + (e + p)) - (e + p))
        by lia.
      destruct m2 as [|m2'|m2']; try lia.
      pose proof (fexp_le_bound m2' (e + p) mb eb Hb V2) as Hfe2.
      cbn [Zdigits2] in Hp2'. lia. }
  apply Z.leb_le in Hfin. rewrite Hfin. split; [reflexivity | exact Hle3].
Qed.
End RoundBound.

(** ** Amplitude bound of one voice *)

Lemma allFrom_spec f n z0 z :
  allFrom f n z0 = true -> z0 <= z < z0 + Z.of_nat n -> f z = true.
Proof.
  revert z0; induction n as [|n IH]; intros z0 H Hz; [lia|].
  cbn [allFrom] in H. apply andb_prop in H as [H0 H1].
  destruct (Z.eq_dec z z0) as [-> | Hne]; [exact H0|].
  apply (IH (z0 + 1)); [exact H1 | lia].
Qed.

(** The closed computations over every volume and every amplitude. *)
Lemma fifth_table_run : allFrom fifthOk (Z.to_nat 30001) 0 = true.
Proof. vm_compute. reflexivity. Qed.

Lemma amp_table_run : allFrom ampOk (Z.to_nat 6001) 0 = true.
Proof. vm_compute. reflexivity. Qed.

Lemma fifth_table g : 0 <= g <= 30000 -> fifthOk g = true.
Proof.
  intros H. apply (allFrom_spec _ _ 0 g fifth_table_run). lia.
Qed.

Lemma amp_table a : 0 <= a <= 6000 -> ampOk a = true.
Proof.
  intros H. apply (allFrom_spec _ _ 0 a amp_table_run). lia.
Qed.

Lemma wrapS_small w z :
  0 < w -> - 2 ^ (w - 1) <= z < 2 ^ (w - 1) -> wrapS w z = z.
Proof.
  intros Hw Hz. unfold wrapS.
  replace (2 ^ w) with (2 * 2 ^ (w - 1)).
  - rewrite Z.mod_small; lia.
  - replace w with (1 + (w - 1)) at 2 by lia.
    rewrite pow2_split by lia. reflexivity.
Qed.

Lemma i16_small z : -32768 <= z < 32768 -> i16 z = z.
Proof. intros H. apply wrapS_small; [lia | exact H]. Qed.

Lemma i32_small z : -2147483648 <= z < 2147483648 -> i32 z = z.
Proof. intros H. apply wrapS_small; [lia | exact H]. Qed.

(** [Z.shiftl m e] is the integer part of [m * 2^e]. *)
Lemma shiftl_floor m e k :
  0 <= m -> k <= e -> k <= 0 ->
  Z.shiftl m e = (m * 2 ^ (e - k)) / 2 ^ (- k).
Proof.
  intros Hm Hk Hk0.
  assert (Pk : 0 < 2 ^ (- k)) by (apply pow2_gt0; lia).
  destruct (Z.le_gt_cases 0 e) as [He | He].
  - rewrite Z.shiftl_mul_pow2 by exact He.
    replace (e - k) with (e + - k) by lia.
    rewrite pow2_split by lia.
    rewrite Z.mul_assoc, Z.div_mul by lia. reflexivity.
  - replace e with (- - e) at 1 by lia.
    rewrite Z.shiftl_opp_r, Z.shiftr_div_pow2 by lia.
    replace (- k) with ((e - k) + - e) by lia.
    rewrite pow2_split by lia.
    assert (P1 : 0 < 2 ^ (e - k)) by (apply pow2_gt0; lia).
    rewrite (Z.mul_comm (2 ^ (e - k)) (2 ^ (- e))).
    rewrite Z.div_mul_cancel_r by lia. reflexivity.
Qed.

Lemma shiftl_dle m e m' e' :
  0 <= m -> 0 <= m' -> dle m e m' e' -> Z.shiftl m e <= Z.shiftl m' e'.
Proof.
  intros Hm Hm' H. set (k := Z.min (Z.min e e') 0).
  apply (dle_base k) in H; [|unfold k; lia|unfold k; lia].
  rewrite (shiftl_floor m e k), (shiftl_floor m' e' k)
    by (try assumption; unfold k; lia).
  apply Z.div_le_mono; [apply pow2_gt0; unfold k; lia | exact H].
Qed.

Lemma shiftl_nonneg m e : 0 <= m -> 0 <= Z.shiftl m e.
Proof. intros H. now apply Z.shiftl_nonneg. Qed.

(** A product with a factor of magnitude at most 1 stays below the other
    factor. *)
Lemma dle_unit_product (ma me : positive) ea ee :
  dle (Zpos me) ee 1 0 ->
  ee <= 0 /\ dle (Zpos (ma * me)) (ea + ee) (Zpos ma) ea.
Proof.
  intros H. unfold dle in H.
  assert (He : ee <= 0).
  { destruct (Z.le_gt_cases ee 0) as [?|Hgt]; [assumption|exfalso].
    rewrite Z.min_r in H by lia. rewrite Z.sub_0_r, Z.sub_diag in H.
    assert (2 ^ 1 <= 2 ^ ee) by (apply Z.pow_le_mono_r; lia).
    change (2 ^ 1) with 2 in *. change (2 ^ 0) with 1 in H. nia. }
  split; [exact He|].
  rewrite Z.min_l in H by lia. rewrite Z.sub_diag, Z.mul_1_l in H.
  change (2 ^ 0) with 1 in H. rewrite Z.mul_1_r in H.
  apply (dle_base (ea + ee)); [lia | lia|].
  rewrite Z.sub_diag, Z.mul_1_r. replace (ea - (ea + ee)) with (0 - ee) by lia.
  rewrite Pos2Z.inj_mul. apply Z.mul_le_mono_nonneg_l; lia.
Qed.

Section UnitProduct.
Variables prec emax : Z.
Hypothesis prec_pos : 0 < prec.
Hypothesis emax_big : prec <= emax.

(** Multiplying a regular float by a factor of magnitude at most 1 gives
    zero or a finite float of no greater magnitude, with the sign of the
    product. *)
Lemma mul_unit_r sa (ma : positive) ea (y : float) :
  bounded prec emax ma ea = true -> ea <= 0 -> unitRamp y ->
  match SFmul prec emax (S754_finite sa ma ea) y with
  | S754_zero _ => True
  | S754_finite s m e =>
      dle (Zpos m) e (Zpos ma) ea
      /\ (forall sy my ey, y = S754_finite sy my ey -> s = xorb sa sy)
  | _ => False
  end.
Proof.
  intros Hb Ha Hy. destruct y as [sy | sy | | sy my ey]; cbn [unitRamp] in Hy;
    try contradiction; cbn [SFmul]; [exact I|].
  destruct (dle_unit_product ma my ea ey Hy) as [He Hd].
  pose proof (round_aux_le prec emax prec_pos (xorb sa sy) (ma * my)
                (ea + ey) ma ea ltac:(lia) Hb Hd) as H.
  destruct (binary_round_aux _ _ _ _ _ _); try exact H.
  destruct H as [-> H]. split; [exact H|].
  intros sy' my' ey' E. now injection E as -> _ _.
Qed.

Lemma mul_unit_l sa (ma : positive) ea (y : float) :
  bounded prec emax ma ea = true -> ea <= 0 -> unitRamp y ->
  match SFmul prec emax y (S754_finite sa ma ea) with
  | S754_zero _ => True
  | S754_finite s m e => dle (Zpos m) e (Zpos ma) ea
  | _ => False
  end.
Proof.
  intros Hb Ha Hy. destruct y as [sy | sy | | sy my ey]; cbn [unitRamp] in Hy;
    try contradiction; cbn [SFmul]; [exact I|].
  destruct (dle_unit_product ma my ea ey Hy) as [He Hd].
  rewrite Pos.mul_comm, Z.add_comm in Hd.
  pose proof (round_aux_le prec emax prec_pos (xorb sy sa) (my * ma)
                (ey + ea) ma ea ltac:(lia) Hb Hd) as H.
  destruct (binary_round_aux _ _ _ _ _ _); try exact H.
  now destruct H.
Qed.
End UnitProduct.

Lemma unitLevel_ramp x : unitLevel x -> unitRamp x.
Proof. destruct x as [s | s | | [|] m e]; cbn; tauto. Qed.

(** The amplitude of a voice lies between 0 and [gAmp / 5]. *)
Lemma voiceAmp_bound g k :
  0 <= g <= 30000 -> unitLevel (envLvl k) ->
  0 <= voiceAmp g k <= g / 5.
Proof.
  intros Hg Hu. unfold voiceAmp.
  pose proof (fifth_table g Hg) as Ht. unfold fifthOk in Ht.
  assert (Hq : 0 <= g / 5 <= 6000).
  { split; [apply Z.div_pos; lia | apply Z.div_le_upper_bound; lia]. }
  destruct (F32.div (F32.of_Z g) (F32.of_Z (Z.of_nat NUM_CH)))
    as [sa | sa | | [|] ma ea]; try discriminate Ht.
  - assert (E : F32.mul (S754_zero sa) (envLvl k)
                = S754_zero (xorb sa match envLvl k with
                                     | S754_zero s => s
                                     | S754_finite s _ _ => s
                                     | _ => false end)).
    { destruct (envLvl k) as [s | s | | [|] m e]; cbn in Hu;
        try contradiction; reflexivity. }
    rewrite E. cbn [Ftrunc]. rewrite i32_small; lia.
  - apply andb_prop in Ht as [Ht Hf]. apply andb_prop in Ht as [Hb He].
    apply Z.leb_le in He, Hf.
    destruct (envLvl k) as [sy | sy | | [|] my ey]; cbn [unitLevel] in Hu;
      try contradiction.
    + unfold F32.mul. cbn [SFmul Ftrunc]. rewrite i32_small; lia.
    + pose proof (mul_unit_r F32.prec F32.emax
                    ltac:(unfold F32.prec; lia)
                    ltac:(unfold F32.prec, F32.emax; lia)
                    false ma ea (S754_finite false my ey) Hb He Hu) as H.
      unfold F32.mul.
      destruct (SFmul F32.prec F32.emax (S754_finite false ma ea)
                      (S754_finite false my ey))
        as [s | s | | s m e]; try contradiction.
      * cbn [Ftrunc]. rewrite i32_small; lia.
      * destruct H as [Hd Hs].
        rewrite (Hs false my ey eq_refl). cbn [xorb Ftrunc].
        pose proof (shiftl_dle (Zpos m) e (Zpos ma) ea
                      ltac:(lia) ltac:(lia) Hd).
        pose proof (shiftl_nonneg (Zpos m) e ltac:(lia)).
        rewrite i32_small; lia.
Qed.

Lemma waveVal_bound k amp :
  0 <= amp <= 6000 ->
  (waveType k = 1 -> unitRamp (sawRamp k)) ->
  - amp <= waveVal k amp <= amp.
Proof.
  intros Ha Hr. unfold waveVal.
  destruct (waveType k) as [|[[|[]|]|[|[]|]|]|]; try lia.
  - (* square *)
    destruct (F64.ltb _ PI); rewrite i16_small; lia.
  - (* pulse *)
    destruct (F64.ltb _ HALF_PI); rewrite i16_small; lia.
  - (* sawtooth *)
    specialize (Hr eq_refl). fold (sawRamp k).
    pose proof (amp_table amp Ha) as Ht. unfold ampOk in Ht.
    destruct (F64.of_Z amp) as [sa | sa | | [|] ma ea]; try discriminate Ht.
    + assert (E : Ftrunc (F64.mul (sawRamp k) (S754_zero sa)) = 0).
      { destruct (sawRamp k); cbn in Hr; try contradiction; reflexivity. }
      rewrite E, i16_small; lia.
    + apply andb_prop in Ht as [Ht Hf]. apply andb_prop in Ht as [Hb He].
      apply Z.leb_le in He. apply Z.eqb_eq in Hf.
      pose proof (mul_unit_l F64.prec F64.emax
                    ltac:(unfold F64.prec; lia)
                    ltac:(unfold F64.prec, F64.emax; lia)
                    false ma ea (sawRamp k) Hb He Hr) as H.
      unfold F64.mul.
      destruct (SFmul F64.prec F64.emax (sawRamp k) (S754_finite false ma ea))
        as [s | s | | s m e]; try contradiction.
      * cbn [Ftrunc]. rewrite i16_small; lia.
      * cbn [Ftrunc].
        pose proof (shiftl_dle (Zpos m) e (Zpos ma) ea
                      ltac:(lia) ltac:(lia) H).
        pose proof (shiftl_nonneg (Zpos m) e ltac:(lia)).
        destruct s; rewrite i16_small; lia.
Qed.

(** What one voice adds to a frame lies within [gAmp / 5] of zero. *)
Lemma voiceVal_bound g k lf :
  0 <= g <= 30000 -> tame k ->
  - (g / 5) <= voiceVal g k lf <= g / 5.
Proof.
  intros Hg [Hu Hr].
  pose proof (voiceAmp_bound g k Hg Hu) as Ha.
  assert (Hq : 0 <= g / 5 <= 6000).
  { split; [apply Z.div_pos; lia | apply Z.div_le_upper_bound; lia]. }
  unfold voiceVal. unfold takesSaw in Hr.
  destruct (voiceIdle k); [lia|].
  destruct (isNoise k).
  - destruct (Z.testbit _ 0); rewrite i16_small; lia.
  - pose proof (waveVal_bound k (voiceAmp g k) ltac:(lia)) as Hw.
    assert (Hs : waveType k = 1 -> unitRamp (sawRamp k)).
    { intros E. apply Hr. rewrite E. reflexivity. }
    specialize (Hw Hs). lia.
Qed.

(** ** The mixer *)

Lemma mixChannels_bound n c mix st :
  0 <= gAmp st <= 30000 ->
  (c + n <= NUM_CH)%nat ->
  (forall c', (c <= c' < c + n)%nat -> tame (chan c' st)) ->
  - (Z.of_nat c * (gAmp st / 5)) <= mix <= Z.of_nat c * (gAmp st / 5) ->
  let q := gAmp st / 5 in
  - (Z.of_nat (c + n) * q) <= fst (mixChannels n c mix st)
  <= Z.of_nat (c + n) * q.
Proof.
  revert c mix st; induction n as [|n IH]; intros c mix st Hg Hn Ht Hm q;
    cbn [mixChannels].
  - rewrite Nat.add_0_r. exact Hm.
  - pose proof (synthSample_val c st) as Hv.
    pose proof (synthSample_control c st) as (Hga & _).
    pose proof (fun c' => chan_synthSample_other c c' st) as Hoth.
    destruct (synthSample c st) as [v st1]. cbn [fst snd] in *.
    pose proof (voiceVal_bound (gAmp st) (chan c st)
                  (nth (noiseIndex c) (nlfsr st) 0) Hg
                  (Ht c ltac:(lia))) as Hb.
    rewrite <- Hv in Hb.
    assert (Hq : 0 <= gAmp st / 5 <= 6000).
    { split; [apply Z.div_pos; lia | apply Z.div_le_upper_bound; lia]. }
    unfold NUM_CH in Hn.
    assert (Hsum : - (Z.of_nat (S c) * (gAmp st / 5)) <= mix + v
                   <= Z.of_nat (S c) * (gAmp st / 5)) by nia.
    rewrite i32_small by nia.
    replace (c + S n)%nat with (S c + n)%nat by lia.
    unfold q. rewrite Hga. apply IH.
    + now rewrite <- Hga.
    + unfold NUM_CH. lia.
    + intros c' Hc'. rewrite Hoth by lia. apply Ht. lia.
    + now rewrite <- Hga.
Qed.

(** The sum of a frame stays within the volume when every channel is
    within the design range of the mixer. *)
Lemma mixFrame_bound (st : Synth) :
  0 <= gAmp st <= 30000 ->
  (forall c, (c < NUM_CH)%nat -> tame (chan c st)) ->
  let mix := fst (mixFrame st) in
  - gAmp st <= mix <= gAmp st
  /\ -32767 <= mix <= 32767
  /\ clampSample mix = mix.
Proof.
  intros Hg Ht mix.
  pose proof (mixChannels_bound NUM_CH 0 0 st Hg ltac:(lia)
                (fun c' H => Ht c' ltac:(lia)) ltac:(simpl; lia)) as H.
  cbn zeta in H. fold (mixFrame st) in H. fold mix in H.
  change (Z.of_nat (0 + NUM_CH)) with 5 in H.
  pose proof (Z.mul_div_le (gAmp st) 5 ltac:(lia)) as Hd.
  assert (Hq : 0 <= gAmp st / 5) by (apply Z.div_pos; lia).
  assert (Hm : - gAmp st <= mix <= gAmp st) by lia.
  split; [exact Hm | split; [lia|]].
  unfold clampSample, constrain.
  destruct (mix <? -32767) eqn:E1; [apply Z.ltb_lt in E1; lia|].
  destruct (mix >? 32767) eqn:E2; [apply Z.gtb_lt in E2; lia|].
  apply i16_small. lia.
Qed.

(** ** Volume and envelopes stay within the design range *)

Lemma unitLevelb_spec x : unitLevelb x = true -> unitLevel x.
Proof.
  destruct x as [s | s | | [|] m e]; cbn; try discriminate; auto.
  intros H. apply andb_prop in H as [He Hm].
  apply Z.leb_le in He, Hm. unfold dle.
  rewrite Z.min_l by lia. rewrite Z.sub_diag, Z.mul_1_l.
  change (2 ^ 0) with 1. rewrite Z.mul_1_r. now rewrite Z.sub_0_l.
Qed.

Lemma enveloped_unit k : enveloped k -> unitLevel (envLvl k).
Proof.
  intros (t & _ & [-> | H]); [exact I|].
  apply unitLevelb_spec.
  now apply (envDecays_sound _ _ _ _ (envDecays_trigger t) H).
Qed.

Lemma enveloped_voiceNext k : enveloped k -> enveloped (voiceNext k).
Proof.
  intros (t & H). exists t. now apply decaying_voiceNext.
Qed.

Lemma enveloped_silenced k :
  enveloped k ->
  enveloped (mkChannel (phase k) (curFreq k) (waveType k) f_0 (envDcy k)
                       false (isNoise k) (pitchMul k)).
Proof.
  intros (t & Hd & _). exists t. split; [exact Hd | now left].
Qed.

Lemma enveloped_fired t ph fr w a n pm :
  enveloped (mkChannel ph fr w f_1 (triggerDecay t) a n pm).
Proof.
  exists t. split; [reflexivity | right; apply envFrom_here].
Qed.

Lemma enveloped_Channel0 : enveloped Channel0.
Proof. exists (TrNote 0 f_0 0). split; [reflexivity | now left]. Qed.

Lemma inDesign_frame a b :
  ch a = ch b -> gAmp a = gAmp b -> inDesign a -> inDesign b.
Proof. unfold inDesign, chan. intros -> ->. auto. Qed.

Lemma inDesign_put c k st :
  enveloped k -> inDesign st -> inDesign (put_chan c k st).
Proof.
  intros Hk (Hg & Hl & He). unfold inDesign.
  rewrite length_ch_put. split; [exact Hg | split; [exact Hl|]].
  intros c' Hc'. unfold chan, put_chan; cbn [ch set_ch].
  destruct (nth_upd_cases c c' k Channel0 (ch st)) as [-> | ->];
    [exact Hk | now apply He].
Qed.

Lemma inDesign_trigNote c f w st :
  inDesign st -> inDesign (trigNote c f w st).
Proof.
  unfold trigNote. apply inDesign_put.
  apply (enveloped_fired (TrNote c f w)).
Qed.

Lemma inDesign_releaseNote c st :
  (c < NUM_CH)%nat -> inDesign st -> inDesign (releaseNote c st).
Proof.
  intros Hc H. unfold releaseNote. apply inDesign_put; [|exact H].
  apply enveloped_silenced. now apply H.
Qed.

Lemma inDesign_trigKick st : inDesign st -> inDesign (trigKick st).
Proof. unfold trigKick. apply inDesign_put. apply (enveloped_fired TrKick). Qed.

Lemma inDesign_trigSnare st : inDesign st -> inDesign (trigSnare st).
Proof.
  intros H. unfold trigSnare.
  eapply inDesign_frame; [| |apply inDesign_put; [|exact H]]; try reflexivity.
  apply (enveloped_fired TrSnare).
Qed.

Lemma inDesign_trigHat st : inDesign st -> inDesign (trigHat st).
Proof.
  intros H. unfold trigHat.
  eapply inDesign_frame; [| |apply inDesign_put; [|exact H]]; try reflexivity.
  apply (enveloped_fired TrHat).
Qed.

Lemma inDesign_trigSequencerStep s st :
  inDesign st -> inDesign (trigSequencerStep s st).
Proof.
  intros H. unfold trigSequencerStep, trigMelodyTrack. cbv zeta.
  cbn [Nat.eqb].
  assert (H1 : inDesign
                 (if F32.ltb f_0 (freq (mel 0 s st))
                  then trigNote CH_LEAD (freq (mel 0 s st))
                                (wave (mel 0 s st)) st
                  else releaseNote CH_LEAD st)).
  { destruct (F32.ltb _ _);
      [now apply inDesign_trigNote
      | apply inDesign_releaseNote; [unfold CH_LEAD, NUM_CH; lia | exact H]]. }
  revert H1. generalize (if F32.ltb f_0 (freq (mel 0 s st))
                         then trigNote CH_LEAD (freq (mel 0 s st))
                                       (wave (mel 0 s st)) st
                         else releaseNote CH_LEAD st).
  intros st1 H1.
  assert (H2 : inDesign
                 (if F32.ltb f_0 (freq (mel 1 s st1))
                  then trigNote CH_BASS (freq (mel 1 s st1))
                                (wave (mel 1 s st1)) st1
                  else releaseNote CH_BASS st1)).
  { destruct (F32.ltb _ _);
      [now apply inDesign_trigNote
      | apply inDesign_releaseNote; [unfold CH_BASS, NUM_CH; lia | exact H1]]. }
  revert H2. generalize (if F32.ltb f_0 (freq (mel 1 s st1))
                         then trigNote CH_BASS (freq (mel 1 s st1))
                                       (wave (mel 1 s st1)) st1
                         else releaseNote CH_BASS st1).
  intros st2 H2.
  repeat match goal with
         | |- inDesign (if ?b then _ else _) => destruct b
         | |- inDesign (trigHat _) => apply inDesign_trigHat
         | |- inDesign (trigSnare _) => apply inDesign_trigSnare
         | |- inDesign (trigKick _) => apply inDesign_trigKick
         end; exact H2.
Qed.

Lemma inDesign_synthSample c st :
  inDesign st -> inDesign (snd (synthSample c st)).
Proof.
  intros H. pose proof H as (Hg & Hl & He).
  destruct (synthSample_control c st) as (Hga & _).
  apply (inDesign_frame (put_chan c (voiceNext (chan c st)) st));
    [now rewrite synthSample_ch | exact Hga|].
  destruct (Nat.lt_ge_cases c NUM_CH) as [Hc | Hc].
  - apply inDesign_put; [|exact H]. apply enveloped_voiceNext. now apply He.
  - apply (inDesign_frame st); [| reflexivity | exact H].
    unfold put_chan; cbn [ch set_ch].
    symmetry. apply upd_overflow. now rewrite Hl.
Qed.

Lemma inDesign_resetChannels st :
  inDesign st -> inDesign (resetChannels NUM_CH 0 st).
Proof.
  intros H. unfold resetChannels, NUM_CH.
  repeat (apply inDesign_put; [apply enveloped_Channel0|]). exact H.
Qed.

Lemma constrain_range x lo hi : lo <= hi -> lo <= constrain x lo hi <= hi.
Proof.
  intros H. unfold constrain.
  destruct (x <? lo) eqn:E1; [lia|]. apply Z.ltb_ge in E1.
  destruct (x >? hi) eqn:E2; [lia|].
  rewrite Z.gtb_ltb in E2. apply Z.ltb_ge in E2. lia.
Qed.

Lemma inDesign_gAmp v st :
  0 <= v <= 30000 -> inDesign st -> inDesign (set_gAmp v st).
Proof. intros Hv (_ & Hl & He). split; [exact Hv | split; assumption]. Qed.

Lemma inDesign_onWsEvent msg now st :
  inDesign st -> inDesign (onWsEvent msg now st).
Proof.
  intros H. unfold onWsEvent.
  destruct (startsWith msg "PLAY:"); [now apply inDesign_trigNote|].
  destruct (String.eqb msg "STOP").
  { apply inDesign_releaseNote; [unfold CH_LEAD, NUM_CH; lia | exact H]. }
  destruct (startsWith msg "WAVE:"); [exact H|].
  destruct (startsWith msg "VOL:").
  { apply inDesign_gAmp; [apply constrain_range; lia | exact H]. }
  destruct (startsWith msg "SEQ_SET:").
  { cbv zeta. destruct (_ || _); exact H. }
  destruct (startsWith msg "SEQ_DRUM:").
  { cbv zeta. destruct (_ || _); exact H. }
  destruct (startsWith msg "SEQ_BPM:"); [exact H|].
  destruct (String.eqb msg "SEQ_PLAY"); [exact H|].
  destruct (String.eqb msg "SEQ_STOP").
  { do 2 (apply inDesign_releaseNote;
          [unfold CH_LEAD, CH_BASS, NUM_CH; lia|]). exact H. }
  destruct (String.eqb msg "SEQ_CLEAR").
  { do 2 (apply inDesign_releaseNote;
          [unfold CH_LEAD, CH_BASS, NUM_CH; lia|]). exact H. }
  exact H.
Qed.

Lemma inDesign_handle ev st : inDesign st -> inDesign (handle ev st).
Proof.
  intros H. pose proof H as (Hg & _).
  destruct ev as [msg now | now | | | fname loopsStr sd]; cbn [handle].
  - now apply inDesign_onWsEvent.
  - apply (preserved_loop inDesign inDesign_synthSample
             inDesign_trigSequencerStep inDesign_frame); exact H.
  - unfold volumeUp. apply inDesign_gAmp; [|exact H].
    rewrite i32_small by lia. lia.
  - unfold volumeDown. apply inDesign_gAmp; [|exact H].
    rewrite i32_small by lia. lia.
  - apply (preserved_menuExport inDesign inDesign_synthSample
             inDesign_trigSequencerStep inDesign_resetChannels); exact H.
Qed.

Lemma inDesign_Synth0 : inDesign Synth0.
Proof.
  split; [cbn; lia | split; [reflexivity|]].
  intros c Hc. unfold NUM_CH in Hc.
  do 5 (destruct c as [|c]; [apply enveloped_Channel0|]). lia.
Qed.

Lemma live_inDesign st : live st -> inDesign st.
Proof.
  induction 1 as [| ev st _ IH | now st _ IH | c st _ IH | st _ IH
                  | st _ IH | s st _ IH].
  - apply inDesign_Synth0.
  - now apply inDesign_handle.
  - apply (preserved_loopSequencer inDesign inDesign_trigSequencerStep
             inDesign_frame); exact IH.
  - now apply inDesign_synthSample.
  - apply (preserved_mixFrame inDesign inDesign_synthSample); exact IH.
  - now apply inDesign_resetChannels.
  - now apply inDesign_trigSequencerStep.
Qed.

Lemma reachable_live st : reachable st -> live st.
Proof.
  intros [evs ->]. unfold run. generalize live_start. generalize Synth0.
  induction evs as [|ev evs IH]; intros st H; cbn [fold_left]; [exact H|].
  apply IH. now apply live_handle.
Qed.

(** Where the mixer keeps within the volume: in every state the engine
    passes through (between commands, sequencer steps, voices and frames,
    live or during an export) in which the ramp factor of every sounding
    sawtooth voice is within [-1,1], the sum of the five voices of the
    next frame lies within [-gAmp, gAmp], hence within [-32767, 32767],
    and the clamp returns it unchanged.  Volume and envelope levels are
    within their ranges in every such state; the ramp factor is the one
    quantity the engine does not keep in range by itself. *)
Theorem mix_within_volume (st : Synth) :
  live st ->
  (forall c, (c < NUM_CH)%nat ->
             takesSaw (chan c st) = true -> unitRamp (sawRamp (chan c st))) ->
  let mix := fst (mixFrame st) in
  0 <= gAmp st <= 30000
  /\ - gAmp st <= mix <= gAmp st
  /\ -32767 <= mix <= 32767
  /\ clampSample mix = mix.
Proof.
  intros Hl Hs mix. destruct (live_inDesign st Hl) as (Hg & _ & He).
  split; [exact Hg|].
  apply mixFrame_bound; [exact Hg|].
  intros c Hc. split; [apply enveloped_unit; now apply He | now apply Hs].
Qed.

(** A sawtooth note played live at full volume, at the start of its
    cycle. *)
Lemma mix_within_volume_witness :
  let st := run [EvWs "VOL:30000" 0; EvWs "WAVE:1" 0; EvWs "PLAY:440" 0]
                Synth0 in
  let mix := fst (mixFrame st) in
  0 <= gAmp st <= 30000
  /\ - gAmp st <= mix <= gAmp st
  /\ -32767 <= mix <= 32767
  /\ clampSample mix = mix.
Proof.
  intros st.
  apply (mix_within_volume st).
  - apply reachable_live. now eexists.
  - intros c Hc. unfold NUM_CH in Hc.
    do 5 (destruct c as [|c];
          [vm_compute; try (intros H; discriminate H);
           intros _ H; discriminate H|]).
    lia.
Defined.

(** C3 fails on the code, against the comment of [synthSample] that
    summing all five channels cannot clip: after the commands below
    (volume 30000, both melodic tracks holding a 132300 Hz sawtooth at
    step 0, sequencer started at time 0) the service-loop iteration at
    125 ms triggers step 0 and renders a first frame; the engine is then
    in a state whose next frame sums to 35988, which the clamp cuts to
    32767, and the buffer handed to the audio output holds that frame.
    The amplitude of the Lead voice is 5998, within its share of a fifth
    of the volume, but its sample is 17994: one phase increment is three
    cycles, the single subtraction of [phaseStep] takes off only one, and
    the phase is left beyond the cycle. *)
Lemma mix_exceeds_full_scale :
  let st := run [EvWs "VOL:30000" 0;
                 EvWs "SEQ_SET:0,0,132300,1" 0;
                 EvWs "SEQ_SET:1,0,132300,1" 0;
                 EvWs "SEQ_PLAY" 0] Synth0 in
  let st1 := snd (mixFrame (fst (loopSequencer 125 st))) in
  live st1
  /\ 0 <= gAmp st1 <= 30000
  /\ fst (mixFrame st1) = 35988
  /\ clampSample (fst (mixFrame st1)) = 32767
  /\ nth 1 (fst (renderFrames BUF_SZ (fst (loopSequencer 125 st)))) 0 = 35988
  /\ voiceAmp (gAmp st1) (chan CH_LEAD st1) = 5998
  /\ fst (synthSample CH_LEAD st1) = 17994
  /\ Fgeb (F64.of_float (phase (chan CH_LEAD st1))) TWO_PI = true.
Proof.
  split.
  - apply live_frame, live_sequencer, reachable_live. now eexists.
  - vm_compute. repeat split; discriminate.
Qed.

(** ** The noise generator *)

Lemma lfsr_table_run : allFrom lfsrStepOk (Z.to_nat 65536) 0 = true.
Proof. vm_compute. reflexivity. Qed.

Lemma lfsr_table s :
  0 <= s < 2 ^ 16 ->
  0 <= lfsrNext s < 2 ^ 16 /\ lfsrPrev (lfsrNext s) = s
  /\ (s <> 0 -> lfsrNext s <> 0).
Proof.
  intros Hs.
  pose proof (allFrom_spec lfsrStepOk _ 0 s lfsr_table_run) as H.
  rewrite Z2Nat.id in H by lia. specialize (H ltac:(lia)).
  unfold lfsrStepOk in H. cbv zeta in H.
  apply andb_prop in H as [H H4]. apply andb_prop in H as [H H3].
  apply andb_prop in H as [H1 H2].
  apply Z.leb_le in H1. apply Z.ltb_lt in H2. apply Z.eqb_eq in H3.
  split; [lia | split; [exact H3|]].
  intros Hne. apply orb_prop in H4 as [H4 | H4].
  - apply Z.eqb_eq in H4. contradiction.
  - apply negb_true_iff, Z.eqb_neq in H4. exact H4.
Qed.

Lemma lfsrRun_S n s : lfsrRun (S n) s = lfsrRun n (lfsrNext s).
Proof. reflexivity. Qed.

Lemma lfsrRun_snoc n s : lfsrRun (S n) s = lfsrNext (lfsrRun n s).
Proof.
  unfold lfsrRun. replace (S n) with (n + 1)%nat by lia.
  now rewrite iterate_add.
Qed.

Lemma lfsrRun_add n m s : lfsrRun (n + m) s = lfsrRun m (lfsrRun n s).
Proof. apply iterate_add. Qed.

Lemma lfsrRun_range n s :
  0 <= s < 2 ^ 16 -> 0 <= lfsrRun n s < 2 ^ 16.
Proof.
  revert s; induction n as [|n IH]; intros s Hs; [exact Hs|].
  rewrite lfsrRun_S. apply IH. now apply lfsr_table.
Qed.

Lemma lfsrRun_nonzero n s :
  0 <= s < 2 ^ 16 -> s <> 0 -> lfsrRun n s <> 0.
Proof.
  revert s; induction n as [|n IH]; intros s Hs Hne; [exact Hne|].
  rewrite lfsrRun_S. apply IH; now apply lfsr_table.
Qed.

Lemma lfsrNext_inj a b :
  0 <= a < 2 ^ 16 -> 0 <= b < 2 ^ 16 -> lfsrNext a = lfsrNext b -> a = b.
Proof.
  intros Ha Hb H.
  destruct (lfsr_table a Ha) as (_ & <- & _).
  destruct (lfsr_table b Hb) as (_ & <- & _). now rewrite H.
Qed.

Lemma lfsrRun_inj n a b :
  0 <= a < 2 ^ 16 -> 0 <= b < 2 ^ 16 -> lfsrRun n a = lfsrRun n b -> a = b.
Proof.
  revert a b; induction n as [|n IH]; intros a b Ha Hb H; [exact H|].
  rewrite !lfsrRun_S in H.
  apply lfsrNext_inj; try assumption.
  apply IH; try assumption; now apply lfsr_table.
Qed.

Lemma firstReturn_sound fuel s x n p :
  0 <= n -> x = lfsrRun (Z.to_nat n) s ->
  firstReturn fuel s x n = Some p ->
  n < p /\ lfsrRun (Z.to_nat p) s = s
  /\ forall k, (Z.to_nat n < k < Z.to_nat p)%nat -> lfsrRun k s <> s.
Proof.
  revert x n; induction fuel as [|fuel IH]; intros x n Hn Hx H;
    [discriminate|].
  cbn [firstReturn] in H.
  assert (Hs : lfsrRun (Z.to_nat (n + 1)) s = lfsrNext x).
  { rewrite Z2Nat.inj_add by lia. change (Z.to_nat 1) with 1%nat.
    rewrite Nat.add_1_r, lfsrRun_snoc. now rewrite <- Hx. }
  destruct (lfsrNext x =? s) eqn:E.
  - injection H as <-. apply Z.eqb_eq in E.
    split; [lia | split; [now rewrite Hs | intros k Hk; lia]].
  - apply Z.eqb_neq in E.
    destruct (IH (lfsrNext x) (n + 1)) as (Hlt & Hp & Hmin);
      [lia | now rewrite Hs | exact H|].
    split; [lia | split; [exact Hp|]].
    intros k Hk. destruct (Nat.eq_dec k (Z.to_nat (n + 1))) as [-> | Hne].
    + now rewrite Hs.
    + apply Hmin. lia.
Qed.

Lemma seed_period :
  firstReturn (Z.to_nat 70000) 0xACE1 0xACE1 0 = Some 65535.
Proof. vm_compute. reflexivity. Qed.

Lemma seed_cycle :
  lfsrRun LFSR_PERIOD 0xACE1 = 0xACE1
  /\ forall k, (0 < k < LFSR_PERIOD)%nat -> lfsrRun k 0xACE1 <> 0xACE1.
Proof.
  destruct (firstReturn_sound _ _ _ 0 _ ltac:(lia) eq_refl seed_period)
    as (_ & H1 & H2).
  split; [exact H1 | exact H2].
Qed.

(** The states the register passes through from the seed are pairwise
    different within one period. *)
Lemma seed_orbit_distinct i j :
  (i < j < LFSR_PERIOD)%nat -> lfsrRun i 0xACE1 <> lfsrRun j 0xACE1.
Proof.
  intros Hij H.
  replace j with (j - i + i)%nat in H by lia.
  rewrite lfsrRun_add in H.
  replace i with (0 + i)%nat in H at 1 by lia.
  rewrite lfsrRun_add in H.
  apply lfsrRun_inj in H;
    [|cbn; lia | apply lfsrRun_range; lia].
  cbn [lfsrRun iterate] in H. fold (lfsrRun (j - i) 0xACE1) in H.
  symmetry in H. revert H. apply seed_cycle. lia.
Qed.

Lemma NoDup_map_seq {A} (f : nat -> A) n :
  (forall i j, (i < j < n)%nat -> f i <> f j) -> NoDup (map f (seq 0 n)).
Proof.
  intros H. induction n as [|n IH]; [constructor|].
  rewrite seq_S, map_app. cbn [map Nat.add].
  apply NoDup_app.
  - apply IH. intros i j Hij. apply H. lia.
  - repeat constructor. intros [].
  - intros a Ha [<- | []]. apply in_map_iff in Ha as (i & Hi & Hin).
    apply in_seq in Hin. revert Hi. apply H. lia.
Qed.

(** Every nonzero 16-bit state lies on the cycle of the seed. *)
Lemma seed_orbit_covers s :
  0 < s < 2 ^ 16 -> exists k, (k < LFSR_PERIOD)%nat /\ lfsrRun k 0xACE1 = s.
Proof.
  intros Hs.
  set (orbit := map (fun k => lfsrRun k 0xACE1) (seq 0 LFSR_PERIOD)).
  set (states := map (fun k => Z.of_nat k) (seq 1 LFSR_PERIOD)).
  assert (Hin : In s orbit).
  { apply (NoDup_length_incl (l := orbit) (l' := states)).
    - apply NoDup_map_seq, seed_orbit_distinct.
    - unfold orbit, states. now rewrite !length_map, !length_seq.
    - intros x Hx. apply in_map_iff in Hx as (k & <- & Hk).
      apply in_map_iff.
      pose proof (lfsrRun_range k 0xACE1 ltac:(lia)) as Hr.
      pose proof (lfsrRun_nonzero k 0xACE1 ltac:(lia) ltac:(lia)) as Hn.
      exists (Z.to_nat (lfsrRun k 0xACE1)). split; [lia|].
      apply in_seq. unfold LFSR_PERIOD. lia.
    - apply in_map_iff. exists (Z.to_nat s). split; [lia|].
      apply in_seq. unfold LFSR_PERIOD. lia. }
  apply in_map_iff in Hin as (k & Hk & Hin). apply in_seq in Hin.
  exists k. split; [lia | exact Hk].
Qed.

(** X1: the noise register is a maximal-length 16-bit register: from every
    nonzero 16-bit state it is back at that state after exactly 65535
    steps and not before, and on the way it passes through every other
    nonzero 16-bit state; it never reaches 0 and never leaves 16 bits. *)
Theorem lfsr_maximal_length (s : Z) :
  0 < s < 2 ^ 16 ->
  lfsrRun LFSR_PERIOD s = s
  /\ (forall n, (0 < n < LFSR_PERIOD)%nat -> lfsrRun n s <> s)
  /\ (forall t, 0 < t < 2 ^ 16 ->
                exists n, (n < LFSR_PERIOD)%nat /\ lfsrRun n s = t)
  /\ (forall n, 0 < lfsrRun n s < 2 ^ 16).
Proof.
  intros Hs.
  destruct (seed_orbit_covers s Hs) as (k & Hk & <-).
  assert (Hback : lfsrRun LFSR_PERIOD (lfsrRun k 0xACE1) = lfsrRun k 0xACE1).
  { rewrite <- lfsrRun_add, Nat.add_comm, lfsrRun_add.
    now rewrite (proj1 seed_cycle). }
  split; [exact Hback | split; [|split]].
  - intros n Hn H. rewrite <- lfsrRun_add, Nat.add_comm, lfsrRun_add in H.
    apply lfsrRun_inj in H; [|apply lfsrRun_range; lia | cbn; lia].
    revert H. apply seed_cycle. exact Hn.
  - intros t Ht. destruct (seed_orbit_covers t Ht) as (j & Hj & <-).
    destruct (Nat.le_gt_cases k j) as [Hle | Hgt].
    + exists (j - k)%nat. split; [lia|].
      rewrite <- lfsrRun_add. f_equal. lia.
    + exists (LFSR_PERIOD - k + j)%nat. split; [lia|].
      rewrite <- lfsrRun_add.
      replace (k + (LFSR_PERIOD - k + j))%nat with (LFSR_PERIOD + j)%nat
        by lia.
      rewrite lfsrRun_add. now rewrite (proj1 seed_cycle).
  - intros n.
    pose proof (lfsrRun_range n _ (lfsrRun_range k 0xACE1 ltac:(lia))) as Hr.
    pose proof (lfsrRun_nonzero n _ (lfsrRun_range k 0xACE1 ltac:(lia))
                  (lfsrRun_nonzero k 0xACE1 ltac:(lia) ltac:(lia))) as Hn.
    lia.
Qed.

Lemma lfsr_maximal_length_witness :
  lfsrRun LFSR_PERIOD 0x9182 = 0x9182
  /\ (forall n, (0 < n < LFSR_PERIOD)%nat -> lfsrRun n 0x9182 <> 0x9182)
  /\ (forall t, 0 < t < 2 ^ 16 ->
                exists n, (n < LFSR_PERIOD)%nat /\ lfsrRun n 0x9182 = t)
  /\ (forall n, 0 < lfsrRun n 0x9182 < 2 ^ 16).
Proof. apply (lfsr_maximal_length 0x9182). lia. Defined.

(** ** The state stays well formed *)

Lemma Forall_upd_within {A} (P : A -> Prop) i x (l : list A) :
  ((i < List.length l)%nat -> P x) -> Forall P l -> Forall P (upd i x l).
Proof.
  intros Hx H. revert i Hx; induction H as [|a l Ha Hl IH]; intros i Hx;
    [destruct i; constructor|].
  destruct i as [|i]; cbn [upd]; constructor; auto.
  - apply Hx. cbn [List.length]. lia.
  - apply IH. intros Hi. apply Hx. cbn [List.length]. lia.
Qed.

Lemma Forall_upd {A} (P : A -> Prop) i x (l : list A) :
  P x -> Forall P l -> Forall P (upd i x l).
Proof. intros Hx. now apply Forall_upd_within. Qed.

Lemma Forall_nth_default {A} (P : A -> Prop) i d (l : list A) :
  P d -> Forall P l -> P (nth i l d).
Proof.
  intros Hd H. revert i; induction H as [|a l Ha Hl IH]; intros [|i];
    cbn [nth]; auto.
Qed.

Lemma wellFormed_put c k st :
  waveOk (waveType k) -> ((c < CH_SNARE)%nat -> isNoise k = false) ->
  wellFormed st -> wellFormed (put_chan c k st).
Proof.
  intros Hw Hn [].
  constructor; try assumption.
  - now rewrite length_ch_put.
  - intros c' Hc'. destruct (Nat.eq_dec c c') as [<- | Hne].
    + rewrite chan_put_same; [exact Hw | congruence].
    + rewrite chan_put_other by exact Hne. auto.
  - intros c' Hc'. destruct (Nat.eq_dec c c') as [<- | Hne].
    + rewrite chan_put_same; [auto | unfold CH_SNARE, NUM_CH in *; lia].
    + rewrite chan_put_other by exact Hne. auto.
Qed.

Lemma wellFormed_register i r st :
  0 < r < 2 ^ 16 ->
  wellFormed st -> wellFormed (set_nlfsr (upd i r (nlfsr st)) st).
Proof.
  intros Hr []. constructor; try assumption; cbn [nlfsr set_nlfsr].
  - now rewrite length_upd.
  - now apply Forall_upd.
Qed.

Lemma wellFormed_trigNote c f w st :
  waveOk w -> wellFormed st -> wellFormed (trigNote c f w st).
Proof. intros Hw. unfold trigNote. now apply wellFormed_put. Qed.

Lemma wellFormed_releaseNote c st :
  (c < NUM_CH)%nat -> wellFormed st -> wellFormed (releaseNote c st).
Proof.
  intros Hc H. unfold releaseNote.
  apply wellFormed_put; cbn [waveType isNoise]; [now apply H | | exact H].
  now apply H.
Qed.

Lemma wellFormed_trigKick st : wellFormed st -> wellFormed (trigKick st).
Proof.
  unfold trigKick. apply wellFormed_put; cbn; [unfold waveOk; lia | auto].
Qed.

Lemma wellFormed_trigSnare st : wellFormed st -> wellFormed (trigSnare st).
Proof.
  intros H. unfold trigSnare.
  apply (wellFormed_register 0 0xACE1 (put_chan CH_SNARE _ st)); [lia|].
  apply wellFormed_put; cbn [waveType isNoise];
    [apply H; unfold CH_SNARE, NUM_CH; lia | unfold CH_SNARE; lia | exact H].
Qed.

Lemma wellFormed_trigHat st : wellFormed st -> wellFormed (trigHat st).
Proof.
  intros H. unfold trigHat.
  apply (wellFormed_register 1 0x9182 (put_chan CH_HAT _ st)); [lia|].
  apply wellFormed_put; cbn [waveType isNoise];
    [apply H; unfold CH_HAT, NUM_CH; lia | unfold CH_HAT, CH_SNARE; lia
    | exact H].
Qed.

Lemma wellFormed_mel_wave t s st :
  wellFormed st -> waveOk (wave (mel t s st)).
Proof.
  intros H. unfold mel.
  apply (Forall_nth_default (fun m => waveOk (wave m)));
    [cbn; unfold waveOk; lia|].
  apply (Forall_nth_default (Forall (fun m => waveOk (wave m))));
    [constructor | apply H].
Qed.

Lemma wellFormed_trigMelodyTrack t s st :
  wellFormed st -> wellFormed (trigMelodyTrack t s st).
Proof.
  intros H. unfold trigMelodyTrack.
  destruct (F32.ltb _ _).
  - apply wellFormed_trigNote; [now apply wellFormed_mel_wave | exact H].
  - apply wellFormed_releaseNote; [|exact H].
    destruct (Nat.eqb t 0); unfold CH_LEAD, CH_BASS, NUM_CH; lia.
Qed.

Lemma wellFormed_trigSequencerStep s st :
  wellFormed st -> wellFormed (trigSequencerStep s st).
Proof.
  intros H. unfold trigSequencerStep.
  pose proof (wellFormed_trigMelodyTrack 0 s st H) as H1.
  pose proof (wellFormed_trigMelodyTrack 1 s _ H1) as H2.
  cbv zeta.
  set (st2 := trigMelodyTrack 1 s (trigMelodyTrack 0 s st)) in *.
  clearbody st2.
  assert (H3 : wellFormed (if drm 0 s st2 then trigKick st2 else st2))
    by (destruct (drm 0 s st2); [now apply wellFormed_trigKick | exact H2]).
  set (st3 := if drm 0 s st2 then trigKick st2 else st2) in *.
  clearbody st3.
  assert (H4 : wellFormed (if drm 1 s st3 then trigSnare st3 else st3))
    by (destruct (drm 1 s st3); [now apply wellFormed_trigSnare | exact H3]).
  set (st4 := if drm 1 s st3 then trigSnare st3 else st3) in *.
  clearbody st4.
  destruct (drm 2 s st4); [now apply wellFormed_trigHat | exact H4].
Qed.

Lemma waveType_voiceNext k : waveType (voiceNext k) = waveType k.
Proof.
  unfold voiceNext. destruct (voiceIdle k); [reflexivity|].
  destruct (isNoise k); [reflexivity|].
  unfold envStep, pitchStep, phaseStep.
  destruct (negb _); reflexivity.
Qed.

Lemma wellFormed_synthSample c st :
  wellFormed st -> wellFormed (snd (synthSample c st)).
Proof.
  intros H.
  destruct (synthSample_control c st)
    as (Hg & Hlw & Hm & Hd & Hp & Hb & Hs & Hl & Hlc & Hln).
  destruct H. constructor; try congruence.
  - rewrite synthSample_nlfsr. destruct (usesNoise _); [|assumption].
    apply Forall_upd; [|assumption].
    assert (Hr : 0 < nth (noiseIndex c) (nlfsr st) 0 < 2 ^ 16).
    { apply (proj1 (Forall_forall _ (nlfsr st)) wf_noise0).
      apply nth_In. unfold noiseIndex. destruct (Nat.eqb _ _); lia. }
    destruct (lfsr_table (nth (noiseIndex c) (nlfsr st) 0) ltac:(lia))
      as (Hr1 & _ & Hr2).
    specialize (Hr2 ltac:(lia)). lia.
  - intros c' Hc'. destruct (Nat.eq_dec c c') as [<- | Hne].
    + rewrite chan_synthSample_same by lia.
      rewrite waveType_voiceNext. auto.
    + rewrite chan_synthSample_other by exact Hne. auto.
  - intros c' Hc'. destruct (Nat.eq_dec c c') as [<- | Hne].
    + rewrite chan_synthSample_same
        by (unfold CH_SNARE, NUM_CH in *; lia).
      rewrite isNoise_voiceNext. auto.
    + rewrite chan_synthSample_other by exact Hne. auto.
Qed.

Lemma wellFormed_resetChannels st :
  wellFormed st -> wellFormed (resetChannels NUM_CH 0 st).
Proof.
  intros H. unfold resetChannels, NUM_CH.
  repeat (apply wellFormed_put; [cbn; unfold waveOk; lia | reflexivity|]).
  exact H.
Qed.

Lemma length_repeat_rows {A} (x : A) n m :
  Forall (fun t => List.length t = n) (repeat (repeat x n) m).
Proof.
  induction m as [|m IH]; cbn [repeat]; constructor;
    [apply repeat_length | exact IH].
Qed.

Lemma wellFormed_set_mel t s m st :
  waveOk (wave m) -> wellFormed st -> wellFormed (set_mel t s m st).
Proof.
  intros Hw []. constructor; try assumption; cbn [melPat set_mel set_melPat].
  - now rewrite length_upd.
  - apply Forall_upd_within; [|assumption]. intros Ht.
    rewrite length_upd.
    apply (proj1 (Forall_forall _ (melPat st)) wf_melSteps0).
    now apply nth_In.
  - apply Forall_upd; [|assumption].
    apply Forall_upd; [exact Hw|].
    apply (Forall_nth_default (Forall (fun m => waveOk (wave m))));
      [constructor | assumption].
Qed.

Lemma wellFormed_set_drm t s v st :
  wellFormed st -> wellFormed (set_drm t s v st).
Proof.
  intros []. constructor; try assumption; cbn [drmPat set_drm set_drmPat].
  - now rewrite length_upd.
  - apply Forall_upd_within; [|assumption]. intros Ht.
    rewrite length_upd.
    apply (proj1 (Forall_forall _ (drmPat st)) wf_drmSteps0).
    now apply nth_In.
Qed.

Lemma u32_range z : 0 <= u32 z < 2 ^ 32.
Proof. unfold u32, wrapU. apply Z.mod_pos_bound. lia. Qed.

Lemma Forall_repeat_rows {A} (P : A -> Prop) x n m :
  P x -> Forall (Forall P) (repeat (repeat x n) m).
Proof.
  intros Hx. apply Forall_forall. intros row Hrow.
  apply repeat_spec in Hrow as ->.
  apply Forall_forall. intros y Hy. now apply repeat_spec in Hy as ->.
Qed.

Lemma wellFormed_onWsEvent msg now st :
  wellFormed st -> wellFormed (onWsEvent msg now st).
Proof.
  intros H. unfold onWsEvent.
  destruct (startsWith msg "PLAY:").
  { apply wellFormed_trigNote; [apply H | exact H]. }
  destruct (String.eqb msg "STOP").
  { apply wellFormed_releaseNote; [unfold CH_LEAD, NUM_CH; lia | exact H]. }
  destruct (startsWith msg "WAVE:").
  { destruct H. constructor; try assumption. cbn [liveWave set_liveWave].
    apply constrain_range. lia. }
  destruct (startsWith msg "VOL:").
  { destruct H. constructor; try assumption. cbn [gAmp set_gAmp].
    apply constrain_range. lia. }
  destruct (startsWith msg "SEQ_SET:").
  { cbv zeta. destruct (_ || _); [exact H|].
    apply wellFormed_set_mel; [|exact H].
    cbn [wave]. apply constrain_range. lia. }
  destruct (startsWith msg "SEQ_DRUM:").
  { cbv zeta. destruct (_ || _); [exact H|]. now apply wellFormed_set_drm. }
  destruct (startsWith msg "SEQ_BPM:").
  { destruct H. constructor; try assumption. cbn [seqBPM set_seqBPM].
    apply constrain_range. lia. }
  destruct (String.eqb msg "SEQ_PLAY").
  { destruct H. constructor; try assumption.
    - cbn. lia.
    - cbn [lastStepMs set_seqPlay set_lastStepMs]. apply u32_range. }
  destruct (String.eqb msg "SEQ_STOP").
  { do 2 (apply wellFormed_releaseNote;
          [unfold CH_LEAD, CH_BASS, NUM_CH; lia|]).
    destruct H. constructor; assumption. }
  destruct (String.eqb msg "SEQ_CLEAR").
  { do 2 (apply wellFormed_releaseNote;
          [unfold CH_LEAD, CH_BASS, NUM_CH; lia|]).
    destruct H. constructor; try assumption;
      cbn [melPat drmPat set_melPat set_drmPat].
    - apply repeat_length.
    - apply length_repeat_rows.
    - apply repeat_length.
    - apply length_repeat_rows.
    - apply Forall_repeat_rows. cbn. unfold waveOk. lia. }
  exact H.
Qed.

Lemma wellFormed_loopSequencer now st :
  wellFormed st -> wellFormed (fst (loopSequencer now st)).
Proof.
  intros H. unfold loopSequencer. destruct (seqPlay st); [|exact H].
  destruct (_ >=? _); [|exact H]. cbn [fst].
  set (st1 := set_lastStepMs _ st).
  assert (H1 : wellFormed st1).
  { destruct H. constructor; try assumption.
    cbn [lastStepMs st1 set_lastStepMs]. apply u32_range. }
  pose proof (wellFormed_trigSequencerStep (Z.to_nat (seqStep st1)) st1 H1)
    as H2.
  set (st2 := trigSequencerStep _ st1) in *. clearbody st2.
  destruct H2. constructor; try assumption.
  cbn [seqStep set_seqStep]. unfold NUM_STEPS in *.
  change (Z.of_nat 16) with 16 in *.
  rewrite Z.rem_mod_nonneg by lia. apply Z.mod_pos_bound. lia.
Qed.

Lemma wellFormed_volumeUp st : wellFormed st -> wellFormed (volumeUp st).
Proof.
  intros []. constructor; try assumption. cbn [gAmp volumeUp set_gAmp].
  rewrite i32_small by lia. lia.
Qed.

Lemma wellFormed_volumeDown st : wellFormed st -> wellFormed (volumeDown st).
Proof.
  intros []. constructor; try assumption. cbn [gAmp volumeDown set_gAmp].
  rewrite i32_small by lia. lia.
Qed.

Lemma wellFormed_handle ev st : wellFormed st -> wellFormed (handle ev st).
Proof.
  intros H.
  destruct ev as [msg now | now | | | fname loopsStr sd]; cbn [handle].
  - now apply wellFormed_onWsEvent.
  - unfold loop.
    pose proof (wellFormed_loopSequencer now st H) as H1.
    destruct (loopSequencer now st) as [st1 note]. cbn [fst] in H1.
    unfold loopAudio.
    pose proof (preserved_renderFrames wellFormed wellFormed_synthSample
                  BUF_SZ st1 H1) as H2.
    destruct (renderFrames BUF_SZ st1) as [mixes st2]. exact H2.
  - now apply wellFormed_volumeUp.
  - now apply wellFormed_volumeDown.
  - apply (preserved_menuExport wellFormed wellFormed_synthSample
             wellFormed_trigSequencerStep wellFormed_resetChannels);
      exact H.
Qed.

Lemma wellFormed_Synth0 : wellFormed Synth0.
Proof.
  constructor; try reflexivity; try (cbn; lia);
    try (cbn; unfold waveOk; lia).
  - repeat constructor.
  - apply length_repeat_rows.
  - apply length_repeat_rows.
  - apply Forall_repeat_rows. cbn. unfold waveOk. lia.
  - intros c Hc. unfold NUM_CH in Hc.
    do 5 (destruct c as [|c]; [cbn; unfold waveOk; lia|]). lia.
  - intros c Hc. unfold CH_SNARE in Hc.
    do 3 (destruct c as [|c]; [reflexivity|]). lia.
Qed.

Lemma live_wellFormed st : live st -> wellFormed st.
Proof.
  induction 1 as [| ev st _ IH | now st _ IH | c st _ IH | st _ IH
                  | st _ IH | s st _ IH].
  - apply wellFormed_Synth0.
  - now apply wellFormed_handle.
  - now apply wellFormed_loopSequencer.
  - now apply wellFormed_synthSample.
  - apply (preserved_mixFrame wellFormed wellFormed_synthSample); exact IH.
  - now apply wellFormed_resetChannels.
  - now apply wellFormed_trigSequencerStep.
Qed.

(** ** How long a voice rings *)

Lemma chan_renderVoice c n st :
  (c < List.length (ch st))%nat ->
  chan c (renderVoice c n st) = iterate n voiceNext (chan c st).
Proof.
  unfold renderVoice. revert st; induction n as [|n IH]; intros st Hc;
    [reflexivity|].
  rewrite !iterate_S. rewrite IH by now rewrite length_ch_synthSample.
  now rewrite chan_synthSample_same.
Qed.

Lemma voiceNext_idle k : voiceIdle k = true -> voiceNext k = set_active false k.
Proof. unfold voiceNext. now intros ->. Qed.

Lemma idle_stays n k :
  active k = false -> voiceIdle (iterate n voiceNext k) = true.
Proof.
  revert k; induction n as [|n IH]; intros k Hk.
  - unfold voiceIdle. cbn [iterate]. now rewrite Hk.
  - rewrite iterate_S. apply IH.
    rewrite voiceNext_idle; [reflexivity | unfold voiceIdle; now rewrite Hk].
Qed.

Lemma voiceNext_sounding k :
  voiceIdle k = false ->
  active (voiceNext k) = true /\ envDcy (voiceNext k) = envDcy k
  /\ envLvl (voiceNext k) = F32.mul (envLvl k) (envDcy k).
Proof.
  intros H. pose proof H as H0. unfold voiceIdle in H0.
  apply orb_false_elim in H0 as [Ha Hl]. apply negb_false_iff in Ha.
  unfold voiceNext. rewrite H.
  destruct (isNoise k); [now rewrite <- Ha|].
  unfold envStep, pitchStep, phaseStep.
  destruct (negb _); now rewrite <- Ha.
Qed.

Lemma soundsFor_sound fuel d x m N k n :
  soundsFor fuel d x m = Some N ->
  active k = true -> envDcy k = d -> envLvl k = x ->
  m <= N
  /\ voiceIdle (iterate n voiceNext k) = (N <=? m + Z.of_nat n).
Proof.
  revert x m k n; induction fuel as [|fuel IH]; intros x m k n H Ha Hd Hx;
    [discriminate|].
  cbn [soundsFor] in H.
  destruct (F32.ltb x f_0_001) eqn:E.
  - injection H as <-. split; [lia|].
    replace (m <=? m + Z.of_nat n) with true by (symmetry; apply Z.leb_le; lia).
    assert (Hi : voiceIdle k = true)
      by (unfold voiceIdle; rewrite Hx, E; apply orb_true_r).
    destruct n as [|n]; [exact Hi|].
    rewrite iterate_S. apply idle_stays. now rewrite voiceNext_idle.
  - assert (Hi : voiceIdle k = false)
      by (unfold voiceIdle; now rewrite Hx, E, Ha).
    destruct (voiceNext_sounding k Hi) as (Ha' & Hd' & Hx').
    destruct n as [|n].
    + destruct (IH _ _ (voiceNext k) 0%nat H Ha')
        as (Hle & _); [congruence.. |].
      split; [lia|]. cbn [iterate]. rewrite Hi. symmetry.
      apply Z.leb_gt. lia.
    + destruct (IH _ _ (voiceNext k) n H Ha')
        as (Hle & Hn); [congruence.. |].
      split; [lia|]. rewrite iterate_S, Hn. f_equal. lia.
Qed.

Lemma fired_voice t st :
  (triggerChan t < List.length (ch st))%nat ->
  active (chan (triggerChan t) (fire t st)) = true
  /\ envDcy (chan (triggerChan t) (fire t st)) = triggerDecay t
  /\ envLvl (chan (triggerChan t) (fire t st)) = f_1.
Proof.
  intros H. destruct t; cbn [fire triggerChan triggerDecay] in *.
  - unfold trigNote. rewrite chan_put_same by exact H. now repeat split.
  - unfold trigKick. rewrite chan_put_same by exact H. now repeat split.
  - unfold trigSnare, chan; cbn [set_nlfsr ch put_chan set_ch].
    rewrite nth_upd_same by exact H. now repeat split.
  - unfold trigHat, chan; cbn [set_nlfsr ch put_chan set_ch].
    rewrite nth_upd_same by exact H. now repeat split.
Qed.

Lemma ring_run t :
  soundsFor envFuel (triggerDecay t) f_1 0 = Some (ringSamples t).
Proof. destruct t; vm_compute; reflexivity. Qed.

(** X2: a triggered voice rings for a fixed number of samples: after a
    trigger, the channel's voice is still sounding when [n] samples have
    been rendered exactly when [n] is below 34540 for a note, 23024 for the
    Kick, 5753 for the Snare and 2300 for the Hat (783, 522, 130 and 52 ms
    at 44100 Hz), whatever the frequency, waveform and volume; from then on
    the channel returns 0. *)
Theorem voice_rings_for (t : Trigger) (st : Synth) (n : nat) :
  List.length (ch st) = NUM_CH -> (triggerChan t < NUM_CH)%nat ->
  let c := triggerChan t in
  let st' := renderVoice c n (fire t st) in
  voiceIdle (chan c st') = (ringSamples t <=? Z.of_nat n)
  /\ (ringSamples t <= Z.of_nat n -> fst (synthSample c st') = 0).
Proof.
  intros Hl Hc c st'.
  assert (Hlen : List.length (ch (fire t st)) = NUM_CH)
    by (rewrite <- Hl; apply (length_ch_applyOp (OpFire t))).
  destruct (fired_voice t st ltac:(rewrite Hl; exact Hc)) as (Ha & Hd & Hx).
  fold c in Ha, Hd, Hx.
  destruct (soundsFor_sound _ _ _ 0 _ (chan c (fire t st)) n (ring_run t)
              Ha Hd Hx) as (_ & Hi).
  assert (Hidle : voiceIdle (chan c st') = (ringSamples t <=? Z.of_nat n)).
  { unfold st'. rewrite chan_renderVoice by (rewrite Hlen; exact Hc).
    exact Hi. }
  split; [exact Hidle|].
  intros Hn. rewrite synthSample_val. unfold voiceVal.
  rewrite Hidle. now replace (ringSamples t <=? Z.of_nat n) with true
    by (symmetry; apply Z.leb_le; lia).
Qed.

(** ** The export writes every frame, in order *)

Lemma produced_flushBuf r : produced (flushBuf r) = produced r.
Proof.
  unfold produced, flushBuf, sampleBytes; cbn [r_file r_wbuf flat_map].
  now rewrite app_nil_r.
Qed.

Lemma exportFrame_produced r :
  bufferOk r ->
  let '(mix, st) := mixFrame (r_synth r) in
  r_synth (exportFrame r) = st
  /\ produced (exportFrame r) = produced r ++ frameBytes mix
  /\ bufferOk (exportFrame r).
Proof.
  intros [He Hl]. unfold exportFrame.
  destruct (mixFrame (r_synth r)) as [mix st].
  set (r1 := mkRender st (r_file r) (r_wbuf r ++ [clampSample mix; clampSample mix])).
  assert (Hp : produced r1 = produced r ++ frameBytes mix).
  { unfold produced, r1, frameBytes; cbn [r_file r_wbuf].
    rewrite flat_map_app. cbn [flat_map]. now rewrite app_nil_r, app_assoc. }
  assert (Hlen : List.length (r_wbuf r1) = (List.length (r_wbuf r) + 2)%nat)
    by (unfold r1; cbn [r_wbuf]; now rewrite length_app).
  destruct (wbufPos r1 >=? WBUF_SZ) eqn:E.
  - split; [reflexivity | split; [now rewrite produced_flushBuf|]].
    split; cbn [flushBuf r_wbuf List.length]; [exists 0%nat; lia|].
    unfold WBUF_SZ. lia.
  - split; [reflexivity | split; [exact Hp|]].
    split.
    + rewrite Hlen. destruct He as [k Hk]. exists (S k). lia.
    + rewrite Z.geb_leb in E. apply Z.leb_gt in E.
      unfold wbufPos, WBUF_SZ in *. rewrite Hlen in *.
      destruct He as [k Hk]. rewrite Hk in *.
      replace (Z.of_nat (2 * k + 2)) with ((Z.of_nat k + 1) * 2) in E by lia.
      rewrite Z.div_mul in E by lia. lia.
Qed.

Lemma exportFrames_produced n r :
  bufferOk r ->
  let '(mixes, st) := renderFrames n (r_synth r) in
  r_synth (exportFrames n r) = st
  /\ produced (exportFrames n r) = produced r ++ flat_map frameBytes mixes
  /\ bufferOk (exportFrames n r).
Proof.
  revert r; induction n as [|n IH]; intros r Hr.
  - cbn [renderFrames exportFrames iterate flat_map].
    now rewrite app_nil_r.
  - rewrite exportFrames_S. cbn [renderFrames].
    pose proof (exportFrame_produced r Hr) as H1.
    destruct (mixFrame (r_synth r)) as [mix st1].
    destruct H1 as (Hs & Hp & Hb).
    specialize (IH (exportFrame r) Hb). rewrite Hs in IH.
    destruct (renderFrames n st1) as [l st2].
    destruct IH as (Hs2 & Hp2 & Hb2).
    split; [exact Hs2 | split; [|exact Hb2]].
    rewrite Hp2, Hp. cbn [flat_map]. now rewrite app_assoc.
Qed.

Lemma exportSteps_produced n step sps r :
  bufferOk r ->
  let '(mixes, st) := stepsFrames n step sps (r_synth r) in
  r_synth (exportSteps n step sps r) = st
  /\ produced (exportSteps n step sps r)
     = produced r ++ flat_map frameBytes mixes
  /\ bufferOk (exportSteps n step sps r).
Proof.
  revert step r; induction n as [|n IH]; intros step r Hr.
  - cbn [stepsFrames exportSteps flat_map]. now rewrite app_nil_r.
  - rewrite exportSteps_S. cbn [stepsFrames].
    set (r1 := mkRender (trigSequencerStep step (r_synth r))
                        (r_file r) (r_wbuf r)).
    pose proof (exportFrames_produced sps r1 Hr) as H1.
    change (r_synth r1) with (trigSequencerStep step (r_synth r)) in H1.
    destruct (renderFrames sps (trigSequencerStep step (r_synth r)))
      as [l1 st1].
    destruct H1 as (Hs & Hp & Hb).
    specialize (IH (S step) (exportFrames sps r1) Hb). rewrite Hs in IH.
    destruct (stepsFrames n (S step) sps st1) as [l2 st2].
    destruct IH as (Hs2 & Hp2 & Hb2).
    split; [exact Hs2 | split; [|exact Hb2]].
    rewrite Hp2, Hp. change (produced r1) with (produced r).
    now rewrite flat_map_app, app_assoc.
Qed.

Lemma exportLoops_produced n sps r :
  bufferOk r ->
  let '(mixes, st) := loopsFrames n sps (r_synth r) in
  r_synth (exportLoops n sps r) = st
  /\ produced (exportLoops n sps r) = produced r ++ flat_map frameBytes mixes
  /\ bufferOk (exportLoops n sps r).
Proof.
  revert r; induction n as [|n IH]; intros r Hr.
  - cbn [loopsFrames exportLoops iterate flat_map]. now rewrite app_nil_r.
  - rewrite exportLoops_S. cbn [loopsFrames].
    pose proof (exportSteps_produced NUM_STEPS 0 sps r Hr) as H1.
    destruct (stepsFrames NUM_STEPS 0 sps (r_synth r)) as [l1 st1].
    destruct H1 as (Hs & Hp & Hb).
    specialize (IH _ Hb). rewrite Hs in IH.
    destruct (loopsFrames n sps st1) as [l2 st2].
    destruct IH as (Hs2 & Hp2 & Hb2).
    split; [exact Hs2 | split; [|exact Hb2]].
    rewrite Hp2, Hp. now rewrite flat_map_app, app_assoc.
Qed.

Lemma final_flush r :
  bufferOk r ->
  r_file (if wbufPos r >? 0 then flushBuf r else r) = produced r
  /\ r_synth (if wbufPos r >? 0 then flushBuf r else r) = r_synth r.
Proof.
  intros [[k Hk] _]. destruct (wbufPos r >? 0) eqn:E;
    [split; reflexivity|].
  split; [|reflexivity].
  rewrite Z.gtb_ltb in E. apply Z.ltb_ge in E. unfold wbufPos in E.
  rewrite Hk in E.
  replace (Z.of_nat (2 * k)) with (Z.of_nat k * 2) in E by lia.
  rewrite Z.div_mul in E by lia.
  assert (Hn : r_wbuf r = []) by (apply length_zero_iff_nil; lia).
  unfold produced. rewrite Hn. cbn [flat_map]. now rewrite app_nil_r.
Qed.

Lemma export_produces
        (filename : string) (numLoops : Z) (sd : SDCard) (st : Synth) :
  sd_begin sd = true -> sd_open sd = true ->
  let sps := Z.to_nat (samplesPerStep (seqBPM st)) in
  let '(mixes, stEnd) :=
    loopsFrames (Z.to_nat numLoops) sps (resetChannels NUM_CH 0 st) in
  let '(st', sd', _) := exportPatternToWAV filename numLoops sd st in
  st' = stEnd
  /\ sd_read ("/" ++ filename)%string sd'
     = Some (writeWAVHeader [] (totalSamples (seqBPM st) numLoops)
             ++ flat_map frameBytes mixes).
Proof.
  intros Hb Ho sps.
  unfold exportPatternToWAV. rewrite Hb. cbv beta iota zeta delta [negb].
  assert (Ho' : sd_open (if sd_exists ("/" ++ filename) sd
                         then sd_remove ("/" ++ filename) sd else sd) = true).
  { destruct (sd_exists _ sd); [exact Ho | exact Ho]. }
  rewrite Ho'.
  fold (samplesPerStep (seqBPM st)). fold sps.
  fold (totalSamples (seqBPM st) numLoops).
  set (hdr := writeWAVHeader [] _).
  set (r0 := mkRender (resetChannels NUM_CH 0 st) hdr []).
  assert (H0 : bufferOk r0).
  { split; cbn [r0 r_wbuf List.length]; [exists 0%nat; lia|].
    unfold WBUF_SZ. lia. }
  pose proof (exportLoops_produced (Z.to_nat numLoops) sps r0 H0) as H.
  change (r_synth r0) with (resetChannels NUM_CH 0 st) in H.
  destruct (loopsFrames (Z.to_nat numLoops) sps (resetChannels NUM_CH 0 st))
    as [mixes stEnd].
  destruct H as (Hs & Hp & Hbuf).
  destruct (final_flush _ Hbuf) as (Hf & Hsy).
  rewrite Hf, Hsy, Hp, Hs. split; [reflexivity|].
  rewrite sd_read_store. unfold produced, r0; cbn [r_file r_wbuf flat_map].
  now rewrite app_nil_r.
Qed.

(** ** The exported file is a well-formed WAV file *)

Lemma length_renderFrames n st : List.length (fst (renderFrames n st)) = n.
Proof.
  revert st; induction n as [|n IH]; intros st; [reflexivity|].
  cbn [renderFrames]. destruct (mixFrame st) as [mix st1].
  specialize (IH st1). destruct (renderFrames n st1) as [l st2].
  cbn [fst List.length] in *. now rewrite IH.
Qed.

Lemma length_stepsFrames n step sps st :
  List.length (fst (stepsFrames n step sps st)) = (n * sps)%nat.
Proof.
  revert step st; induction n as [|n IH]; intros step st; [reflexivity|].
  cbn [stepsFrames].
  pose proof (length_renderFrames sps (trigSequencerStep step st)) as H1.
  destruct (renderFrames sps (trigSequencerStep step st)) as [l1 st1].
  specialize (IH (S step) st1).
  destruct (stepsFrames n (S step) sps st1) as [l2 st2].
  cbn [fst] in *. rewrite length_app, H1, IH. lia.
Qed.

Lemma length_loopsFrames n sps st :
  List.length (fst (loopsFrames n sps st)) = (n * (NUM_STEPS * sps))%nat.
Proof.
  revert st; induction n as [|n IH]; intros st; [reflexivity|].
  cbn [loopsFrames].
  pose proof (length_stepsFrames NUM_STEPS 0 sps st) as H1.
  destruct (stepsFrames NUM_STEPS 0 sps st) as [l1 st1].
  specialize (IH st1). destruct (loopsFrames n sps st1) as [l2 st2].
  cbn [fst] in *. rewrite length_app, H1, IH. lia.
Qed.

Lemma length_frames (mixes : list Z) :
  List.length (flat_map frameBytes mixes) = (4 * List.length mixes)%nat.
Proof.
  induction mixes as [|m l IH]; [reflexivity|].
  cbn [flat_map List.length]. rewrite length_app, IH. cbn. lia.
Qed.

(** X3: the export writes every frame once and in order: the file it
    stores is the 44-byte header followed by the frames the engine renders
    from reset channels, [samplesPerStep] frames after each step trigger,
    16 steps per loop, [samplesPerStep * 16 * numLoops] frames in all, each
    frame as the clamped sum twice (left, right), little-endian; the
    256-frame write buffer drops, repeats and reorders nothing, and the
    engine is left where that rendering ends. *)
Theorem export_writes_every_frame
        (filename : string) (numLoops : Z) (sd : SDCard) (st : Synth) :
  sd_begin sd = true -> sd_open sd = true ->
  let sps := Z.to_nat (samplesPerStep (seqBPM st)) in
  let '(mixes, stEnd) :=
    loopsFrames (Z.to_nat numLoops) sps (resetChannels NUM_CH 0 st) in
  let '(st', sd', _) := exportPatternToWAV filename numLoops sd st in
  st' = stEnd
  /\ List.length mixes = (Z.to_nat numLoops * (NUM_STEPS * sps))%nat
  /\ sd_read ("/" ++ filename)%string sd'
     = Some (writeWAVHeader [] (totalSamples (seqBPM st) numLoops)
             ++ flat_map frameBytes mixes)
  /\ List.length (flat_map frameBytes mixes)
     = (4 * (Z.to_nat numLoops * (NUM_STEPS * sps)))%nat.
Proof.
  intros Hb Ho sps.
  pose proof (export_produces filename numLoops sd st Hb Ho) as H.
  cbv zeta in H. fold sps in H.
  pose proof (length_loopsFrames (Z.to_nat numLoops) sps
                (resetChannels NUM_CH 0 st)) as Hlen.
  destruct (loopsFrames (Z.to_nat numLoops) sps (resetChannels NUM_CH 0 st))
    as [mixes stEnd].
  destruct (exportPatternToWAV filename numLoops sd st) as [[st' sd'] lines].
  destruct H as (Hst & Hread). cbn [fst] in Hlen.
  split; [exact Hst | split; [exact Hlen | split; [exact Hread|]]].
  now rewrite length_frames, Hlen.
Qed.

Lemma export_writes_every_frame_witness :
  let sps := Z.to_nat (samplesPerStep (seqBPM Synth0)) in
  let '(mixes, stEnd) :=
    loopsFrames (Z.to_nat 1) sps (resetChannels NUM_CH 0 Synth0) in
  let '(st', sd', _) :=
    exportPatternToWAV "song.wav" 1 (mkSD true true []) Synth0 in
  st' = stEnd
  /\ List.length mixes = (Z.to_nat 1 * (NUM_STEPS * sps))%nat
  /\ sd_read "/song.wav" sd'
     = Some (writeWAVHeader [] (totalSamples (seqBPM Synth0) 1)
             ++ flat_map frameBytes mixes)
  /\ List.length (flat_map frameBytes mixes)
     = (4 * (Z.to_nat 1 * (NUM_STEPS * sps)))%nat.
Proof.
  apply (export_writes_every_frame "song.wav" 1 (mkSD true true []) Synth0);
    reflexivity.
Defined.

Lemma isByte_mod x : isByte (x mod 256).
Proof. apply Z.mod_pos_bound. lia. Qed.

Lemma isByte_frames (mixes : list Z) : Forall isByte (flat_map frameBytes mixes).
Proof.
  induction mixes as [|m l IH]; [constructor|].
  cbn [flat_map]. apply Forall_app. split; [|exact IH].
  unfold frameBytes, sampleBytes, bytesU16LE.
  repeat constructor; apply isByte_mod.
Qed.

Lemma isByte_header t : Forall isByte (writeWAVHeader [] t).
Proof.
  unfold writeWAVHeader, writeU32LE, writeU16LE, bytesU32LE, bytesU16LE.
  cbn [app bytesOfString list_ascii_of_string map].
  repeat constructor; try apply isByte_mod; cbn; unfold isByte; lia.
Qed.

Lemma leValue_bytesU32LE v : 0 <= v < 2 ^ 32 -> leValue (bytesU32LE v) = v.
Proof.
  intros Hv. unfold leValue, bytesU32LE. cbn [fold_right].
  change 65536 with (256 * 256). change 16777216 with (256 * 256 * 256).
  rewrite <- !Z.div_div by lia.
  pose proof (Z.div_mod v 256 ltac:(lia)) as H0.
  pose proof (Z.div_mod (v / 256) 256 ltac:(lia)) as H1.
  pose proof (Z.div_mod (v / 256 / 256) 256 ltac:(lia)) as H2.
  assert (H3 : v / 256 / 256 / 256 < 256).
  { apply Z.div_lt_upper_bound; [lia|].
    apply Z.div_lt_upper_bound; [lia|].
    apply Z.div_lt_upper_bound; lia. }
  assert (H4 : 0 <= v / 256 / 256 / 256) by (repeat apply Z.div_pos; lia).
  rewrite (Z.mod_small (v / 256 / 256 / 256)) by lia.
  lia.
Qed.

(** The size fields of the header. *)
Lemma header_fields t data :
  field 0 4 (writeWAVHeader [] t ++ data) = bytesOfString "RIFF"
  /\ field 4 4 (writeWAVHeader [] t ++ data)
     = bytesU32LE (u32 (36 + u32 (t * 4)))
  /\ field 8 8 (writeWAVHeader [] t ++ data) = bytesOfString "WAVEfmt "
  /\ field 36 4 (writeWAVHeader [] t ++ data) = bytesOfString "data"
  /\ field 40 4 (writeWAVHeader [] t ++ data) = bytesU32LE (u32 (t * 4)).
Proof. repeat split. Qed.

(** Sizes of an export at a BPM and loop count within the ranges the
    decoder and the menu keep. *)
Lemma export_sizes bpm loops :
  40 <= bpm <= 240 -> 1 <= loops <= 8 ->
  2734 <= samplesPerStep bpm <= 16537
  /\ totalSamples bpm loops = samplesPerStep bpm * 16 * loops
  /\ totalSamples bpm loops * 4 + 36 < 2 ^ 32.
Proof.
  intros Hb Hl.
  assert (Hd : 62 <= stepDurMs bpm <= 375).
  { unfold stepDurMs. rewrite u32_small by lia.
    split.
    - apply Z.div_le_lower_bound; [lia|].
      apply Z.div_le_lower_bound; [lia|]. lia.
    - apply Z.div_le_upper_bound; [lia|].
      apply Z.div_le_upper_bound; [lia|]. lia. }
  assert (Hs : 2734 <= samplesPerStep bpm <= 16537).
  { unfold samplesPerStep, SAMPLE_RATE. rewrite u32_small by lia.
    split.
    - apply Z.div_le_lower_bound; lia.
    - apply Z.lt_succ_r. apply Z.div_lt_upper_bound; lia. }
  assert (Ht : totalSamples bpm loops = samplesPerStep bpm * 16 * loops).
  { unfold totalSamples, NUM_STEPS. change (Z.of_nat 16) with 16.
    rewrite (u32_small (samplesPerStep bpm * 16)) by lia.
    rewrite (u32_small loops) by lia.
    apply u32_small. nia. }
  split; [exact Hs | split; [exact Ht|]]. rewrite Ht. nia.
Qed.

Lemma endsWith_append (f suffix : string) :
  endsWith (f ++ suffix) suffix = true.
Proof.
  unfold endsWith. rewrite length_append_str.
  replace (String.length f + String.length suffix - String.length suffix)%nat
    with (String.length f) by lia.
  rewrite dropStr_app, String.eqb_refl, andb_true_r.
  apply Nat.leb_le. lia.
Qed.

Lemma endsWith_cons a (f suffix : string) :
  endsWith f suffix = true -> endsWith (String a f) suffix = true.
Proof.
  unfold endsWith. intros H. apply andb_prop in H as [Hl He].
  apply Nat.leb_le in Hl. cbn [String.length].
  replace (S (String.length f) - String.length suffix)%nat
    with (S (String.length f - String.length suffix)) by lia.
  cbn [dropStr]. rewrite He, andb_true_r. apply Nat.leb_le. lia.
Qed.

(** X4: an export started from the serial menu with a file name, on a
    working SD card, stores a well-formed WAV file whatever the engine has
    been through before: the name ends in ".wav", the loop count used is
    the typed number clamped to 1..8, the file is the 44-byte header
    followed by 4 bytes for each of samplesPerStep * 16 * loops frames, its
    RIFF size field holds the file length less 8 and its data size field
    the file length less 44, and every element is a byte. *)
Theorem menu_export_well_formed
        (fname loopsStr : string) (sd : SDCard) (st : Synth) :
  live st -> fname <> ""%string ->
  sd_begin sd = true -> sd_open sd = true ->
  let name := if endsWith fname ".wav" then fname
              else (fname ++ ".wav")%string in
  let loops := constrain (toInt loopsStr) 1 8 in
  let '(_, sd', _) := menuExport fname loopsStr sd st in
  endsWith name ".wav" = true
  /\ 1 <= loops <= 8
  /\ exists bytes,
       sd_read ("/" ++ name)%string sd' = Some bytes
       /\ Z.of_nat (List.length bytes)
          = 44 + 4 * (samplesPerStep (seqBPM st) * 16 * loops)
       /\ field 0 4 bytes = bytesOfString "RIFF"
       /\ leValue (field 4 4 bytes) = Z.of_nat (List.length bytes) - 8
       /\ field 8 8 bytes = bytesOfString "WAVEfmt "
       /\ field 36 4 bytes = bytesOfString "data"
       /\ leValue (field 40 4 bytes) = Z.of_nat (List.length bytes) - 44
       /\ Forall isByte bytes.
Proof.
  intros Hlive Hname Hb Ho name loops.
  assert (Hl : 1 <= loops <= 8) by (apply constrain_range; lia).
  assert (Hbpm : 40 <= seqBPM st <= 240) by (apply live_wellFormed, Hlive).
  unfold menuExport.
  destruct (String.eqb fname "") eqn:E;
    [apply String.eqb_eq in E; contradiction|].
  cbv zeta. fold loops. fold name.
  replace (loops =? 0) with false by (symmetry; apply Z.eqb_neq; lia).
  pose proof (export_produces name loops sd st Hb Ho) as H.
  cbv zeta in H.
  pose proof (length_loopsFrames (Z.to_nat loops)
                (Z.to_nat (samplesPerStep (seqBPM st)))
                (resetChannels NUM_CH 0 st)) as Hlen.
  destruct (loopsFrames _ _ _) as [mixes stEnd].
  destruct (exportPatternToWAV name loops sd st) as [[st' sd'] lines].
  destruct H as (_ & Hread). cbn [fst] in Hlen.
  destruct (export_sizes (seqBPM st) loops Hbpm Hl) as (Hs & Ht & Hfit).
  split; [|split; [exact Hl|]].
  { unfold name. destruct (endsWith fname ".wav") eqn:Ew;
      [exact Ew | apply endsWith_append]. }
  set (t := totalSamples (seqBPM st) loops) in *.
  exists (writeWAVHeader [] t ++ flat_map frameBytes mixes).
  assert (Hbytes :
            Z.of_nat (List.length (writeWAVHeader [] t
                                   ++ flat_map frameBytes mixes))
            = 44 + 4 * t).
  { rewrite length_app, length_writeWAVHeader, length_frames, Hlen, Ht.
    unfold NUM_STEPS. lia. }
  destruct (header_fields t (flat_map frameBytes mixes))
    as (F0 & F4 & F8 & F36 & F40).
  assert (Ht0 : 0 <= t) by (rewrite Ht; nia).
  split; [exact Hread|].
  split; [rewrite Hbytes, Ht; reflexivity|].
  split; [exact F0|].
  split.
  { rewrite F4, Hbytes.
    rewrite (u32_small (t * 4)) by lia.
    rewrite (u32_small (36 + t * 4)) by lia.
    rewrite leValue_bytesU32LE by lia. lia. }
  split; [exact F8|].
  split; [exact F36|].
  split.
  { rewrite F40, Hbytes. rewrite (u32_small (t * 4)) by lia.
    rewrite leValue_bytesU32LE by lia. lia. }
  apply Forall_app. split; [apply isByte_header | apply isByte_frames].
Qed.

(** ** Numbers as text and back *)

Lemma digitVal_digit d :
  0 <= d <= 9 -> digitVal (ascii_of_N (Z.to_N (48 + d))) = Some d.
Proof.
  intros Hd. unfold digitVal.
  rewrite N_ascii_embedding by lia.
  rewrite Z2N.id by lia.
  replace (48 <=? 48 + d) with true by (symmetry; apply Z.leb_le; lia).
  replace (48 + d <=? 57) with true by (symmetry; apply Z.leb_le; lia).
  cbn [andb]. f_equal. lia.
Qed.

(** Reading back the digits written in front of [rest] adds them to the
    accumulator. *)
Lemma readDigits_digitsOf fuel n rest acc cnt :
  0 <= n < 10 ^ Z.of_nat fuel -> (0 < fuel)%nat ->
  exists k, 0 < k
    /\ readDigits (digitsOf fuel n rest) acc cnt
       = readDigits rest (acc * 10 ^ k + n) (cnt + k).
Proof.
  revert n rest; induction fuel as [|fuel IH]; intros n rest Hn Hf; [lia|].
  cbn [digitsOf].
  pose proof (Z.div_mod n 10 ltac:(lia)) as Hdm.
  pose proof (Z.mod_pos_bound n 10 ltac:(lia)) as Hm.
  destruct (n / 10 =? 0) eqn:E.
  - apply Z.eqb_eq in E. exists 1. split; [lia|].
    cbn [readDigits]. rewrite digitVal_digit by lia.
    f_equal; lia.
  - apply Z.eqb_neq in E.
    assert (Hq : 0 <= n / 10 < 10 ^ Z.of_nat fuel).
    { split; [apply Z.div_pos; lia|].
      apply Z.div_lt_upper_bound; [lia|].
      rewrite Nat2Z.inj_succ, Z.pow_succ_r in Hn by lia. lia. }
    destruct fuel as [|fuel'].
    { cbn in Hq. lia. }
    destruct (IH (n / 10)
                (String (ascii_of_N (Z.to_N (48 + n mod 10))) rest) Hq
                ltac:(lia)) as (k & Hk & Hr).
    exists (k + 1). split; [lia|].
    rewrite Hr. cbn [readDigits]. rewrite digitVal_digit by lia.
    rewrite Z.pow_add_r by lia. f_equal; lia.
Qed.

Lemma skipSpaces_digitsOf fuel n rest :
  0 <= n -> (0 < fuel)%nat ->
  skipSpaces (digitsOf fuel n rest) = digitsOf fuel n rest
  /\ readSign (digitsOf fuel n rest) = (false, digitsOf fuel n rest).
Proof.
  revert n rest; induction fuel as [|fuel IH]; intros n rest Hn Hf; [lia|].
  cbn [digitsOf].
  pose proof (Z.mod_pos_bound n 10 ltac:(lia)) as Hm.
  destruct (n / 10 =? 0) eqn:E.
  - assert (Hd : exists d, 0 <= d <= 9 /\ n mod 10 = d) by (eexists; split; [|reflexivity]; lia).
    destruct Hd as (d & Hd & ->).
    assert (d = 0 \/ d = 1 \/ d = 2 \/ d = 3 \/ d = 4 \/ d = 5 \/ d = 6
            \/ d = 7 \/ d = 8 \/ d = 9) as Hc by lia.
    repeat (destruct Hc as [-> | Hc]; [split; reflexivity|]).
    subst d. split; reflexivity.
  - apply Z.eqb_neq in E.
    destruct fuel as [|fuel'].
    + cbn [digitsOf].
      assert (Hd : exists d, 0 <= d <= 9 /\ n mod 10 = d) by (eexists; split; [|reflexivity]; lia).
      destruct Hd as (d & Hd & ->).
      assert (d = 0 \/ d = 1 \/ d = 2 \/ d = 3 \/ d = 4 \/ d = 5 \/ d = 6
              \/ d = 7 \/ d = 8 \/ d = 9) as Hc by lia.
      repeat (destruct Hc as [-> | Hc]; [split; reflexivity|]).
      subst d. split; reflexivity.
    + apply IH; [apply Z.div_pos; lia | lia].
Qed.

Lemma digitsOf_app fuel n acc rest :
  (digitsOf fuel n acc ++ rest)%string = digitsOf fuel n (acc ++ rest)%string.
Proof.
  revert n acc; induction fuel as [|fuel IH]; intros n acc; [reflexivity|].
  cbn [digitsOf]. destruct (n / 10 =? 0); [reflexivity|].
  now rewrite IH.
Qed.

(** Text after which a run of digits ends. *)
Lemma toInt_number n rest :
  - 2 ^ 31 <= n < 2 ^ 31 ->
  (forall acc cnt, readDigits rest acc cnt = (acc, cnt, rest)) ->
  toInt (String_of_int n ++ rest) = n.
Proof.
  intros Hn Hrest. unfold toInt, String_of_int.
  destruct (n <? 0) eqn:E.
  - apply Z.ltb_lt in E. cbn [append skipSpaces isSpace readSign].
    change (isSpace "-") with false. cbv iota.
    rewrite digitsOf_app. cbn [append readSign].
    destruct (readDigits_digitsOf 10 (- n) rest 0 0 ltac:(lia) ltac:(lia))
      as (k & Hk & ->).
    rewrite Hrest. unfold constrain.
    replace (- (0 * 10 ^ k + - n)) with n by lia.
    destruct (n <? - 2 ^ 31) eqn:E1; [apply Z.ltb_lt in E1; lia|].
    destruct (n >? 2 ^ 31 - 1) eqn:E2; [apply Z.gtb_lt in E2; lia|].
    reflexivity.
  - apply Z.ltb_ge in E. rewrite digitsOf_app. cbn [append].
    destruct (skipSpaces_digitsOf 10 n rest E ltac:(lia)) as (-> & ->).
    destruct (readDigits_digitsOf 10 n rest 0 0 ltac:(lia) ltac:(lia))
      as (k & Hk & ->).
    rewrite Hrest. unfold constrain.
    replace (0 * 10 ^ k + n) with n by lia.
    destruct (n <? - 2 ^ 31) eqn:E1; [apply Z.ltb_lt in E1; lia|].
    destruct (n >? 2 ^ 31 - 1) eqn:E2; [apply Z.gtb_lt in E2; lia|].
    reflexivity.
Qed.

(** X5: reading back the text of a number gives the number:
    [String(n).toInt()] is [n] for every 32-bit [n], also when the digits
    are followed by text that does not start with a digit. *)
Theorem toInt_String_of_int (n : Z) (rest : string) :
  - 2 ^ 31 <= n < 2 ^ 31 ->
  match rest with
  | String a _ => digitVal a = None
  | EmptyString => True
  end ->
  toInt (String_of_int n ++ rest) = n.
Proof.
  intros Hn Hrest. apply toInt_number; [exact Hn|].
  intros acc cnt. destruct rest as [|a rest]; [reflexivity|].
  cbn [readDigits]. now rewrite Hrest.
Qed.

Lemma toInt_String_of_int_witness :
  toInt (String_of_int (-2147483648) ++ ",7") = -2147483648.
Proof.
  apply (toInt_String_of_int (-2147483648) ",7"); [lia | reflexivity].
Defined.

(** ** Splitting a command body at its commas *)

Lemma append_assoc_str (a b c : string) :
  ((a ++ b) ++ c = a ++ b ++ c)%string.
Proof. induction a as [|x a IH]; cbn [append]; [reflexivity | now rewrite IH]. Qed.

Lemma findChar_skip c (a rest : string) :
  countChar c a = 0%nat ->
  findChar c (a ++ String c rest) = Some (String.length a).
Proof.
  induction a as [|x a IH]; cbn [append findChar countChar String.length].
  - now rewrite Ascii.eqb_refl.
  - destruct (Ascii.eqb x c); [discriminate|]. intros H.
    now rewrite IH.
Qed.

Lemma takeStr_app (a post : string) :
  takeStr (String.length a) (a ++ post) = a.
Proof.
  induction a as [|x a IH]; cbn [append takeStr String.length].
  - destruct post; reflexivity.
  - now rewrite IH.
Qed.

Lemma indexOf_at (pre a rest : string) c :
  countChar c a = 0%nat ->
  Z.of_nat (String.length (pre ++ a ++ String c rest)) < 2 ^ 32 ->
  indexOf (pre ++ a ++ String c rest) c (Z.of_nat (String.length pre))
  = Z.of_nat (String.length pre + String.length a).
Proof.
  intros Ha Hlen. unfold indexOf.
  rewrite !length_append_str in *. cbn [String.length] in *.
  rewrite u32_small by lia.
  destruct (_ <=? _) eqn:E; [apply Z.leb_le in E; lia|].
  rewrite Nat2Z.id, dropStr_app, findChar_skip by exact Ha. lia.
Qed.

Lemma substring_mid (pre a post : string) :
  Z.of_nat (String.length (pre ++ a ++ post)) < 2 ^ 32 ->
  substring (pre ++ a ++ post) (Z.of_nat (String.length pre))
            (Z.of_nat (String.length pre + String.length a)) = a.
Proof.
  intros Hlen. unfold substring.
  rewrite !length_append_str in *.
  rewrite !u32_small by lia.
  destruct (_ >? _) eqn:E; [apply Z.gtb_lt in E; lia|].
  destruct (_ <=? _) eqn:E2.
  - apply Z.leb_le in E2. destruct a; [reflexivity | cbn in E2; lia].
  - rewrite Nat2Z.id, dropStr_app.
    replace (Z.to_nat _) with (String.length a) by lia.
    apply takeStr_app.
Qed.

Ltac len_tac :=
  repeat first [rewrite length_append_str
               | progress cbn [String.length append]];
  lia.

(** The three comma positions and the four fields the decoder takes from
    a body [a,b,c,d] whose first three fields hold no comma. *)
Lemma split_fields (a b c d : string) :
  countChar "," a = 0%nat -> countChar "," b = 0%nat ->
  countChar "," c = 0%nat ->
  let body := (a ++ "," ++ b ++ "," ++ c ++ "," ++ d)%string in
  Z.of_nat (String.length body) < 2 ^ 32 ->
  let c1 := indexOf body "," 0 in
  let c2 := indexOf body "," (c1 + 1) in
  let c3 := indexOf body "," (c2 + 1) in
  0 <= c1 /\ 0 <= c2 /\ 0 <= c3
  /\ substring body 0 c1 = a
  /\ substring body (c1 + 1) c2 = b
  /\ substring body (c2 + 1) c3 = c
  /\ substringFrom body (c3 + 1) = d.
Proof.
  intros Ha Hb Hc body Hlen c1 c2 c3.
  assert (HL : Z.of_nat (String.length a + String.length b
                         + String.length c + String.length d + 3) < 2 ^ 32).
  { unfold body in Hlen. rewrite !length_append_str in Hlen.
    cbn [String.length] in Hlen. lia. }
  assert (E1 : c1 = Z.of_nat (String.length a)).
  { unfold c1, body.
    apply (indexOf_at "" a (b ++ "," ++ c ++ "," ++ d) "," Ha). len_tac. }
  assert (B2 : body = ((a ++ ",") ++ b ++ "," ++ c ++ "," ++ d)%string)
    by (unfold body; now rewrite append_assoc_str).
  assert (L2 : String.length (a ++ ",") = S (String.length a)) by len_tac.
  assert (E2 : c2 = Z.of_nat (S (String.length a) + String.length b)).
  { unfold c2. rewrite E1.
    replace (Z.of_nat (String.length a) + 1)
      with (Z.of_nat (String.length (a ++ ","))) by (rewrite L2; lia).
    rewrite B2, <- L2.
    apply (indexOf_at (a ++ ",") b (c ++ "," ++ d) "," Hb). len_tac. }
  assert (B3 : body = ((a ++ "," ++ b ++ ",") ++ c ++ "," ++ d)%string).
  { unfold body. rewrite !append_assoc_str. cbn [append]. reflexivity. }
  assert (L3 : String.length (a ++ "," ++ b ++ ",")
               = S (S (String.length a) + String.length b)) by len_tac.
  assert (E3 : c3 = Z.of_nat (S (S (String.length a) + String.length b)
                              + String.length c)).
  { unfold c3. rewrite E2.
    replace (Z.of_nat (S (String.length a) + String.length b) + 1)
      with (Z.of_nat (String.length (a ++ "," ++ b ++ ",")))
      by (rewrite L3; lia).
    rewrite B3, <- L3.
    apply (indexOf_at (a ++ "," ++ b ++ ",") c d "," Hc). len_tac. }
  split; [lia | split; [lia | split; [lia|]]].
  split; [|split; [|split]].
  - rewrite E1. unfold body.
    apply (substring_mid "" a ("," ++ b ++ "," ++ c ++ "," ++ d)). len_tac.
  - rewrite E1, E2.
    replace (Z.of_nat (String.length a) + 1)
      with (Z.of_nat (String.length (a ++ ","))) by (rewrite L2; lia).
    rewrite B2, <- L2.
    apply (substring_mid (a ++ ",") b ("," ++ c ++ "," ++ d)). len_tac.
  - rewrite E2, E3.
    replace (Z.of_nat (S (String.length a) + String.length b) + 1)
      with (Z.of_nat (String.length (a ++ "," ++ b ++ ",")))
      by (rewrite L3; lia).
    rewrite B3, <- L3.
    apply (substring_mid (a ++ "," ++ b ++ ",") c ("," ++ d)). len_tac.
  - rewrite E3.
    assert (B4 : body = ((a ++ "," ++ b ++ "," ++ c ++ ",") ++ d)%string).
    { unfold body. rewrite !append_assoc_str. reflexivity. }
    assert (L4 : String.length (a ++ "," ++ b ++ "," ++ c ++ ",")
                 = S (S (S (String.length a) + String.length b)
                      + String.length c)) by len_tac.
    replace (Z.of_nat (S (S (String.length a) + String.length b)
                       + String.length c) + 1)
      with (Z.of_nat (String.length (a ++ "," ++ b ++ "," ++ c ++ ",")))
      by (rewrite L4; lia).
    rewrite B4. apply substringFrom_app. len_tac.
Qed.

(** The two fields and the rest the decoder takes from a body [a,b,d]
    whose first two fields hold no comma. *)
Lemma split_fields3 (a b d : string) :
  countChar "," a = 0%nat -> countChar "," b = 0%nat ->
  let body := (a ++ "," ++ b ++ "," ++ d)%string in
  Z.of_nat (String.length body) < 2 ^ 32 ->
  let c1 := indexOf body "," 0 in
  let c2 := indexOf body "," (c1 + 1) in
  0 <= c1 /\ 0 <= c2
  /\ substring body 0 c1 = a
  /\ substring body (c1 + 1) c2 = b
  /\ substringFrom body (c2 + 1) = d.
Proof.
  intros Ha Hb body Hlen c1 c2.
  assert (HL : Z.of_nat (String.length a + String.length b
                         + String.length d + 2) < 2 ^ 32).
  { unfold body in Hlen. rewrite !length_append_str in Hlen.
    cbn [String.length] in Hlen. lia. }
  assert (E1 : c1 = Z.of_nat (String.length a)).
  { unfold c1, body.
    apply (indexOf_at "" a (b ++ "," ++ d) "," Ha). len_tac. }
  assert (B2 : body = ((a ++ ",") ++ b ++ "," ++ d)%string)
    by (unfold body; now rewrite append_assoc_str).
  assert (L2 : String.length (a ++ ",") = S (String.length a)) by len_tac.
  assert (E2 : c2 = Z.of_nat (S (String.length a) + String.length b)).
  { unfold c2. rewrite E1.
    replace (Z.of_nat (String.length a) + 1)
      with (Z.of_nat (String.length (a ++ ","))) by (rewrite L2; lia).
    rewrite B2, <- L2.
    apply (indexOf_at (a ++ ",") b d "," Hb). len_tac. }
  split; [lia | split; [lia|]].
  split; [|split].
  - rewrite E1. unfold body.
    apply (substring_mid "" a ("," ++ b ++ "," ++ d)). len_tac.
  - rewrite E1, E2.
    replace (Z.of_nat (String.length a) + 1)
      with (Z.of_nat (String.length (a ++ ","))) by (rewrite L2; lia).
    rewrite B2, <- L2.
    apply (substring_mid (a ++ ",") b ("," ++ d)). len_tac.
  - rewrite E2.
    assert (B3 : body = ((a ++ "," ++ b ++ ",") ++ d)%string).
    { unfold body. rewrite !append_assoc_str. reflexivity. }
    assert (L3 : String.length (a ++ "," ++ b ++ ",")
                 = S (S (String.length a) + String.length b)) by len_tac.
    replace (Z.of_nat (S (String.length a) + String.length b) + 1)
      with (Z.of_nat (String.length (a ++ "," ++ b ++ ",")))
      by (rewrite L3; lia).
    rewrite B3. apply substringFrom_app. len_tac.
Qed.

Lemma decode_SEQ_SET (a b c d : string) (now : Z) (st : Synth) :
  countChar "," a = 0%nat -> countChar "," b = 0%nat ->
  countChar "," c = 0%nat ->
  Z.of_nat (String.length ("SEQ_SET:" ++ a ++ "," ++ b ++ "," ++ c ++ "," ++ d))
  < 2 ^ 32 ->
  onWsEvent ("SEQ_SET:" ++ a ++ "," ++ b ++ "," ++ c ++ "," ++ d) now st
  = set_mel (Z.to_nat (constrain (toInt a) 0 1))
            (Z.to_nat (constrain (toInt b) 0 15))
            (mkMelStep (toFloat c) (constrain (toInt d) 0 2)) st.
Proof.
  intros Ha Hb Hc Hlen.
  set (body := (a ++ "," ++ b ++ "," ++ c ++ "," ++ d)%string) in *.
  pose proof (substringFrom_app "SEQ_SET:" body Hlen) as Hbody.
  change (Z.of_nat (String.length "SEQ_SET:")) with 8 in Hbody.
  assert (Hl : Z.of_nat (String.length body) < 2 ^ 32).
  { rewrite length_append_str in Hlen. lia. }
  destruct (split_fields a b c d Ha Hb Hc Hl)
    as (P1 & P2 & P3 & S1 & S2 & S3 & S4).
  fold body in P1, P2, P3, S1, S2, S3, S4.
  unfold onWsEvent.
  change (startsWith ("SEQ_SET:" ++ body) "PLAY:") with false.
  change (String.eqb ("SEQ_SET:" ++ body) "STOP") with false.
  change (startsWith ("SEQ_SET:" ++ body) "WAVE:") with false.
  change (startsWith ("SEQ_SET:" ++ body) "VOL:") with false.
  change (startsWith ("SEQ_SET:" ++ body) "SEQ_SET:") with true.
  cbv iota. rewrite Hbody. cbv zeta.
  rewrite S1, S2, S3, S4.
  replace (indexOf body "," 0 <? 0) with false
    by (symmetry; apply Z.ltb_ge; exact P1).
  replace (indexOf body "," (indexOf body "," 0 + 1) <? 0) with false
    by (symmetry; apply Z.ltb_ge; exact P2).
  replace (indexOf body "," (indexOf body "," (indexOf body "," 0 + 1) + 1)
           <? 0) with false
    by (symmetry; apply Z.ltb_ge; exact P3).
  reflexivity.
Qed.

Lemma decode_SEQ_DRUM (a b d : string) (now : Z) (st : Synth) :
  countChar "," a = 0%nat -> countChar "," b = 0%nat ->
  Z.of_nat (String.length ("SEQ_DRUM:" ++ a ++ "," ++ b ++ "," ++ d))
  < 2 ^ 32 ->
  onWsEvent ("SEQ_DRUM:" ++ a ++ "," ++ b ++ "," ++ d) now st
  = set_drm (Z.to_nat (constrain (toInt a) 0 2))
            (Z.to_nat (constrain (toInt b) 0 15))
            (negb (toInt d =? 0)) st.
Proof.
  intros Ha Hb Hlen.
  set (body := (a ++ "," ++ b ++ "," ++ d)%string) in *.
  pose proof (substringFrom_app "SEQ_DRUM:" body Hlen) as Hbody.
  change (Z.of_nat (String.length "SEQ_DRUM:")) with 9 in Hbody.
  assert (Hl : Z.of_nat (String.length body) < 2 ^ 32).
  { rewrite length_append_str in Hlen. lia. }
  destruct (split_fields3 a b d Ha Hb Hl) as (P1 & P2 & S1 & S2 & S3).
  fold body in P1, P2, S1, S2, S3.
  unfold onWsEvent.
  change (startsWith ("SEQ_DRUM:" ++ body) "PLAY:") with false.
  change (String.eqb ("SEQ_DRUM:" ++ body) "STOP") with false.
  change (startsWith ("SEQ_DRUM:" ++ body) "WAVE:") with false.
  change (startsWith ("SEQ_DRUM:" ++ body) "VOL:") with false.
  change (startsWith ("SEQ_DRUM:" ++ body) "SEQ_SET:") with false.
  change (startsWith ("SEQ_DRUM:" ++ body) "SEQ_DRUM:") with true.
  cbv iota. rewrite Hbody. cbv zeta.
  rewrite S1, S2, S3.
  replace (indexOf body "," 0 <? 0) with false
    by (symmetry; apply Z.ltb_ge; exact P1).
  replace (indexOf body "," (indexOf body "," 0 + 1) <? 0) with false
    by (symmetry; apply Z.ltb_ge; exact P2).
  reflexivity.
Qed.

(** X6: a complete step command is decoded field by field: the text
    before the first comma is the track, between the first and second the
    step, and so on, each read as a number and clamped to its range (track
    0..1 or 0..2, step 0..15, wave 0..2); for the melodic command the text
    after the third comma is the wave, for the drum command the text after
    the second is the on/off value, on when it reads as nonzero. *)
Theorem step_commands_decode (a b c d : string) (now : Z) (st : Synth) :
  countChar "," a = 0%nat -> countChar "," b = 0%nat ->
  countChar "," c = 0%nat ->
  Z.of_nat (String.length a + String.length b + String.length c
            + String.length d) < 2 ^ 31 ->
  onWsEvent ("SEQ_SET:" ++ a ++ "," ++ b ++ "," ++ c ++ "," ++ d) now st
  = set_mel (Z.to_nat (constrain (toInt a) 0 1))
            (Z.to_nat (constrain (toInt b) 0 15))
            (mkMelStep (toFloat c) (constrain (toInt d) 0 2)) st
  /\ onWsEvent ("SEQ_DRUM:" ++ a ++ "," ++ b ++ "," ++ d) now st
     = set_drm (Z.to_nat (constrain (toInt a) 0 2))
               (Z.to_nat (constrain (toInt b) 0 15))
               (negb (toInt d =? 0)) st.
Proof.
  intros Ha Hb Hc Hlen. split.
  - apply decode_SEQ_SET; try assumption. len_tac.
  - apply decode_SEQ_DRUM; try assumption. len_tac.
Qed.

Lemma step_commands_decode_witness :
  onWsEvent ("SEQ_SET:" ++ "7" ++ "," ++ "99" ++ "," ++ "440.5" ++ ","
             ++ "1,junk") 0 Synth0
  = set_mel (Z.to_nat (constrain (toInt "7") 0 1))
            (Z.to_nat (constrain (toInt "99") 0 15))
            (mkMelStep (toFloat "440.5") (constrain (toInt "1,junk") 0 2))
            Synth0
  /\ onWsEvent ("SEQ_DRUM:" ++ "7" ++ "," ++ "99" ++ "," ++ "1,junk") 0 Synth0
     = set_drm (Z.to_nat (constrain (toInt "7") 0 2))
               (Z.to_nat (constrain (toInt "99") 0 15))
               (negb (toInt "1,junk" =? 0)) Synth0.
Proof.
  apply (step_commands_decode "7" "99" "440.5" "1,junk" 0 Synth0);
    reflexivity.
Defined.

(** ** Messages of the control page *)

Lemma digit_not_comma d :
  0 <= d <= 9 -> Ascii.eqb (ascii_of_N (Z.to_N (48 + d))) "," = false.
Proof.
  intros Hd.
  assert (d = 0 \/ d = 1 \/ d = 2 \/ d = 3 \/ d = 4 \/ d = 5 \/ d = 6
          \/ d = 7 \/ d = 8 \/ d = 9) as Hc by lia.
  repeat (destruct Hc as [-> | Hc]; [reflexivity|]). now subst d.
Qed.

Lemma digitsOf_plain fuel n acc :
  0 <= n ->
  countChar "," (digitsOf fuel n acc) = countChar "," acc
  /\ (String.length (digitsOf fuel n acc) <= fuel + String.length acc)%nat.
Proof.
  revert n acc; induction fuel as [|fuel IH]; intros n acc Hn;
    [cbn [digitsOf]; split; [reflexivity | lia]|].
  cbn [digitsOf].
  pose proof (Z.mod_pos_bound n 10 ltac:(lia)) as Hm.
  assert (H1 : countChar ","
                 (String (ascii_of_N (Z.to_N (48 + n mod 10))) acc)
               = countChar "," acc)
    by (cbn [countChar]; now rewrite digit_not_comma by lia).
  destruct (n / 10 =? 0).
  - split; [exact H1 | cbn [String.length]; lia].
  - destruct (IH (n / 10)
                (String (ascii_of_N (Z.to_N (48 + n mod 10))) acc)
                ltac:(apply Z.div_pos; lia)) as (Hc & Hl).
    split; [now rewrite Hc | cbn [String.length] in Hl; lia].
Qed.

Lemma String_of_int_plain n :
  countChar "," (String_of_int n) = 0%nat
  /\ (String.length (String_of_int n) <= 11)%nat.
Proof.
  unfold String_of_int. destruct (n <? 0) eqn:E.
  - apply Z.ltb_lt in E.
    destruct (digitsOf_plain 10 (- n) "" ltac:(lia)) as (Hc & Hl).
    cbn [countChar String.length] in *.
    change (Ascii.eqb "-" ",") with false. cbv iota. split; [exact Hc | lia].
  - apply Z.ltb_ge in E.
    destruct (digitsOf_plain 10 n "" E) as (Hc & Hl).
    cbn [countChar String.length] in *. split; [exact Hc | lia].
Qed.

Lemma append_nil_r_str (s : string) : (s ++ "")%string = s.
Proof. induction s as [|a s IH]; cbn [append]; [reflexivity | now rewrite IH]. Qed.

Lemma toInt_text n : - 2 ^ 31 <= n < 2 ^ 31 -> toInt (String_of_int n) = n.
Proof.
  intros Hn. rewrite <- (append_nil_r_str (String_of_int n)).
  now apply toInt_number.
Qed.

Lemma freq_table_run : allFrom freqTextOk (Z.to_nat 20001) 0 = true.
Proof. vm_compute. reflexivity. Qed.

Lemma toFloat_text f :
  0 <= f <= 20000 -> toFloat (String_of_int f) = F32.of_Z f.
Proof.
  intros Hf. apply float_same_eq.
  apply (allFrom_spec freqTextOk _ 0 f freq_table_run).
  rewrite Z2Nat.id by lia. lia.
Qed.

(** Reading a cell of a two-level array after a write. *)
Lemma grid_get_set {A} (l : list (list A)) (t s t' s' : nat) (x d : A) :
  (t < List.length l)%nat -> (s < List.length (nth t l []))%nat ->
  nth s' (nth t' (upd t (upd s x (nth t l [])) l) []) d
  = if (Nat.eqb t t' && Nat.eqb s s')%bool then x
    else nth s' (nth t' l []) d.
Proof.
  intros Ht Hs. destruct (Nat.eqb_spec t t') as [<- | Hne].
  - rewrite nth_upd_same by exact Ht.
    destruct (Nat.eqb_spec s s') as [<- | Hne]; cbn [andb].
    + now rewrite nth_upd_same.
    + now rewrite nth_upd_other.
  - cbn [andb]. now rewrite nth_upd_other.
Qed.

Lemma row_length {A} (l : list (list A)) n t :
  Forall (fun r => List.length r = n) l -> (t < List.length l)%nat ->
  List.length (nth t l []) = n.
Proof.
  intros H Ht. apply (proj1 (Forall_forall _ l) H). now apply nth_In.
Qed.

Lemma mel_set_mel t s m t' s' st :
  wellFormed st -> (t < NUM_MEL_TRK)%nat -> (s < NUM_STEPS)%nat ->
  mel t' s' (set_mel t s m st)
  = if (Nat.eqb t t' && Nat.eqb s s')%bool then m else mel t' s' st.
Proof.
  intros H Ht Hs. unfold mel, set_mel; cbn [melPat set_melPat].
  apply grid_get_set; [now rewrite (wf_mel _ H)|].
  rewrite (row_length _ NUM_STEPS); [exact Hs | apply H|].
  now rewrite (wf_mel _ H).
Qed.

Lemma drm_set_drm t s v t' s' st :
  wellFormed st -> (t < NUM_DRM_TRK)%nat -> (s < NUM_STEPS)%nat ->
  drm t' s' (set_drm t s v st)
  = if (Nat.eqb t t' && Nat.eqb s s')%bool then v else drm t' s' st.
Proof.
  intros H Ht Hs. unfold drm, set_drm; cbn [drmPat set_drmPat].
  apply grid_get_set; [now rewrite (wf_drm _ H)|].
  rewrite (row_length _ NUM_STEPS); [exact Hs | apply H|].
  now rewrite (wf_drm _ H).
Qed.

Lemma page_mel_set_mel t s x t' s' p :
  Page.ok p -> (t < 2)%nat -> (s < 16)%nat ->
  Page.mel t' s' (Page.set_mel t s x p)
  = if (Nat.eqb t t' && Nat.eqb s s')%bool then x else Page.mel t' s' p.
Proof.
  intros H Ht Hs. unfold Page.mel, Page.set_mel; cbn [Page.melPat].
  apply grid_get_set; [now rewrite (Page.ok_mel _ H)|].
  rewrite (row_length _ 16%nat); [exact Hs | apply H|].
  now rewrite (Page.ok_mel _ H).
Qed.

Lemma page_drm_set_drm t s v t' s' p :
  Page.ok p -> (t < 3)%nat -> (s < 16)%nat ->
  Page.drm t' s' (Page.set_drm t s v p)
  = if (Nat.eqb t t' && Nat.eqb s s')%bool then v else Page.drm t' s' p.
Proof.
  intros H Ht Hs. unfold Page.drm, Page.set_drm; cbn [Page.drmPat].
  apply grid_get_set; [now rewrite (Page.ok_drm _ H)|].
  rewrite (row_length _ 16%nat); [exact Hs | apply H|].
  now rewrite (Page.ok_drm _ H).
Qed.

(** What the device does with the page's messages. *)

Lemma message_SEQ_SET ti s x now st :
  (ti < 2)%nat -> (s < 16)%nat ->
  0 <= Page.freqOf x <= 20000 -> 0 <= Page.wave x <= 2 ->
  onWsEvent (Page.sendMelStep ti s x) now st
  = set_mel ti s (mkMelStep (F32.of_Z (Page.freqOf x)) (Page.wave x)) st.
Proof.
  intros Ht Hs Hf Hw. unfold Page.sendMelStep.
  destruct (String_of_int_plain (Z.of_nat ti)) as (Ca & La).
  destruct (String_of_int_plain (Z.of_nat s)) as (Cb & Lb).
  destruct (String_of_int_plain (Page.freqOf x)) as (Cc & Lc).
  destruct (String_of_int_plain (Page.wave x)) as (_ & Ld).
  rewrite decode_SEQ_SET by (try assumption; len_tac).
  rewrite !toInt_text by lia. rewrite toFloat_text by exact Hf.
  unfold constrain.
  replace (Z.of_nat ti <? 0) with false by (symmetry; apply Z.ltb_ge; lia).
  replace (Z.of_nat ti >? 1) with false
    by (symmetry; rewrite Z.gtb_ltb; apply Z.ltb_ge; lia).
  replace (Z.of_nat s <? 0) with false by (symmetry; apply Z.ltb_ge; lia).
  replace (Z.of_nat s >? 15) with false
    by (symmetry; rewrite Z.gtb_ltb; apply Z.ltb_ge; lia).
  replace (Page.wave x <? 0) with false by (symmetry; apply Z.ltb_ge; lia).
  replace (Page.wave x >? 2) with false
    by (symmetry; rewrite Z.gtb_ltb; apply Z.ltb_ge; lia).
  now rewrite !Nat2Z.id.
Qed.

Lemma message_SEQ_DRUM ti s v now st :
  (ti < 3)%nat -> (s < 16)%nat ->
  onWsEvent (Page.sendDrmStep ti s v) now st = set_drm ti s v st.
Proof.
  intros Ht Hs. unfold Page.sendDrmStep.
  destruct (String_of_int_plain (Z.of_nat ti)) as (Ca & La).
  destruct (String_of_int_plain (Z.of_nat s)) as (Cb & Lb).
  destruct (String_of_int_plain (if v then 1 else 0)) as (_ & Ld).
  rewrite decode_SEQ_DRUM by (try assumption; len_tac).
  rewrite !toInt_text by (try destruct v; lia).
  unfold constrain.
  replace (Z.of_nat ti <? 0) with false by (symmetry; apply Z.ltb_ge; lia).
  replace (Z.of_nat ti >? 2) with false
    by (symmetry; rewrite Z.gtb_ltb; apply Z.ltb_ge; lia).
  replace (Z.of_nat s <? 0) with false by (symmetry; apply Z.ltb_ge; lia).
  replace (Z.of_nat s >? 15) with false
    by (symmetry; rewrite Z.gtb_ltb; apply Z.ltb_ge; lia).
  rewrite !Nat2Z.id. now destruct v.
Qed.

Lemma constrain_within x lo hi : lo <= x <= hi -> constrain x lo hi = x.
Proof.
  intros H. unfold constrain.
  destruct (x <? lo) eqn:E1; [apply Z.ltb_lt in E1; lia|].
  destruct (x >? hi) eqn:E2; [apply Z.gtb_lt in E2; lia|]. reflexivity.
Qed.

Lemma message_WAVE w now st :
  - 2 ^ 31 <= w < 2 ^ 31 ->
  onWsEvent ("WAVE:" ++ String_of_int w) now st
  = set_liveWave (constrain w 0 2) st.
Proof.
  intros Hw. destruct (String_of_int_plain w) as (_ & L).
  pose proof (substringFrom_app "WAVE:" (String_of_int w) ltac:(len_tac))
    as Hb.
  change (Z.of_nat (String.length "WAVE:")) with 5 in Hb.
  unfold onWsEvent.
  change (startsWith ("WAVE:" ++ String_of_int w) "PLAY:") with false.
  change (String.eqb ("WAVE:" ++ String_of_int w) "STOP") with false.
  change (startsWith ("WAVE:" ++ String_of_int w) "WAVE:") with true.
  cbv iota. now rewrite Hb, toInt_text.
Qed.

Lemma message_VOL v now st :
  - 2 ^ 31 <= v < 2 ^ 31 ->
  onWsEvent ("VOL:" ++ String_of_int v) now st
  = set_gAmp (constrain v 0 30000) st.
Proof.
  intros Hv. destruct (String_of_int_plain v) as (_ & L).
  pose proof (substringFrom_app "VOL:" (String_of_int v) ltac:(len_tac))
    as Hb.
  change (Z.of_nat (String.length "VOL:")) with 4 in Hb.
  unfold onWsEvent.
  change (startsWith ("VOL:" ++ String_of_int v) "PLAY:") with false.
  change (String.eqb ("VOL:" ++ String_of_int v) "STOP") with false.
  change (startsWith ("VOL:" ++ String_of_int v) "WAVE:") with false.
  change (startsWith ("VOL:" ++ String_of_int v) "VOL:") with true.
  cbv iota. now rewrite Hb, toInt_text.
Qed.

Lemma message_SEQ_BPM v now st :
  - 2 ^ 31 <= v < 2 ^ 31 ->
  onWsEvent ("SEQ_BPM:" ++ String_of_int v) now st
  = set_seqBPM (constrain v 40 240) st.
Proof.
  intros Hv. destruct (String_of_int_plain v) as (_ & L).
  pose proof (substringFrom_app "SEQ_BPM:" (String_of_int v) ltac:(len_tac))
    as Hb.
  change (Z.of_nat (String.length "SEQ_BPM:")) with 8 in Hb.
  unfold onWsEvent.
  change (startsWith ("SEQ_BPM:" ++ String_of_int v) "PLAY:") with false.
  change (String.eqb ("SEQ_BPM:" ++ String_of_int v) "STOP") with false.
  change (startsWith ("SEQ_BPM:" ++ String_of_int v) "WAVE:") with false.
  change (startsWith ("SEQ_BPM:" ++ String_of_int v) "VOL:") with false.
  change (startsWith ("SEQ_BPM:" ++ String_of_int v) "SEQ_SET:") with false.
  change (startsWith ("SEQ_BPM:" ++ String_of_int v) "SEQ_DRUM:") with false.
  change (startsWith ("SEQ_BPM:" ++ String_of_int v) "SEQ_BPM:") with true.
  cbv iota. now rewrite Hb, toInt_text.
Qed.

Lemma message_PLAY f now st :
  0 <= f <= 20000 ->
  onWsEvent ("PLAY:" ++ String_of_int f) now st
  = trigNote CH_LEAD (F32.of_Z f) (liveWave st) st.
Proof.
  intros Hf. destruct (String_of_int_plain f) as (_ & L).
  pose proof (substringFrom_app "PLAY:" (String_of_int f) ltac:(len_tac))
    as Hb.
  change (Z.of_nat (String.length "PLAY:")) with 5 in Hb.
  unfold onWsEvent.
  change (startsWith ("PLAY:" ++ String_of_int f) "PLAY:") with true.
  cbv iota. now rewrite Hb, toFloat_text.
Qed.

Lemma freqOf_range x : 0 <= Page.freqOf x <= 1047.
Proof.
  unfold Page.freqOf. destruct x as [n w]. cbn [Page.ni].
  do 23 (destruct n as [|n]; [cbn; lia|]).
  cbn. destruct n; cbn; lia.
Qed.

Lemma page_ok_set_mel ti s x p :
  (Page.ni x < List.length Page.NOTES)%nat -> 0 <= Page.wave x <= 2 ->
  Page.ok p -> Page.ok (Page.set_mel ti s x p).
Proof.
  intros Hn Hw []. constructor; cbn [Page.melPat Page.drmPat Page.curWave
                                     Page.set_mel]; try assumption.
  - now rewrite length_upd.
  - apply Forall_upd_within; [|assumption]. intros Ht.
    rewrite length_upd. now apply (row_length _ 16%nat).
  - apply Forall_upd; [|assumption].
    apply Forall_upd; [now split|].
    apply (Forall_nth_default
             (Forall (fun x => (Page.ni x < List.length Page.NOTES)%nat
                               /\ 0 <= Page.wave x <= 2)));
      [constructor | assumption].
Qed.

Lemma page_ok_set_drm ti s v p :
  Page.ok p -> Page.ok (Page.set_drm ti s v p).
Proof.
  intros []. constructor; cbn [Page.melPat Page.drmPat Page.curWave
                               Page.set_drm]; try assumption.
  - now rewrite length_upd.
  - apply Forall_upd_within; [|assumption]. intros Ht.
    rewrite length_upd. now apply (row_length _ 16%nat).
Qed.

Lemma page_ok_cell ti s p :
  Page.ok p ->
  (Page.ni (Page.mel ti s p) < List.length Page.NOTES)%nat
  /\ 0 <= Page.wave (Page.mel ti s p) <= 2.
Proof.
  intros H. unfold Page.mel.
  apply (Forall_nth_default
           (fun x => (Page.ni x < List.length Page.NOTES)%nat
                     /\ 0 <= Page.wave x <= 2)); [cbn; lia|].
  apply (Forall_nth_default
           (Forall (fun x => (Page.ni x < List.length Page.NOTES)%nat
                             /\ 0 <= Page.wave x <= 2)));
    [constructor | apply H].
Qed.

Lemma clearTracks_shape ti l :
  List.length (Page.clearTracks ti l) = List.length l
  /\ (Forall (fun t => List.length t = 16%nat) l ->
      Forall (fun t => List.length t = 16%nat) (Page.clearTracks ti l))
  /\ Forall (Forall (fun x => (Page.ni x < List.length Page.NOTES)%nat
                              /\ 0 <= Page.wave x <= 2))
            (Page.clearTracks ti l)
  /\ forall t s, Page.ni (nth s (nth t (Page.clearTracks ti l) [])
                              (Page.mkStep 0 0)) = 0%nat.
Proof.
  revert ti; induction l as [|r l IH]; intros ti; cbn [Page.clearTracks].
  - repeat split; try constructor. intros [|t] [|s]; reflexivity.
  - destruct (IH (S ti)) as (H1 & H2 & H3 & H4).
    split; [cbn [List.length]; now rewrite H1|].
    split; [|split].
    + intros H. inversion H as [|? ? Hr Hl]; subst. constructor;
        [now rewrite length_map | now apply H2].
    + constructor; [|exact H3].
      apply Forall_forall. intros x Hx. apply in_map_iff in Hx as (? & <- & _).
      cbn. destruct (Nat.eqb ti 1); lia.
    + intros [|t] s; cbn [nth]; [|apply H4].
      destruct (Nat.lt_ge_cases s (List.length r)) as [Hs | Hs].
      * pose proof (nth_In (map (fun _ => Page.mkStep 0
                                          (if Nat.eqb ti 1 then 1 else 0)) r)
                           (Page.mkStep 0 0)
                           ltac:(rewrite length_map; exact Hs)) as Hin.
        apply in_map_iff in Hin as (? & <- & _). reflexivity.
      * rewrite nth_overflow by now rewrite length_map. reflexivity.
Qed.

Lemma cleared_drums l t s :
  nth s (nth t (map (map (fun _ : bool => false)) l) []) false = false.
Proof.
  set (row := nth t (map (map (fun _ : bool => false)) l) []).
  assert (Hrow : forall x, In x row -> x = false).
  { intros x Hx. unfold row in Hx.
    destruct (Nat.lt_ge_cases t (List.length l)) as [Ht | Ht].
    - pose proof (nth_In (map (map (fun _ : bool => false)) l) []
                         ltac:(rewrite length_map; exact Ht)) as Hin.
      apply in_map_iff in Hin as (r & Hr & _). rewrite <- Hr in Hx.
      now apply in_map_iff in Hx as (? & <- & _).
    - rewrite nth_overflow in Hx by now rewrite length_map. destruct Hx. }
  destruct (Nat.lt_ge_cases s (List.length row)) as [Hs | Hs].
  - apply Hrow. now apply nth_In.
  - now apply nth_overflow.
Qed.

(** ** Page and device stay in step *)

Lemma control_pattern a b : sameControl a b -> samePattern a b.
Proof.
  intros (_ & Hw & Hm & Hd & Hp & _). now repeat split.
Qed.

Lemma samePattern_trans a b c :
  samePattern a b -> samePattern b c -> samePattern a c.
Proof.
  intros (A1 & A2 & A3 & A4) (B1 & B2 & B3 & B4).
  repeat split; congruence.
Qed.

Lemma samePattern_loopSequencer now st :
  samePattern st (fst (loopSequencer now st)).
Proof.
  unfold loopSequencer. destruct (seqPlay st) eqn:Ep;
    [|now repeat split].
  destruct (_ >=? _); [|now repeat split]. cbn [fst].
  set (st1 := set_lastStepMs _ st).
  pose proof (control_pattern _ _
                (trigSequencerStep_control (Z.to_nat (seqStep st1)) st1))
    as (H1 & H2 & H3 & H4).
  repeat split; cbn [melPat drmPat liveWave seqPlay set_seqStep];
    [rewrite <- H1 | rewrite <- H2 | rewrite <- H3 | rewrite <- H4];
    reflexivity.
Qed.

Lemma samePattern_handle ev st :
  match ev with EvWs _ _ => False | _ => True end ->
  samePattern st (handle ev st).
Proof.
  destruct ev as [msg now | now | | | fname loopsStr sd]; intros Hev;
    cbn [handle]; [contradiction | | now repeat split | now repeat split |].
  - unfold loop.
    pose proof (samePattern_loopSequencer now st) as H1.
    destruct (loopSequencer now st) as [st1 note]. cbn [fst] in H1.
    unfold loopAudio.
    pose proof (control_pattern _ _ (renderFrames_control BUF_SZ st1)) as H2.
    destruct (renderFrames BUF_SZ st1) as [mixes st2]. cbn [fst snd] in *.
    now apply (samePattern_trans _ st1).
  - apply (preserved_menuExport (samePattern st)).
    + intros c s H. apply (samePattern_trans _ s); [exact H|].
      apply control_pattern, synthSample_control.
    + intros k s H. apply (samePattern_trans _ s); [exact H|].
      apply control_pattern, trigSequencerStep_control.
    + intros s H. apply (samePattern_trans _ s); [exact H|].
      apply control_pattern, resetChannels_control.
    + now repeat split.
Qed.

Lemma mirrors_pattern p a b :
  samePattern a b -> mirrors p a -> mirrors p b.
Proof.
  intros (H1 & H2 & H3 & H4) (M1 & M2 & M3 & M4).
  unfold mirrors, mel, drm in *. rewrite <- H1, <- H2, <- H3, <- H4.
  split; [exact M1 | split; [exact M2 | split; [exact M3 | exact M4]]].
Qed.

Lemma mirrors_cell ti s x p st :
  (ti < 2)%nat -> (s < 16)%nat ->
  Page.ok p -> wellFormed st -> mirrors p st ->
  mirrors (Page.set_mel ti s x p)
          (set_mel ti s (mkMelStep (F32.of_Z (Page.freqOf x)) (Page.wave x))
                   st).
Proof.
  intros Ht Hs Hp Hst (M1 & M2 & M3 & M4).
  split; [|split; [|split]].
  - intros t' s' Ht' Hs'.
    rewrite mel_set_mel by (try assumption; unfold NUM_MEL_TRK, NUM_STEPS; lia).
    rewrite page_mel_set_mel by assumption.
    destruct (Nat.eqb ti t' && Nat.eqb s s')%bool; [now split | now apply M1].
  - exact M2.
  - exact M3.
  - exact M4.
Qed.

Lemma mirrors_drum ti s v p st :
  (ti < 3)%nat -> (s < 16)%nat ->
  Page.ok p -> wellFormed st -> mirrors p st ->
  mirrors (Page.set_drm ti s v p) (set_drm ti s v st).
Proof.
  intros Ht Hs Hp Hst (M1 & M2 & M3 & M4).
  split; [|split; [|split]].
  - exact M1.
  - intros t' s' Ht' Hs'.
    rewrite drm_set_drm by (try assumption; unfold NUM_DRM_TRK, NUM_STEPS; lia).
    rewrite page_drm_set_drm by assumption.
    destruct (Nat.eqb ti t' && Nat.eqb s s')%bool; [reflexivity | now apply M2].
  - exact M3.
  - exact M4.
Qed.

Lemma releaseNote_pattern c st : samePattern st (releaseNote c st).
Proof. apply control_pattern, releaseNote_control. Qed.

Lemma act_mirrors now a p st :
  offered a -> Page.ok p -> wellFormed st -> mirrors p st ->
  Page.ok (fst (act now a (p, st)))
  /\ wellFormed (snd (act now a (p, st)))
  /\ mirrors (fst (act now a (p, st))) (snd (act now a (p, st))).
Proof.
  intros Ha Hp Hst Hm.
  destruct a as [ti s | ti s | ti s | w | | | | ev];
    cbn [act offered fst snd deliver fold_left
         Page.cycleMel Page.clearMel Page.toggleDrm Page.setWave
         Page.clearAll Page.stopSeq] in *.
  - (* cycleMel *)
    destruct Ha as [Ht Hs].
    set (x := Page.mkStep _ _).
    assert (Hn : (Page.ni x < List.length Page.NOTES)%nat)
      by (cbn [x Page.ni]; apply Nat.mod_upper_bound; discriminate).
    assert (Hw : 0 <= Page.wave x <= 2) by (cbn [x Page.wave]; apply Hp).
    pose proof (freqOf_range x) as Hf.
    rewrite message_SEQ_SET by (try assumption; lia).
    split; [now apply page_ok_set_mel|].
    split; [apply wellFormed_set_mel; [exact Hw | exact Hst]|].
    now apply mirrors_cell.
  - (* clearMel *)
    destruct Ha as [Ht Hs].
    set (x := Page.mkStep _ _).
    assert (Hn : (Page.ni x < List.length Page.NOTES)%nat) by (cbn; lia).
    assert (Hw : 0 <= Page.wave x <= 2) by (cbn [x Page.wave]; apply Hp).
    pose proof (freqOf_range x) as Hf.
    rewrite message_SEQ_SET by (try assumption; lia).
    split; [now apply page_ok_set_mel|].
    split; [apply wellFormed_set_mel; [exact Hw | exact Hst]|].
    now apply mirrors_cell.
  - (* toggleDrm *)
    destruct Ha as [Ht Hs].
    rewrite message_SEQ_DRUM by assumption.
    split; [now apply page_ok_set_drm|].
    split; [now apply wellFormed_set_drm|].
    now apply mirrors_drum.
  - (* setWave *)
    rewrite message_WAVE by lia. rewrite constrain_within by exact Ha.
    split; [destruct Hp; constructor; assumption|].
    split.
    + destruct Hst; constructor; assumption.
    + destruct Hm as (M1 & M2 & M3 & M4).
      split; [exact M1 | split; [exact M2 | split; [try exact M3 | try exact M4]]];
        cbn; congruence.
  - (* clearAll *)
    destruct (clearTracks_shape 0 (Page.melPat p)) as (C1 & C2 & C3 & C4).
    split; [|split].
    + destruct Hp. constructor; cbn [Page.melPat Page.drmPat Page.curWave];
        try assumption.
      * now rewrite C1.
      * now apply C2.
      * now rewrite length_map.
      * apply Forall_forall. intros r Hr.
        apply in_map_iff in Hr as (r0 & <- & Hr0). rewrite length_map.
        now apply (proj1 (Forall_forall _ _) ok_drmSteps).
    + now apply wellFormed_onWsEvent.
    + destruct Hm as (M1 & M2 & M3 & M4).
      change (onWsEvent "SEQ_CLEAR" now st)
        with (releaseNote CH_BASS
                (releaseNote CH_LEAD
                   (set_drmPat (repeat (repeat false NUM_STEPS) NUM_DRM_TRK)
                      (set_melPat
                         (repeat (repeat MelStep0 NUM_STEPS) NUM_MEL_TRK)
                         st)))).
      apply (mirrors_pattern _ _ _ (releaseNote_pattern CH_BASS _)).
      apply (mirrors_pattern _ _ _ (releaseNote_pattern CH_LEAD _)).
      split; [|split; [|split]]; [| |exact M3 | exact M4].
      * intros ti s Ht Hs.
        assert (Hrest : Page.freqOf
                          (Page.mel ti s
                             (Page.mkState
                                (Page.clearTracks 0 (Page.melPat p))
                                (map (map (fun _ => false)) (Page.drmPat p))
                                (Page.curWave p) (Page.seqRunning p))) = 0).
        { unfold Page.freqOf, Page.mel; cbn [Page.melPat]. now rewrite C4. }
        rewrite Hrest. split; [|intros []; reflexivity].
        do 2 (destruct ti as [|ti]; [do 16 (destruct s as [|s]; [reflexivity|]); lia|]).
        lia.
      * intros ti s Ht Hs. unfold Page.drm; cbn [Page.drmPat].
        rewrite cleared_drums.
        do 3 (destruct ti as [|ti]; [do 16 (destruct s as [|s]; [reflexivity|]); lia|]).
        lia.
  - (* togglePlay *)
    unfold Page.togglePlay.
    destruct (Page.seqRunning p); cbn [fst snd deliver fold_left].
    + split; [destruct Hp; constructor; assumption|].
      split; [now apply wellFormed_onWsEvent|].
      change (onWsEvent "SEQ_STOP" now st)
        with (releaseNote CH_BASS (releaseNote CH_LEAD (set_seqPlay false st))).
      apply (mirrors_pattern _ _ _ (releaseNote_pattern CH_BASS _)).
      apply (mirrors_pattern _ _ _ (releaseNote_pattern CH_LEAD _)).
      destruct Hm as (M1 & M2 & M3 & M4).
      split; [exact M1 | split; [exact M2 | split; [try exact M3 | try exact M4]]];
        cbn; congruence.
    + split; [destruct Hp; constructor; assumption|].
      split; [now apply wellFormed_onWsEvent|].
      destruct Hm as (M1 & M2 & M3 & M4).
      split; [exact M1 | split; [exact M2 | split; [try exact M3 | try exact M4]]];
        cbn; congruence.
  - (* stopSeq *)
    split; [destruct Hp; constructor; assumption|].
    split; [now apply wellFormed_onWsEvent|].
    change (onWsEvent "SEQ_STOP" now st)
      with (releaseNote CH_BASS (releaseNote CH_LEAD (set_seqPlay false st))).
    apply (mirrors_pattern _ _ _ (releaseNote_pattern CH_BASS _)).
    apply (mirrors_pattern _ _ _ (releaseNote_pattern CH_LEAD _)).
    destruct Hm as (M1 & M2 & M3 & M4).
      split; [exact M1 | split; [exact M2 | split; [try exact M3 | try exact M4]]];
        cbn; congruence.
  - (* the device on its own *)
    split; [exact Hp|].
    split; [now apply wellFormed_handle|].
    apply (mirrors_pattern _ st); [|exact Hm].
    apply samePattern_handle. destruct ev; [contradiction | exact I..].
Qed.

Lemma page_ok_State0 : Page.ok Page.State0.
Proof.
  constructor; cbn [Page.melPat Page.drmPat Page.curWave Page.State0];
    try reflexivity; try lia; try apply length_repeat_rows.
  - constructor; [apply repeat_length|].
    constructor; [apply repeat_length | constructor].
  - constructor; [|constructor; [|constructor]];
      apply Forall_forall; intros x Hx;
      apply repeat_spec in Hx as ->; cbn; lia.
Qed.

Lemma mirrors_start : mirrors Page.State0 Synth0.
Proof.
  split; [|split; [|split; reflexivity]].
  - intros ti s Ht Hs.
    do 2 (destruct ti as [|ti];
          [do 16 (destruct s as [|s];
                  [split; [reflexivity | intros H; now contradiction H]|]);
           lia|]).
    lia.
  - intros ti s Ht Hs.
    do 3 (destruct ti as [|ti];
          [do 16 (destruct s as [|s]; [reflexivity|]); lia|]).
    lia.
Qed.

Lemma session_mirrors (acts : list (Z * Action)) p st :
  Forall (fun a => offered (snd a)) acts ->
  Page.ok p -> wellFormed st -> mirrors p st ->
  let ps := fold_left (fun ps a => act (fst a) (snd a) ps) acts (p, st) in
  Page.ok (fst ps) /\ wellFormed (snd ps) /\ mirrors (fst ps) (snd ps).
Proof.
  revert p st; induction acts as [|[now a] acts IH]; intros p st Ha Hp Hst Hm;
    [cbn [fold_left fst snd]; split; [exact Hp | split; [exact Hst | exact Hm]]|].
  inversion Ha as [|? ? Ha1 Ha2]; subst. cbn [fold_left fst snd] in *.
  destruct (act_mirrors now a p st Ha1 Hp Hst Hm) as (Hp' & Hst' & Hm').
  destruct (act now a (p, st)) as [p' st']. now apply IH.
Qed.

(** X7: the device keeps the pattern the page shows.  From a freshly
    loaded page and a freshly started device, after any sequence of grid
    clicks (cycle, clear, toggle), waveform selections, CLEAR ALL, play and
    stop, interleaved with the device's own service-loop iterations, volume
    keys and exports, and with every message of the page delivered in
    order: every melodic step of the device holds the frequency of the
    note the grid cell shows (0 for a rest) and, unless it is a rest, the
    cell's waveform; every drum step equals its cell; the live waveform
    and the running flag equal the page's. *)
Theorem page_mirrors_device (acts : list (Z * Action)) :
  Forall (fun a => offered (snd a)) acts ->
  mirrors (fst (session acts)) (snd (session acts)).
Proof.
  intros Ha.
  apply (session_mirrors acts Page.State0 Synth0 Ha page_ok_State0
           wellFormed_Synth0 mirrors_start).
Qed.

Lemma page_mirrors_device_witness :
  mirrors (fst (session [(0, ACycle 0 3); (0, AWave 2); (5, ACycle 1 3);
                         (7, AToggle 2 15); (9, ATogglePlay);
                         (130, ADevice (EvLoop 130)); (140, AClear 0 3)]))
          (snd (session [(0, ACycle 0 3); (0, AWave 2); (5, ACycle 1 3);
                         (7, AToggle 2 15); (9, ATogglePlay);
                         (130, ADevice (EvLoop 130)); (140, AClear 0 3)])).
Proof.
  apply (page_mirrors_device
           [(0, ACycle 0 3); (0, AWave 2); (5, ACycle 1 3);
            (7, AToggle 2 15); (9, ATogglePlay);
            (130, ADevice (EvLoop 130)); (140, AClear 0 3)]).
  repeat constructor; cbn; lia.
Defined.

(** X8: the page's controls reach the device as set: the volume slider at
    [v] of 0..30 sets the volume to 1000 v, a whole BPM sets the BPM
    clamped to 40..240, and pressing a piano key starts the Lead voice at
    exactly the key's frequency with the live waveform. *)
Theorem page_controls_reach_device (v n f now : Z) (st : Synth) :
  0 <= v <= 30 -> - 2 ^ 31 <= n < 2 ^ 31 -> In f (Page.WKS ++ Page.BKS) ->
  onWsEvent (Page.setVol v) now st = set_gAmp (v * 1000) st
  /\ onWsEvent (Page.setBPM n) now st = set_seqBPM (constrain n 40 240) st
  /\ onWsEvent (Page.pressKey f) now st
     = trigNote CH_LEAD (F32.of_Z f) (liveWave st) st.
Proof.
  intros Hv Hn Hf. split; [|split].
  - unfold Page.setVol. rewrite message_VOL by lia.
    now rewrite constrain_within by lia.
  - unfold Page.setBPM. now apply message_SEQ_BPM.
  - unfold Page.pressKey. apply message_PLAY.
    cbn [Page.WKS Page.BKS app In] in Hf.
    repeat (destruct Hf as [<- | Hf]; [lia|]). destruct Hf.
Qed.

Lemma page_controls_reach_device_witness :
  onWsEvent (Page.setVol 30) 0 Synth0 = set_gAmp (30 * 1000) Synth0
  /\ onWsEvent (Page.setBPM 300) 0 Synth0
     = set_seqBPM (constrain 300 40 240) Synth0
  /\ onWsEvent (Page.pressKey 440) 0 Synth0
     = trigNote CH_LEAD (F32.of_Z 440) (liveWave Synth0) Synth0.
Proof.
  apply (page_controls_reach_device 30 300 440 0 Synth0); [lia | lia|].
  cbn. do 12 right. left. reflexivity.
Defined.

(** ** What holds in every state of the engine *)

(** X9: no array access of the engine is out of bounds: in every state
    the engine passes through, the channel array has its 5 entries, the
    melodic pattern its 2 rows and the drum pattern its 3 rows of 16
    steps, the noise register array its 2 entries, and the step index the
    sequencer reads the patterns at is within 0..15.  The indices a step
    command brings from outside are clamped into the arrays: whatever
    numbers a complete [SEQ_SET] or [SEQ_DRUM] command names as track and
    step, the cell it writes is a cell of the pattern, so that reading it
    back gives the value written. *)
Theorem arrays_stay_in_bounds (st : Synth) :
  live st ->
  List.length (ch st) = NUM_CH
  /\ List.length (nlfsr st) = 2%nat
  /\ List.length (melPat st) = NUM_MEL_TRK
  /\ (forall t, (t < NUM_MEL_TRK)%nat ->
                List.length (nth t (melPat st) []) = NUM_STEPS)
  /\ List.length (drmPat st) = NUM_DRM_TRK
  /\ (forall t, (t < NUM_DRM_TRK)%nat ->
                List.length (nth t (drmPat st) []) = NUM_STEPS)
  /\ 0 <= seqStep st < Z.of_nat NUM_STEPS
  /\ (forall (a b c d : string) (now : Z),
        countChar "," a = 0%nat -> countChar "," b = 0%nat ->
        countChar "," c = 0%nat ->
        Z.of_nat (String.length a + String.length b + String.length c
                  + String.length d) < 2 ^ 31 ->
        let msg :=
          ("SEQ_SET:" ++ a ++ "," ++ b ++ "," ++ c ++ "," ++ d)%string in
        let m := mkMelStep (toFloat c) (constrain (toInt d) 0 2) in
        exists t s,
          (t < List.length (melPat st))%nat
          /\ (s < List.length (nth t (melPat st) []))%nat
          /\ onWsEvent msg now st = set_mel t s m st
          /\ mel t s (onWsEvent msg now st) = m)
  /\ (forall (a b d : string) (now : Z),
        countChar "," a = 0%nat -> countChar "," b = 0%nat ->
        Z.of_nat (String.length a + String.length b + String.length d)
        < 2 ^ 31 ->
        let msg := ("SEQ_DRUM:" ++ a ++ "," ++ b ++ "," ++ d)%string in
        let v := negb (toInt d =? 0) in
        exists t s,
          (t < List.length (drmPat st))%nat
          /\ (s < List.length (nth t (drmPat st) []))%nat
          /\ onWsEvent msg now st = set_drm t s v st
          /\ drm t s (onWsEvent msg now st) = v).
Proof.
  intros H. apply live_wellFormed in H.
  assert (Hm : forall t, (t < NUM_MEL_TRK)%nat ->
                         List.length (nth t (melPat st) []) = NUM_STEPS).
  { intros t Ht. apply row_length; [apply H|]. now rewrite (wf_mel _ H). }
  assert (Hd : forall t, (t < NUM_DRM_TRK)%nat ->
                         List.length (nth t (drmPat st) []) = NUM_STEPS).
  { intros t Ht. apply row_length; [apply H|]. now rewrite (wf_drm _ H). }
  split; [apply H|]. split; [apply H|]. split; [apply H|].
  split; [exact Hm|]. split; [apply H|]. split; [exact Hd|].
  split; [apply H|]. split.
  - intros a b c d now Ha Hb Hc Hlen msg m.
    pose proof (constrain_range (toInt a) 0 1 ltac:(lia)) as Rt.
    pose proof (constrain_range (toInt b) 0 15 ltac:(lia)) as Rs.
    assert (Ht : (Z.to_nat (constrain (toInt a) 0 1) < NUM_MEL_TRK)%nat)
      by (unfold NUM_MEL_TRK; lia).
    assert (Hs : (Z.to_nat (constrain (toInt b) 0 15) < NUM_STEPS)%nat)
      by (unfold NUM_STEPS; lia).
    exists (Z.to_nat (constrain (toInt a) 0 1)),
           (Z.to_nat (constrain (toInt b) 0 15)).
    assert (E : onWsEvent msg now st
                = set_mel (Z.to_nat (constrain (toInt a) 0 1))
                          (Z.to_nat (constrain (toInt b) 0 15)) m st).
    { apply decode_SEQ_SET; try assumption. len_tac. }
    split; [now rewrite (wf_mel _ H)|].
    split; [now rewrite (Hm _ Ht)|].
    split; [exact E|].
    rewrite E, (mel_set_mel _ _ _ _ _ _ H Ht Hs).
    now rewrite !Nat.eqb_refl.
  - intros a b d now Ha Hb Hlen msg v.
    pose proof (constrain_range (toInt a) 0 2 ltac:(lia)) as Rt.
    pose proof (constrain_range (toInt b) 0 15 ltac:(lia)) as Rs.
    assert (Ht : (Z.to_nat (constrain (toInt a) 0 2) < NUM_DRM_TRK)%nat)
      by (unfold NUM_DRM_TRK; lia).
    assert (Hs : (Z.to_nat (constrain (toInt b) 0 15) < NUM_STEPS)%nat)
      by (unfold NUM_STEPS; lia).
    exists (Z.to_nat (constrain (toInt a) 0 2)),
           (Z.to_nat (constrain (toInt b) 0 15)).
    assert (E : onWsEvent msg now st
                = set_drm (Z.to_nat (constrain (toInt a) 0 2))
                          (Z.to_nat (constrain (toInt b) 0 15)) v st).
    { apply decode_SEQ_DRUM; try assumption. len_tac. }
    split; [now rewrite (wf_drm _ H)|].
    split; [now rewrite (Hd _ Ht)|].
    split; [exact E|].
    rewrite E, (drm_set_drm _ _ _ _ _ _ H Ht Hs).
    now rewrite !Nat.eqb_refl.
Qed.

(** A command naming track 9 and step 99, on the engine at power-up: the
    write lands in the last cell of the last melodic track. *)
Lemma arrays_stay_in_bounds_witness :
  List.length (melPat Synth0) = NUM_MEL_TRK
  /\ 0 <= seqStep Synth0 < Z.of_nat NUM_STEPS
  /\ exists t s,
       (t < List.length (melPat Synth0))%nat
       /\ (s < List.length (nth t (melPat Synth0) []))%nat
       /\ onWsEvent "SEQ_SET:9,99,440,1" 0 Synth0
          = set_mel t s (mkMelStep (toFloat "440") 1) Synth0
       /\ mel t s (onWsEvent "SEQ_SET:9,99,440,1" 0 Synth0)
          = mkMelStep (toFloat "440") 1.
Proof.
  destruct (arrays_stay_in_bounds Synth0 live_start)
    as (_ & _ & Hm & _ & _ & _ & Hs & Hw & _).
  split; [exact Hm | split; [exact Hs|]].
  apply (Hw "9"%string "99"%string "440"%string "1"%string 0); reflexivity.
Defined.

(** X10: the control values stay within their ranges: in every state the
    engine passes through, the volume is within 0..30000, the live
    waveform within 0..2, the BPM within 40..240, so that a sequencer step
    lasts between 62 and 375 ms and its computation never divides by
    zero, and the step clock is a 32-bit value. *)
Theorem controls_stay_in_range (st : Synth) :
  live st ->
  0 <= gAmp st <= 30000
  /\ 0 <= liveWave st <= 2
  /\ 40 <= seqBPM st <= 240
  /\ 62 <= stepDurMs (seqBPM st) <= 375
  /\ 0 <= lastStepMs st < 2 ^ 32.
Proof.
  intros H. apply live_wellFormed in H. destruct H.
  split; [assumption | split; [assumption | split; [assumption|]]].
  split; [|assumption].
  unfold stepDurMs. rewrite u32_small by lia. split.
  - apply Z.div_le_lower_bound; [lia|].
    apply Z.div_le_lower_bound; [lia|]. lia.
  - apply Z.div_le_upper_bound; [lia|].
    apply Z.div_le_upper_bound; [lia|]. lia.
Qed.

Lemma controls_stay_in_range_witness :
  let st := handle EvKeyPlus (handle (EvWs "SEQ_BPM:-7" 0)
                                (handle (EvWs "VOL:29500" 0) Synth0)) in
  0 <= gAmp st <= 30000
  /\ 0 <= liveWave st <= 2
  /\ 40 <= seqBPM st <= 240
  /\ 62 <= stepDurMs (seqBPM st) <= 375
  /\ 0 <= lastStepMs st < 2 ^ 32.
Proof.
  intros st. apply (controls_stay_in_range st).
  do 3 apply live_handle. apply live_start.
Defined.

(** X11: every voice has a waveform the synthesis knows: in every state
    the engine passes through, the waveform selector of every channel and
    of every pattern step is 0, 1 or 2, so a sounding tonal voice always
    takes one of the three cases of the switch; and only the Snare and Hat
    channels are noise voices. *)
Theorem voices_have_waveform (st : Synth) :
  live st ->
  (forall c, (c < NUM_CH)%nat ->
     waveOk (waveType (chan c st))
     /\ (isNoise (chan c st) = true -> c = CH_SNARE \/ c = CH_HAT))
  /\ (forall t s, waveOk (wave (mel t s st))).
Proof.
  intros H. apply live_wellFormed in H. split.
  - intros c Hc. split; [now apply H|].
    intros Hn. unfold NUM_CH, CH_SNARE, CH_HAT in *.
    destruct (Nat.lt_ge_cases c 3) as [Hlt | Hge]; [|lia].
    rewrite (wf_tonal _ H c Hlt) in Hn. discriminate.
  - intros t s. now apply wellFormed_mel_wave.
Qed.

Lemma voices_have_waveform_witness :
  let st := handle (EvWs "PLAY:440" 0) (handle (EvWs "WAVE:7" 0) Synth0) in
  (forall c, (c < NUM_CH)%nat ->
     waveOk (waveType (chan c st))
     /\ (isNoise (chan c st) = true -> c = CH_SNARE \/ c = CH_HAT))
  /\ (forall t s, waveOk (wave (mel t s st))).
Proof.
  intros st. apply (voices_have_waveform st).
  do 2 apply live_handle. apply live_start.
Defined.

(** X12: the noise generators never stall: in every state the engine
    passes through, both noise registers hold a nonzero 16-bit value, so
    the register of a noise voice keeps moving through its cycle of 65535
    states and never sticks at 0. *)
Theorem noise_registers_alive (st : Synth) (i : nat) :
  live st -> (i < 2)%nat ->
  0 < nth i (nlfsr st) 0 < 2 ^ 16
  /\ 0 < lfsrNext (nth i (nlfsr st) 0) < 2 ^ 16.
Proof.
  intros H Hi. apply live_wellFormed in H.
  assert (Hr : 0 < nth i (nlfsr st) 0 < 2 ^ 16).
  { apply (proj1 (Forall_forall _ (nlfsr st)) (wf_noise _ H)).
    apply nth_In. now rewrite (wf_nlfsr _ H). }
  split; [exact Hr|].
  destruct (lfsr_table (nth i (nlfsr st) 0) ltac:(lia)) as (H1 & _ & H2).
  specialize (H2 ltac:(lia)). lia.
Qed.

Lemma noise_registers_alive_witness :
  let st := snd (mixFrame (trigSequencerStep 0
                  (handle (EvWs "SEQ_DRUM:1,0,1" 0) Synth0))) in
  0 < nth 0 (nlfsr st) 0 < 2 ^ 16
  /\ 0 < lfsrNext (nth 0 (nlfsr st) 0) < 2 ^ 16.
Proof.
  intros st. apply (noise_registers_alive st 0).
  - apply live_frame, live_step, live_handle, live_start.
  - lia.
Defined.

(** ** The service loop *)

Lemma loop_step now st :
  let '(st1, note, _) := loop now st in
  (note = None /\ seqStep st1 = seqStep st)
  \/ (note = Some (seqStep st)
      /\ seqStep st1 = Z.rem (seqStep st + 1) (Z.of_nat NUM_STEPS)).
Proof.
  unfold loop.
  assert (H1 : let '(st1, note) := loopSequencer now st in
               (note = None /\ seqStep st1 = seqStep st)
               \/ (note = Some (seqStep st)
                   /\ seqStep st1
                      = Z.rem (seqStep st + 1) (Z.of_nat NUM_STEPS))).
  { unfold loopSequencer. destruct (seqPlay st); [|now left].
    destruct (_ >=? _); [|now left]. right.
    set (st1 := set_lastStepMs _ st).
    destruct (trigSequencerStep_control (Z.to_nat (seqStep st1)) st1)
      as (_ & _ & _ & _ & _ & _ & Hs & _).
    cbn [seqStep set_seqStep]. rewrite <- Hs. now split. }
  destruct (loopSequencer now st) as [st1 note].
  pose proof (loopAudio_control st1) as H2.
  destruct (loopAudio st1) as [buf st2]. cbn [snd] in H2.
  destruct H2 as (_ & _ & _ & _ & _ & _ & Hs & _).
  rewrite <- Hs. exact H1.
Qed.

(** X13: the sequencer announces the steps in order: over any number of
    service-loop iterations at any times, the steps that fire are the
    sequencer's current step, the next one, and so on, wrapping from 15 to
    0; none is skipped or repeated, however late an iteration comes. *)
Theorem steps_fire_in_order (nows : list Z) (st : Synth) :
  0 <= seqStep st < 16 ->
  let '(st', notes) := runLoops nows st in
  notes = map (fun i => (seqStep st + Z.of_nat i) mod 16)
              (seq 0 (List.length notes))
  /\ seqStep st' = (seqStep st + Z.of_nat (List.length notes)) mod 16.
Proof.
  revert st; induction nows as [|now nows IH]; intros st Hs.
  - cbn [runLoops List.length seq map]. split; [reflexivity|].
    rewrite Z.add_0_r, Z.mod_small; lia.
  - cbn [runLoops].
    pose proof (loop_step now st) as H1.
    destruct (loop now st) as [[st1 note] buf].
    assert (Hs1 : 0 <= seqStep st1 < 16).
    { destruct H1 as [[_ ->] | [_ ->]]; [exact Hs|].
      change (Z.of_nat NUM_STEPS) with 16.
      rewrite Z.rem_mod_nonneg by lia. apply Z.mod_pos_bound. lia. }
    specialize (IH st1 Hs1).
    destruct (runLoops nows st1) as [st2 notes].
    destruct IH as (Hn & Hst).
    destruct H1 as [[-> E] | [-> E]].
    + rewrite E in *. now split.
    + change (Z.of_nat NUM_STEPS) with 16 in E.
      rewrite Z.rem_mod_nonneg in E by lia.
      cbn [List.length seq map]. split.
      * rewrite Z.add_0_r, Z.mod_small by lia. f_equal.
        rewrite Hn at 1. rewrite <- seq_shift, map_map.
        apply map_ext. intros i. rewrite E.
        rewrite Zplus_mod_idemp_l. f_equal. lia.
      * rewrite Hst, E. rewrite Zplus_mod_idemp_l. f_equal. lia.
Qed.

Lemma steps_fire_in_order_witness :
  let st := onWsEvent "SEQ_PLAY" 0 Synth0 in
  let '(st', notes) := runLoops [125; 250; 375] st in
  notes = map (fun i => (seqStep st + Z.of_nat i) mod 16)
              (seq 0 (List.length notes))
  /\ seqStep st' = (seqStep st + Z.of_nat (List.length notes)) mod 16.
Proof.
  intros st. apply (steps_fire_in_order [125; 250; 375] st). cbn. lia.
Defined.

Lemma clampSample_range mix : -32767 <= clampSample mix <= 32767.
Proof.
  unfold clampSample.
  pose proof (constrain_range mix (-32767) 32767 ltac:(lia)) as H.
  rewrite i16_small by lia. exact H.
Qed.

Lemma stereo_shape (mixes : list Z) :
  List.length (stereo mixes) = (2 * List.length mixes)%nat
  /\ Forall (fun v => -32767 <= v <= 32767) (stereo mixes)
  /\ forall i, (i < List.length mixes)%nat ->
       nth (2 * i) (stereo mixes) 0 = clampSample (nth i mixes 0)
       /\ nth (2 * i + 1) (stereo mixes) 0 = clampSample (nth i mixes 0).
Proof.
  unfold stereo. induction mixes as [|m l (IH1 & IH2 & IH3)];
    cbn [flat_map List.length app].
  - split; [reflexivity | split; [constructor | intros i Hi; lia]].
  - split; [lia | split].
    + repeat constructor; try apply clampSample_range. exact IH2.
    + intros [|i] Hi; [now split|].
      replace (2 * S i)%nat with (S (S (2 * i))) by lia.
      replace (S (S (2 * i)) + 1)%nat with (S (S (2 * i + 1))) by lia.
      cbn [nth]. apply IH3. lia.
Qed.

(** X14: every buffer handed to the audio output is well formed: an
    iteration of the service loop, in any state and at any time, produces
    exactly 64 stereo frames (128 samples), every sample within
    -32767..32767 (never -32768), and the right sample of each frame
    equal to the left. *)
Theorem loop_buffer_well_formed (now : Z) (st : Synth) (i : nat) :
  (i < BUF_SZ)%nat ->
  let buf := snd (loop now st) in
  List.length buf = (2 * BUF_SZ)%nat
  /\ Forall (fun v => -32767 <= v <= 32767) buf
  /\ nth (2 * i) buf 0 = nth (2 * i + 1) buf 0.
Proof.
  intros Hi. unfold loop.
  destruct (loopSequencer now st) as [st1 note]. unfold loopAudio.
  pose proof (length_renderFrames BUF_SZ st1) as Hl.
  destruct (renderFrames BUF_SZ st1) as [mixes st2]. cbn [fst snd] in *.
  destruct (stereo_shape mixes) as (H1 & H2 & H3).
  split; [now rewrite H1, Hl | split; [exact H2|]].
  destruct (H3 i ltac:(now rewrite Hl)) as (-> & ->). reflexivity.
Qed.

Lemma loop_buffer_well_formed_witness :
  let buf := snd (loop 125 (onWsEvent "PLAY:440" 0 Synth0)) in
  List.length buf = (2 * BUF_SZ)%nat
  /\ Forall (fun v => -32767 <= v <= 32767) buf
  /\ nth (2 * 63) buf 0 = nth (2 * 63 + 1) buf 0.
Proof.
  apply (loop_buffer_well_formed 125 (onWsEvent "PLAY:440" 0 Synth0) 63).
  unfold BUF_SZ. lia.
Defined.

(** X15: an idle engine stays as it is and is silent: with the sequencer
    stopped and no channel active, an iteration of the service loop leaves
    the whole engine state unchanged, announces no step and outputs 128
    zero samples. *)
Theorem idle_loop_is_silent (now : Z) (st : Synth) :
  seqPlay st = false -> silent st ->
  loop now st = (st, None, repeat 0 (2 * BUF_SZ)).
Proof.
  intros Hp Hs. unfold loop, loopSequencer. rewrite Hp. unfold loopAudio.
  assert (H : forall n, renderFrames n st = (repeat 0 n, st)).
  { induction n as [|n IH]; [reflexivity|].
    cbn [renderFrames]. rewrite mixFrame_silent by exact Hs.
    now rewrite IH. }
  rewrite H. reflexivity.
Qed.

Lemma idle_loop_is_silent_witness :
  loop 1000 Synth0 = (Synth0, None, repeat 0 (2 * BUF_SZ)).
Proof.
  apply (idle_loop_is_silent 1000 Synth0); [reflexivity|].
  intros c Hc. unfold NUM_CH in Hc.
  do 5 (destruct c as [|c]; [reflexivity|]). lia.
Defined.

(** X16: a stopped sequencer stays stopped: after a stop command, however
    many service-loop iterations follow and whenever they come, no step
    fires, the Lead and Bass channels stay inactive, and the run flag
    stays off. *)
Theorem stopped_sequencer_stays_stopped (nows : list Z) (now : Z) (st : Synth) :
  List.length (ch st) = NUM_CH ->
  let '(st', notes) := runLoops nows (onWsEvent "SEQ_STOP" now st) in
  notes = []
  /\ seqPlay st' = false
  /\ active (chan CH_LEAD st') = false
  /\ active (chan CH_BASS st') = false.
Proof.
  intros Hl.
  set (J := fun s : Synth =>
              seqPlay s = false /\ List.length (ch s) = NUM_CH
              /\ active (chan CH_LEAD s) = false
              /\ active (chan CH_BASS s) = false).
  assert (Jv : forall c s, J s -> J (snd (synthSample c s))).
  { intros c s (Hp & Hn & Ha & Hb).
    destruct (synthSample_control c s) as (_ & _ & _ & _ & Hp' & _).
    assert (Hk : forall c', (c' < NUM_CH)%nat -> active (chan c' s) = false ->
                            active (chan c' (snd (synthSample c s))) = false).
    { intros c' Hc' Hf. destruct (Nat.eq_dec c c') as [<- | Hne].
      - rewrite chan_synthSample_same by (rewrite Hn; exact Hc').
        destruct (active (voiceNext (chan c s))) eqn:E; [|reflexivity].
        apply active_voiceNext in E. congruence.
      - now rewrite chan_synthSample_other. }
    split; [congruence|].
    split; [now rewrite length_ch_synthSample|].
    split; apply Hk; try assumption; unfold CH_LEAD, CH_BASS, NUM_CH; lia. }
  assert (Jl : forall t s, J s ->
                 J (fst (fst (loop t s))) /\ snd (fst (loop t s)) = None).
  { intros t s Hs. pose proof Hs as (Hp & _).
    unfold loop, loopSequencer. rewrite Hp. unfold loopAudio.
    pose proof (preserved_renderFrames J Jv BUF_SZ s Hs) as H.
    destruct (renderFrames BUF_SZ s) as [mixes s2]. now split. }
  assert (H0 : J (onWsEvent "SEQ_STOP" now st)).
  { change (onWsEvent "SEQ_STOP" now st)
      with (releaseNote CH_BASS (releaseNote CH_LEAD (set_seqPlay false st))).
    unfold J, releaseNote.
    split; [reflexivity|].
    split; [now rewrite !length_ch_put|].
    split.
    - rewrite chan_put_other by (unfold CH_BASS, CH_LEAD; lia).
      rewrite chan_put_same; [reflexivity|].
      cbn [ch set_seqPlay]. rewrite Hl. unfold CH_LEAD, NUM_CH. lia.
    - rewrite chan_put_same; [reflexivity|].
      rewrite length_ch_put. cbn [ch set_seqPlay]. rewrite Hl.
      unfold CH_BASS, NUM_CH. lia. }
  revert H0. generalize (onWsEvent "SEQ_STOP" now st).
  induction nows as [|t nows IH]; intros s Hs.
  - cbn [runLoops]. destruct Hs as (Hp & _ & Ha & Hb). now repeat split.
  - cbn [runLoops]. destruct (Jl t s Hs) as (Hs1 & Hnote).
    destruct (loop t s) as [[s1 note] buf]. cbn [fst snd] in *. subst note.
    specialize (IH s1 Hs1). destruct (runLoops nows s1) as [s2 notes].
    exact IH.
Qed.

Lemma stopped_sequencer_stays_stopped_witness :
  let '(st', notes) :=
    runLoops [125; 250; 100000]
             (onWsEvent "SEQ_STOP" 60
                (fst (fst (loop 130 (onWsEvent "SEQ_PLAY" 0 Synth0))))) in
  notes = []
  /\ seqPlay st' = false
  /\ active (chan CH_LEAD st') = false
  /\ active (chan CH_BASS st') = false.
Proof.
  apply (stopped_sequencer_stays_stopped [125; 250; 100000] 60
           (fst (fst (loop 130 (onWsEvent "SEQ_PLAY" 0 Synth0))))).
  vm_compute. reflexivity.
Defined.

(** ** Serial input *)

Lemma removeCR_plain s : countChar CR (removeCR s) = 0%nat.
Proof.
  induction s as [|a s IH]; [reflexivity|]. cbn [removeCR].
  destruct (Ascii.eqb a CR) eqn:E; [exact IH|].
  cbn [countChar]. now rewrite E.
Qed.

Lemma removeCR_id s : countChar CR s = 0%nat -> removeCR s = s.
Proof.
  induction s as [|a s IH]; [reflexivity|]. cbn [removeCR countChar].
  destruct (Ascii.eqb a CR); [discriminate|]. intros H. now rewrite IH.
Qed.

Lemma removeCR_app a b : removeCR (a ++ b) = (removeCR a ++ removeCR b)%string.
Proof.
  induction a as [|x a IH]; [reflexivity|]. cbn [append removeCR].
  destruct (Ascii.eqb x CR); [exact IH|]. cbn [append]. now rewrite IH.
Qed.

Lemma removeCR_keeps c s :
  countChar c s = 0%nat -> countChar c (removeCR s) = 0%nat.
Proof.
  induction s as [|a s IH]; [reflexivity|]. cbn [removeCR countChar].
  destruct (Ascii.eqb a c) eqn:E; [discriminate|]. intros H.
  destruct (Ascii.eqb a CR); [now apply IH|].
  cbn [countChar]. rewrite E. now apply IH.
Qed.

Lemma readSerialLoop_line timeoutMs t polls r line more :
  Forall (fun p => u32 (u32 (fst p) - t) < u32 timeoutMs) polls ->
  typed polls = (line ++ String LF more)%string ->
  countChar LF line = 0%nat ->
  readSerialLoop timeoutMs t polls r = Some (r ++ removeCR line)%string.
Proof.
  revert r line; induction polls as [|[now avail] polls IH];
    intros r line Ht Hty Hl.
  - destruct line; discriminate.
  - inversion Ht as [|? ? Hin Hrest]; subst. cbn [fst] in Hin.
    cbn [readSerialLoop].
    replace (u32 (u32 now - t) <? u32 timeoutMs) with true
      by (symmetry; apply Z.ltb_lt; exact Hin).
    destruct avail as [c|]; cbn [typed] in Hty; [|now apply IH].
    destruct line as [|x line]; cbn [append] in Hty.
    + injection Hty as -> _. rewrite Ascii.eqb_refl.
      cbn [removeCR]. now rewrite append_nil_r_str.
    + injection Hty as -> Hty. cbn [countChar] in Hl.
      rewrite Ascii.eqb_sym in Hl.
      destruct (Ascii.eqb LF x) eqn:E; [discriminate|].
      rewrite Ascii.eqb_sym, E. cbn [removeCR].
      destruct (Ascii.eqb x CR); cbn [negb].
      * now apply IH.
      * rewrite (IH _ line Hrest Hty Hl).
        now rewrite append_assoc_str.
Qed.

(** X17: [readSerialLine] returns the line as typed: when the characters
    arriving before the time-out are a line followed by a line feed, it
    returns that line without its carriage returns and otherwise unchanged
    (leading and trailing spaces kept), whatever follows the line feed and
    however the characters are spread over the polls; the result holds no
    carriage return and no line feed. *)
Theorem readSerialLine_reads_line
        (timeoutMs t : Z) (polls : list Poll) (line more : string) :
  Forall (fun p => u32 (u32 (fst p) - t) < u32 timeoutMs) polls ->
  typed polls = (line ++ String LF more)%string ->
  countChar LF line = 0%nat ->
  readSerialLine timeoutMs t polls = Some (removeCR line)
  /\ countChar CR (removeCR line) = 0%nat
  /\ countChar LF (removeCR line) = 0%nat.
Proof.
  intros Ht Hty Hl. unfold readSerialLine.
  rewrite (readSerialLoop_line _ _ _ _ line more Ht Hty Hl).
  cbn [option_map append].
  split; [|split; [apply removeCR_plain | now apply removeCR_keeps]].
  f_equal. apply removeCR_id, removeCR_plain.
Qed.

Lemma readSerialLine_reads_line_witness :
  readSerialLine 20000 1000
    [(1000, None); (1500, Some "s"%char); (1501, Some " "%char);
     (1700, Some CR); (1701, Some LF); (1702, Some "x"%char)]
  = Some (removeCR (String "s" (String " " (String CR EmptyString))))
  /\ countChar CR
       (removeCR (String "s" (String " " (String CR EmptyString)))) = 0%nat
  /\ countChar LF
       (removeCR (String "s" (String " " (String CR EmptyString)))) = 0%nat.
Proof.
  apply (readSerialLine_reads_line 20000 1000
           [(1000, None); (1500, Some "s"%char); (1501, Some " "%char);
            (1700, Some CR); (1701, Some LF); (1702, Some "x"%char)]
           (String "s" (String " " (String CR EmptyString)))
           (String "x" EmptyString)).
  - repeat constructor; vm_compute; reflexivity.
  - reflexivity.
  - reflexivity.
Defined.

Lemma voice_rings_for_witness :
  let c := triggerChan TrHat in
  let st' := renderVoice c (Z.to_nat 2300) (fire TrHat Synth0) in
  voiceIdle (chan c st') = (ringSamples TrHat <=? Z.of_nat (Z.to_nat 2300))
  /\ (ringSamples TrHat <= Z.of_nat (Z.to_nat 2300) ->
      fst (synthSample c st') = 0).
Proof.
  apply (voice_rings_for TrHat Synth0 (Z.to_nat 2300));
    [reflexivity | unfold triggerChan, CH_HAT, NUM_CH; lia].
Defined.

Lemma menu_export_well_formed_witness :
  let name := if endsWith "song" ".wav" then "song"%string
              else ("song" ++ ".wav")%string in
  let loops := constrain (toInt "3") 1 8 in
  let '(_, sd', _) := menuExport "song" "3" (mkSD true true []) Synth0 in
  endsWith name ".wav" = true
  /\ 1 <= loops <= 8
  /\ exists bytes,
       sd_read ("/" ++ name)%string sd' = Some bytes
       /\ Z.of_nat (List.length bytes)
          = 44 + 4 * (samplesPerStep (seqBPM Synth0) * 16 * loops)
       /\ field 0 4 bytes = bytesOfString "RIFF"
       /\ leValue (field 4 4 bytes) = Z.of_nat (List.length bytes) - 8
       /\ field 8 8 bytes = bytesOfString "WAVEfmt "
       /\ field 36 4 bytes = bytesOfString "data"
       /\ leValue (field 40 4 bytes) = Z.of_nat (List.length bytes) - 44
       /\ Forall isByte bytes.
Proof.
  apply (menu_export_well_formed "song" "3" (mkSD true true []) Synth0).
  - apply live_start.
  - discriminate.
  - reflexivity.
  - reflexivity.
Defined.

(** ** The header on its own *)

Lemma leValue_bytesU16LE v : 0 <= v < 2 ^ 16 -> leValue (bytesU16LE v) = v.
Proof.
  intros Hv. unfold leValue, bytesU16LE. cbn [fold_right].
  pose proof (Z.div_mod v 256 ltac:(lia)) as H0.
  assert (H1 : 0 <= v / 256 < 256).
  { split; [apply Z.div_pos; lia | apply Z.div_lt_upper_bound; lia]. }
  rewrite (Z.mod_small (v / 256)) by lia. lia.
Qed.

(** X18: the WAV header says what the export renders: for every frame
    count, [writeWAVHeader] writes 44 bytes that read back, as
    little-endian fields, as PCM format 1, 2 channels, 44100 frames per
    second, 16 bits per sample, block alignment 4 = channels * bits / 8
    and byte rate 176400 = rate * alignment; the data size is 4 bytes per
    frame and the RIFF size is the data size + 36, both modulo 2^32. *)
Theorem wav_header_fields (totalSamples : Z) :
  let h := writeWAVHeader [] totalSamples in
  List.length h = 44%nat
  /\ field 0 4 h = bytesOfString "RIFF"
  /\ leValue (field 4 4 h) = (36 + (totalSamples * 4) mod 2 ^ 32) mod 2 ^ 32
  /\ field 8 8 h = bytesOfString "WAVEfmt "
  /\ leValue (field 16 4 h) = 16
  /\ leValue (field 20 2 h) = 1
  /\ leValue (field 22 2 h) = 2
  /\ leValue (field 24 4 h) = SAMPLE_RATE
  /\ leValue (field 28 4 h) = SAMPLE_RATE * leValue (field 32 2 h)
  /\ leValue (field 32 2 h) * 8
     = leValue (field 22 2 h) * leValue (field 34 2 h)
  /\ leValue (field 34 2 h) = 16
  /\ field 36 4 h = bytesOfString "data"
  /\ leValue (field 40 4 h) = (totalSamples * 4) mod 2 ^ 32.
Proof.
  intros h.
  assert (F4 : field 4 4 h = bytesU32LE (u32 (36 + u32 (totalSamples * 4))))
    by reflexivity.
  assert (F40 : field 40 4 h = bytesU32LE (u32 (totalSamples * 4)))
    by reflexivity.
  split; [apply length_writeWAVHeader|].
  split; [reflexivity|].
  split; [rewrite F4; apply leValue_bytesU32LE, u32_range|].
  do 9 (split; [reflexivity|]).
  rewrite F40. apply leValue_bytesU32LE, u32_range.
Qed.

(** ** A failed export and the card *)

Lemma sd_read_remove path sd : sd_read path (sd_remove path sd) = None.
Proof.
  unfold sd_read, sd_remove; cbn [sd_files].
  induction (sd_files sd) as [|[p b] l IH]; [reflexivity|].
  cbn [filter fst]. destruct (String.eqb p path) eqn:E; cbn [negb];
    [exact IH|].
  cbn [find fst]. rewrite E. exact IH.
Qed.

Lemma sd_read_remove_other path other sd :
  other <> path -> sd_read other (sd_remove path sd) = sd_read other sd.
Proof.
  intros Hne. unfold sd_read, sd_remove; cbn [sd_files].
  induction (sd_files sd) as [|[p b] l IH]; [reflexivity|].
  cbn [filter fst find].
  destruct (String.eqb p path) eqn:E; cbn [negb].
  - apply String.eqb_eq in E. subst p.
    destruct (String.eqb path other) eqn:E2;
      [apply String.eqb_eq in E2; congruence | exact IH].
  - cbn [find fst]. destruct (String.eqb p other); [reflexivity | exact IH].
Qed.

Lemma sd_exists_read path sd :
  sd_exists path sd = false -> sd_read path sd = None.
Proof.
  unfold sd_exists, sd_read.
  induction (sd_files sd) as [|[p b] l IH]; [reflexivity|].
  cbn [existsb find fst]. destruct (String.eqb p path); [discriminate|].
  exact IH.
Qed.

(** X19: an export that cannot open its file still costs the old one: when
    the card is there but the file cannot be opened for writing, the
    export reports the failure and renders nothing, yet a file of that
    name that was on the card is gone, because it is removed before the
    open is tried; every other file is as it was. *)
Theorem failed_open_removes_old_file
        (filename : string) (numLoops : Z) (sd : SDCard) (st : Synth) :
  sd_begin sd = true -> sd_open sd = false ->
  let '(st', sd', lines) := exportPatternToWAV filename numLoops sd st in
  st' = st
  /\ lines = [ExportFailedOpen ("/" ++ filename)]
  /\ sd_read ("/" ++ filename) sd' = None
  /\ forall other, other <> ("/" ++ filename)%string ->
                   sd_read other sd' = sd_read other sd.
Proof.
  intros Hb Ho. unfold exportPatternToWAV. rewrite Hb.
  cbv beta iota zeta delta [negb].
  destruct (sd_exists ("/" ++ filename) sd) eqn:E.
  - change (sd_open (sd_remove ("/" ++ filename) sd)) with (sd_open sd).
    rewrite Ho. split; [reflexivity | split; [reflexivity|]].
    split; [apply sd_read_remove|].
    intros other Hne. now apply sd_read_remove_other.
  - rewrite Ho. split; [reflexivity | split; [reflexivity|]].
    split; [now apply sd_exists_read | reflexivity].
Qed.

Lemma failed_open_removes_old_file_witness :
  let '(st', sd', lines) :=
    exportPatternToWAV "song.wav" 2
      (mkSD true false [("/song.wav"%string, [1; 2; 3])]) Synth0 in
  st' = Synth0
  /\ lines = [ExportFailedOpen ("/" ++ "song.wav")]
  /\ sd_read ("/" ++ "song.wav") sd' = None
  /\ forall other, other <> ("/" ++ "song.wav")%string ->
       sd_read other sd'
       = sd_read other (mkSD true false [("/song.wav"%string, [1; 2; 3])]).
Proof.
  apply (failed_open_removes_old_file "song.wav" 2
           (mkSD true false [("/song.wav"%string, [1; 2; 3])]) Synth0);
    reflexivity.
Defined.

(** ** Every hit sounds the same *)

Lemma alike_idle k1 k2 : alike k1 k2 -> voiceIdle k1 = voiceIdle k2.
Proof.
  intros (Hl & _ & Ha & _). unfold voiceIdle. now rewrite Hl, Ha.
Qed.

Lemma alike_voiceNext k1 k2 :
  alike k1 k2 -> alike (voiceNext k1) (voiceNext k2).
Proof.
  intros H. pose proof (alike_idle _ _ H) as Hi.
  destruct H as (Hl & Hd & Ha & Hn & Hk).
  destruct (isNoise k1) eqn:En.
  - unfold voiceNext. rewrite <- Hi, <- Hn, En.
    destruct (voiceIdle k1); unfold alike, envStep;
      cbn [envLvl envDcy active isNoise set_active set_envLvl];
      rewrite <- ?Hl, <- ?Hd, <- ?Ha, <- ?Hn, ?En;
      (split; [reflexivity | split; [reflexivity | split; [reflexivity
        | split; [reflexivity | intros H; discriminate H]]]]).
  - rewrite <- (Hk eq_refl).
    split; [reflexivity | split; [reflexivity | split; [reflexivity
      | split; [reflexivity | reflexivity]]]].
Qed.

Lemma alike_val g k1 k2 lf :
  alike k1 k2 -> voiceVal g k1 lf = voiceVal g k2 lf.
Proof.
  intros H. pose proof (alike_idle _ _ H) as Hi.
  destruct H as (Hl & Hd & Ha & Hn & Hk).
  destruct (isNoise k1) eqn:En.
  - unfold voiceVal. rewrite <- Hi, <- Hn, En.
    destruct (voiceIdle k1); [reflexivity|].
    unfold voiceAmp. now rewrite Hl.
  - now rewrite <- (Hk eq_refl).
Qed.

Lemma soundsAlike_synthSample c a b :
  (c < NUM_CH)%nat -> soundsAlike c a b ->
  fst (synthSample c a) = fst (synthSample c b)
  /\ soundsAlike c (snd (synthSample c a)) (snd (synthSample c b)).
Proof.
  intros Hc (La & Lb & Na & Nb & Hg & Hk & Hr).
  pose proof (alike_idle _ _ Hk) as Hi.
  assert (Hu : usesNoise (chan c a) = usesNoise (chan c b)).
  { unfold usesNoise. rewrite Hi. destruct Hk as (_ & _ & _ & -> & _).
    reflexivity. }
  split.
  - rewrite !synthSample_val, <- Hg.
    destruct (usesNoise (chan c a)) eqn:Eu.
    + rewrite <- (Hr eq_refl). now apply alike_val.
    + rewrite (voiceVal_quiet_register _ _ _ (nth (noiseIndex c) (nlfsr b) 0)
                 Eu).
      now apply alike_val.
  - destruct (synthSample_control c a) as (Ga & _).
    destruct (synthSample_control c b) as (Gb & _).
    split; [now rewrite length_ch_synthSample|].
    split; [now rewrite length_ch_synthSample|].
    assert (Hna : List.length (nlfsr (snd (synthSample c a))) = 2%nat).
    { rewrite synthSample_nlfsr. destruct (usesNoise (chan c a));
        [now rewrite length_upd | exact Na]. }
    assert (Hnb : List.length (nlfsr (snd (synthSample c b))) = 2%nat).
    { rewrite synthSample_nlfsr. destruct (usesNoise (chan c b));
        [now rewrite length_upd | exact Nb]. }
    split; [exact Hna | split; [exact Hnb|]].
    split; [congruence|].
    rewrite !chan_synthSample_same by (rewrite ?La, ?Lb; exact Hc).
    split; [now apply alike_voiceNext|].
    intros Hu'.
    assert (Hact : usesNoise (chan c a) = true).
    { unfold usesNoise in *. apply andb_prop in Hu' as [Hv Hn'].
      rewrite isNoise_voiceNext in Hn'. rewrite Hn', andb_true_r.
      apply negb_true_iff in Hv. apply negb_true_iff.
      destruct (voiceIdle (chan c a)) eqn:E; [|reflexivity].
      rewrite voiceNext_idle in Hv by exact E.
      unfold voiceIdle in Hv. cbn [active set_active negb orb] in Hv.
      discriminate. }
    rewrite !synthSample_nlfsr, <- Hu, Hact.
    assert (Hlt : (noiseIndex c < 2)%nat)
      by (unfold noiseIndex; destruct (Nat.eqb _ _); lia).
    rewrite !nth_upd_same by (rewrite ?Na, ?Nb; exact Hlt).
    now rewrite (Hr Hact).
Qed.

Lemma soundsAlike_renderVoice c n a b :
  (c < NUM_CH)%nat -> soundsAlike c a b ->
  soundsAlike c (renderVoice c n a) (renderVoice c n b).
Proof.
  intros Hc. unfold renderVoice.
  revert a b; induction n as [|n IH]; intros a b H; [exact H|].
  rewrite !iterate_S. apply IH.
  now apply soundsAlike_synthSample.
Qed.

Lemma soundsAlike_fire t a b :
  (triggerChan t < NUM_CH)%nat ->
  List.length (ch a) = NUM_CH -> List.length (ch b) = NUM_CH ->
  List.length (nlfsr a) = 2%nat -> List.length (nlfsr b) = 2%nat ->
  gAmp a = gAmp b ->
  soundsAlike (triggerChan t) (fire t a) (fire t b).
Proof.
  intros Hc La Lb Na Nb Hg.
  assert (Hla : List.length (ch (fire t a)) = NUM_CH)
    by (rewrite <- La; apply (length_ch_applyOp (OpFire t))).
  assert (Hlb : List.length (ch (fire t b)) = NUM_CH)
    by (rewrite <- Lb; apply (length_ch_applyOp (OpFire t))).
  split; [exact Hla | split; [exact Hlb|]].
  destruct t as [c f w | | |]; cbn [fire triggerChan] in *.
  - unfold trigNote. rewrite !chan_put_same by (rewrite ?La, ?Lb; exact Hc).
    repeat split; try assumption. intros H. discriminate H.
  - unfold trigKick. rewrite !chan_put_same by (rewrite ?La, ?Lb; exact Hc).
    repeat split; try assumption. intros H. discriminate H.
  - unfold trigSnare, chan, noiseIndex;
      cbn [set_nlfsr ch nlfsr gAmp put_chan set_ch Nat.eqb CH_SNARE].
    rewrite !nth_upd_same by (rewrite ?La, ?Lb, ?Na, ?Nb;
                              unfold CH_SNARE, NUM_CH; lia).
    rewrite !length_upd.
    repeat split; try assumption. intros H. discriminate H.
  - unfold trigHat, chan, noiseIndex;
      cbn [set_nlfsr ch nlfsr gAmp put_chan set_ch Nat.eqb CH_HAT CH_SNARE].
    rewrite !nth_upd_same by (rewrite ?La, ?Lb, ?Na, ?Nb;
                              unfold CH_HAT, NUM_CH; lia).
    rewrite !length_upd.
    repeat split; try assumption. intros H. discriminate H.
Qed.

(** X20: every hit sounds the same: the samples a channel produces after
    a trigger depend only on the trigger and the volume, not on what the
    engine did before.  In particular every Snare hit and every Hat hit
    produces the same noise, sample for sample, because the trigger
    reseeds the channel's noise register. *)
Theorem hits_sound_alike (t : Trigger) (a b : Synth) (n : nat) :
  live a -> live b -> gAmp a = gAmp b -> (triggerChan t < NUM_CH)%nat ->
  let c := triggerChan t in
  fst (synthSample c (renderVoice c n (fire t a)))
  = fst (synthSample c (renderVoice c n (fire t b))).
Proof.
  intros Ha Hb Hg Hc c.
  apply live_wellFormed in Ha, Hb.
  apply soundsAlike_synthSample; [exact Hc|].
  apply soundsAlike_renderVoice; [exact Hc|].
  apply soundsAlike_fire; try assumption; apply Ha || apply Hb.
Qed.

Lemma hits_sound_alike_witness :
  let c := triggerChan TrSnare in
  fst (synthSample c (renderVoice c 100 (fire TrSnare Synth0)))
  = fst (synthSample c
           (renderVoice c 100
              (fire TrSnare
                 (snd (mixFrame (trigSequencerStep 0
                    (handle (EvWs "SEQ_DRUM:1,0,1" 0) Synth0))))))).
Proof.
  apply (hits_sound_alike TrSnare Synth0
           (snd (mixFrame (trigSequencerStep 0
              (handle (EvWs "SEQ_DRUM:1,0,1" 0) Synth0)))) 100).
  - apply live_start.
  - apply live_frame, live_step, live_handle, live_start.
  - reflexivity.
  - unfold triggerChan, CH_SNARE, NUM_CH. lia.
Defined.

(** ** The export and the controls *)

(** X21: an export leaves the controls alone: whatever it renders, and
    whether it succeeds or not, the pattern, the tempo, the volume, the
    live waveform, the run flag, the step position and the step clock are
    afterwards what they were; only the channels and the noise registers
    are left where the rendering ended. *)
Theorem export_keeps_controls
        (filename : string) (numLoops : Z) (sd : SDCard) (st : Synth) :
  let st' := fst (fst (exportPatternToWAV filename numLoops sd st)) in
  melPat st' = melPat st /\ drmPat st' = drmPat st
  /\ seqBPM st' = seqBPM st /\ gAmp st' = gAmp st
  /\ liveWave st' = liveWave st /\ seqPlay st' = seqPlay st
  /\ seqStep st' = seqStep st /\ lastStepMs st' = lastStepMs st.
Proof.
  intros st'.
  assert (H : sameControl st st').
  { apply (preserved_export (sameControl st)).
    - intros c s H. eapply sameControl_trans; [exact H|].
      apply synthSample_control.
    - intros k s H. eapply sameControl_trans; [exact H|].
      apply trigSequencerStep_control.
    - intros s H. eapply sameControl_trans; [exact H|].
      apply resetChannels_control.
    - apply sameControl_refl. }
  destruct H as (H1 & H2 & H3 & H4 & H5 & H6 & H7 & H8 & _).
  repeat split; congruence.
Qed.

(** ** Saved songs *)

Lemma findSong_putSong song songs :
  Page.findSong (Page.name song) (Page.putSong song songs) = Some song.
Proof.
  unfold Page.findSong.
  induction songs as [|x rest IH]; cbn [Page.putSong find].
  - now rewrite String.eqb_refl.
  - destruct (String.eqb (Page.name x) (Page.name song)) eqn:E; cbn [find].
    + now rewrite String.eqb_refl.
    + now rewrite E.
Qed.

Lemma findSong_putSong_other song songs other :
  other <> Page.name song ->
  Page.findSong other (Page.putSong song songs) = Page.findSong other songs.
Proof.
  intros Hne. unfold Page.findSong.
  induction songs as [|x rest IH]; cbn [Page.putSong find].
  - destruct (String.eqb (Page.name song) other) eqn:E; [|reflexivity].
    apply String.eqb_eq in E. congruence.
  - destruct (String.eqb (Page.name x) (Page.name song)) eqn:E; cbn [find].
    + apply String.eqb_eq in E. rewrite E.
      destruct (String.eqb (Page.name song) other) eqn:E2; [|reflexivity].
      apply String.eqb_eq in E2. congruence.
    + destruct (String.eqb (Page.name x) other); [reflexivity | exact IH].
Qed.

Lemma names_putSong song songs :
  (forall nm, In nm (map Page.name (Page.putSong song songs)) ->
              nm = Page.name song \/ In nm (map Page.name songs))
  /\ (NoDup (map Page.name songs) ->
      NoDup (map Page.name (Page.putSong song songs)))
  /\ (List.length songs <= List.length (Page.putSong song songs)
      <= S (List.length songs))%nat.
Proof.
  induction songs as [|x rest (IH1 & IH2 & IH3)]; cbn [Page.putSong map].
  - split; [|split].
    + intros nm [<- | []]. now left.
    + intros _. constructor; [intros [] | constructor].
    + cbn. lia.
  - destruct (String.eqb (Page.name x) (Page.name song)) eqn:E;
      cbn [map List.length].
    + apply String.eqb_eq in E. split; [|split].
      * intros nm [<- | H]; [now left | right; now right].
      * rewrite <- E. intros H. exact H.
      * lia.
    + apply String.eqb_neq in E. split; [|split].
      * intros nm [<- | H]; [right; now left|].
        destruct (IH1 nm H) as [-> | H']; [now left | right; now right].
      * intros H. inversion H as [|? ? Hn Hd]; subst.
        constructor; [|now apply IH2].
        intros Hin. destruct (IH1 _ Hin) as [E' | H']; [congruence|].
        contradiction.
      * lia.
Qed.

Lemma findSong_deleteSong nm songs other :
  Page.findSong nm (Page.deleteSong nm songs) = None
  /\ (other <> nm ->
      Page.findSong other (Page.deleteSong nm songs)
      = Page.findSong other songs).
Proof.
  unfold Page.findSong, Page.deleteSong.
  induction songs as [|x rest (IH1 & IH2)]; [now split|].
  cbn [filter find].
  destruct (String.eqb (Page.name x) nm) eqn:E; cbn [negb find].
  - split; [exact IH1|]. intros Hne.
    apply String.eqb_eq in E. rewrite E.
    destruct (String.eqb nm other) eqn:E2;
      [apply String.eqb_eq in E2; congruence | now apply IH2].
  - rewrite E. split; [exact IH1|]. intros Hne.
    destruct (String.eqb (Page.name x) other); [reflexivity | now apply IH2].
Qed.

(** X22: the song list keeps one song per name: saving under a non-empty
    name makes that name show the pattern and tempo just saved (120 when
    the BPM field holds no number or 0), replacing a song of the same name
    in place and otherwise adding one at the end; names stay distinct,
    every song of another name is untouched, and deleting the name removes
    it and nothing else. *)
Theorem song_list_one_per_name
        (nm other : string) (bpmIn : option Z) (p : Page.State)
        (songs : list Page.Song) :
  nm <> ""%string -> NoDup (map Page.name songs) -> other <> nm ->
  let b := match bpmIn with
           | Some b => if b =? 0 then 120 else b
           | None => 120
           end in
  let songs' := Page.saveSong nm bpmIn p songs in
  Page.findSong nm songs'
  = Some (Page.mkSong nm b (Page.melPat p) (Page.drmPat p))
  /\ Page.findSong other songs' = Page.findSong other songs
  /\ NoDup (map Page.name songs')
  /\ (List.length songs <= List.length songs' <= S (List.length songs))%nat
  /\ Page.findSong nm (Page.deleteSong nm songs') = None
  /\ Page.findSong other (Page.deleteSong nm songs')
     = Page.findSong other songs.
Proof.
  intros Hnm Hnd Hne b songs'. unfold songs', Page.saveSong.
  destruct (String.eqb nm "") eqn:E;
    [apply String.eqb_eq in E; contradiction|].
  fold b. set (song := Page.mkSong nm b (Page.melPat p) (Page.drmPat p)).
  destruct (names_putSong song songs) as (_ & H2 & H3).
  destruct (findSong_deleteSong nm (Page.putSong song songs) other)
    as (D1 & D2).
  split; [apply (findSong_putSong song)|].
  split; [now apply findSong_putSong_other|].
  split; [now apply H2|].
  split; [exact H3|].
  split; [exact D1|].
  rewrite D2 by exact Hne. now apply findSong_putSong_other.
Qed.

Lemma song_list_one_per_name_witness :
  let songs := [Page.mkSong "a" 100 [] []; Page.mkSong "b" 90 [] []] in
  let b := match Some 0 with
           | Some b => if b =? 0 then 120 else b
           | None => 120
           end in
  let songs' := Page.saveSong "b" (Some 0) Page.State0 songs in
  Page.findSong "b" songs'
  = Some (Page.mkSong "b" b (Page.melPat Page.State0)
                      (Page.drmPat Page.State0))
  /\ Page.findSong "a" songs' = Page.findSong "a" songs
  /\ NoDup (map Page.name songs')
  /\ (List.length songs <= List.length songs' <= S (List.length songs))%nat
  /\ Page.findSong "b" (Page.deleteSong "b" songs') = None
  /\ Page.findSong "a" (Page.deleteSong "b" songs')
     = Page.findSong "a" songs.
Proof.
  intros songs.
  apply (song_list_one_per_name "b" "a" (Some 0) Page.State0 songs).
  - discriminate.
  - constructor; [intros [H | []]; discriminate H|].
    constructor; [intros [] | constructor].
  - discriminate.
Defined.

(** ** Loading a song *)

Lemma deliver_snoc now msgs m st :
  deliver now (msgs ++ [m]) st = onWsEvent m now (deliver now msgs st).
Proof. unfold deliver. now rewrite fold_left_app. Qed.

Lemma upd_app_mid {A} (done : list A) (x o : A) (rest : list A) :
  upd (List.length done) x (done ++ o :: rest) = done ++ x :: rest.
Proof.
  induction done as [|a done IH]; cbn [List.length app upd];
    [reflexivity | now rewrite IH].
Qed.

Lemma loadMelRow_row ti row : forall done old p msgs,
  (ti < List.length (Page.melPat p))%nat ->
  nth ti (Page.melPat p) [] = done ++ old ->
  List.length old = List.length row ->
  let p' := fst (Page.loadMelRow ti (List.length done) row (p, msgs)) in
  nth ti (Page.melPat p') [] = done ++ row /\ sameBut ti p p'.
Proof.
  induction row as [|x row IH]; intros done old p msgs Ht Hrow Hlen p'.
  - destruct old; [|discriminate]. unfold p'. cbn [Page.loadMelRow fst].
    split; [exact Hrow | now repeat split].
  - destruct old as [|o old]; [discriminate|].
    unfold p'. cbn [Page.loadMelRow fst snd].
    set (p1 := Page.set_mel ti (List.length done) x p).
    assert (H1 : nth ti (Page.melPat p1) [] = (done ++ [x]) ++ old).
    { unfold p1, Page.set_mel; cbn [Page.melPat].
      rewrite nth_upd_same by exact Ht.
      rewrite Hrow, upd_app_mid. now rewrite <- app_assoc. }
    assert (Hl1 : List.length (Page.melPat p1) = List.length (Page.melPat p))
      by (unfold p1, Page.set_mel; cbn [Page.melPat]; apply length_upd).
    replace (S (List.length done)) with (List.length (done ++ [x]))
      by (rewrite length_app; cbn; lia).
    destruct (IH (done ++ [x]) old p1
                (msgs ++ [Page.sendMelStep ti (List.length done) x])
                ltac:(now rewrite Hl1) H1 ltac:(cbn in Hlen; lia))
      as (R & L & O & D & W & S).
    split; [rewrite R; now rewrite <- app_assoc|].
    split; [congruence|].
    split; [|now repeat split].
    intros t Hne. rewrite (O t Hne).
    unfold p1, Page.set_mel; cbn [Page.melPat]. now apply nth_upd_other.
Qed.

Lemma loadDrmRow_row ti row : forall done old p msgs,
  (ti < List.length (Page.drmPat p))%nat ->
  nth ti (Page.drmPat p) [] = done ++ old ->
  List.length old = List.length row ->
  let p' := fst (Page.loadDrmRow ti (List.length done) row (p, msgs)) in
  nth ti (Page.drmPat p') [] = done ++ row /\ sameButDrum ti p p'.
Proof.
  induction row as [|x row IH]; intros done old p msgs Ht Hrow Hlen p'.
  - destruct old; [|discriminate]. unfold p'. cbn [Page.loadDrmRow fst].
    split; [exact Hrow | now repeat split].
  - destruct old as [|o old]; [discriminate|].
    unfold p'. cbn [Page.loadDrmRow fst snd].
    set (p1 := Page.set_drm ti (List.length done) x p).
    assert (H1 : nth ti (Page.drmPat p1) [] = (done ++ [x]) ++ old).
    { unfold p1, Page.set_drm; cbn [Page.drmPat].
      rewrite nth_upd_same by exact Ht.
      rewrite Hrow, upd_app_mid. now rewrite <- app_assoc. }
    assert (Hl1 : List.length (Page.drmPat p1) = List.length (Page.drmPat p))
      by (unfold p1, Page.set_drm; cbn [Page.drmPat]; apply length_upd).
    replace (S (List.length done)) with (List.length (done ++ [x]))
      by (rewrite length_app; cbn; lia).
    destruct (IH (done ++ [x]) old p1
                (msgs ++ [Page.sendDrmStep ti (List.length done) x])
                ltac:(now rewrite Hl1) H1 ltac:(cbn in Hlen; lia))
      as (R & L & O & D & W & S).
    split; [rewrite R; now rewrite <- app_assoc|].
    split; [congruence|].
    split; [|now repeat split].
    intros t Hne. rewrite (O t Hne).
    unfold p1, Page.set_drm; cbn [Page.drmPat]. now apply nth_upd_other.
Qed.

Lemma loadMelRow_inStep now st0 B ti row : forall s r,
  (ti < 2)%nat -> (s + List.length row <= 16)%nat ->
  Forall (fun x => (Page.ni x < List.length Page.NOTES)%nat
                   /\ 0 <= Page.wave x <= 2) row ->
  inStep now st0 B r -> inStep now st0 B (Page.loadMelRow ti s row r).
Proof.
  induction row as [|x row IH]; intros s r Ht Hs Hrow H; [exact H|].
  cbn [Page.loadMelRow]. inversion Hrow as [|? ? [Hn Hw] Hrest]; subst.
  cbn [List.length] in Hs.
  apply IH; [exact Ht | lia | exact Hrest|].
  destruct H as (Hp & Hst & Hm & Hb).
  unfold inStep. cbn [fst snd]. rewrite deliver_snoc.
  pose proof (freqOf_range x) as Hf.
  rewrite message_SEQ_SET by (try assumption; lia).
  split; [now apply page_ok_set_mel|].
  split; [now apply wellFormed_set_mel|].
  split; [apply mirrors_cell; try assumption; lia | exact Hb].
Qed.

Lemma loadDrmRow_inStep now st0 B ti row : forall s r,
  (ti < 3)%nat -> (s + List.length row <= 16)%nat ->
  inStep now st0 B r -> inStep now st0 B (Page.loadDrmRow ti s row r).
Proof.
  induction row as [|x row IH]; intros s r Ht Hs H; [exact H|].
  cbn [Page.loadDrmRow]. cbn [List.length] in Hs.
  apply IH; [exact Ht | lia|].
  destruct H as (Hp & Hst & Hm & Hb).
  unfold inStep. cbn [fst snd]. rewrite deliver_snoc.
  rewrite message_SEQ_DRUM by (try assumption; lia).
  split; [now apply page_ok_set_drm|].
  split; [now apply wellFormed_set_drm|].
  split; [apply mirrors_drum; try assumption; lia | exact Hb].
Qed.

Lemma list2_ext {A} (l : list (list A)) :
  List.length l = 2%nat -> l = [nth 0 l []; nth 1 l []].
Proof.
  destruct l as [|a [|b [|c l]]]; try discriminate. reflexivity.
Qed.

Lemma list3_ext {A} (l : list (list A)) :
  List.length l = 3%nat -> l = [nth 0 l []; nth 1 l []; nth 2 l []].
Proof.
  destruct l as [|a [|b [|c [|d l]]]]; try discriminate. reflexivity.
Qed.

Lemma loadMelRow_whole now st0 B ti row r :
  (ti < 2)%nat -> List.length row = 16%nat ->
  Forall (fun x => (Page.ni x < List.length Page.NOTES)%nat
                   /\ 0 <= Page.wave x <= 2) row ->
  inStep now st0 B r ->
  let r' := Page.loadMelRow ti 0 row r in
  inStep now st0 B r'
  /\ nth ti (Page.melPat (fst r')) [] = row
  /\ sameBut ti (fst r) (fst r').
Proof.
  intros Ht Hlen Hrow H r'.
  split; [apply loadMelRow_inStep; try assumption; lia|].
  destruct r as [p msgs]. destruct H as (Hp & _). cbn [fst] in *.
  apply (loadMelRow_row ti row [] (nth ti (Page.melPat p) []) p msgs).
  - now rewrite (Page.ok_mel _ Hp).
  - reflexivity.
  - rewrite Hlen. apply (row_length _ 16%nat); [apply Hp|].
    now rewrite (Page.ok_mel _ Hp).
Qed.

Lemma loadDrmRow_whole now st0 B ti row r :
  (ti < 3)%nat -> List.length row = 16%nat ->
  inStep now st0 B r ->
  let r' := Page.loadDrmRow ti 0 row r in
  inStep now st0 B r'
  /\ nth ti (Page.drmPat (fst r')) [] = row
  /\ sameButDrum ti (fst r) (fst r').
Proof.
  intros Ht Hlen H r'.
  split; [apply loadDrmRow_inStep; try assumption; lia|].
  destruct r as [p msgs]. destruct H as (Hp & _). cbn [fst] in *.
  apply (loadDrmRow_row ti row [] (nth ti (Page.drmPat p) []) p msgs).
  - now rewrite (Page.ok_drm _ Hp).
  - reflexivity.
  - rewrite Hlen. apply (row_length _ 16%nat); [apply Hp|].
    now rewrite (Page.ok_drm _ Hp).
Qed.

(** Loading a song with the shape of the grid: the page takes the song's
    grids, the device follows, the tempo is the song's, clamped. *)
Lemma loadSong_restores
        (song : Page.Song) (now : Z) (p : Page.State) (st : Synth) :
  Page.songOk song -> Page.ok p -> wellFormed st -> mirrors p st ->
  let p' := fst (Page.loadSong song p) in
  let st' := deliver now (snd (Page.loadSong song p)) st in
  Page.melPat p' = Page.mel_of song
  /\ Page.drmPat p' = Page.drm_of song
  /\ Page.curWave p' = Page.curWave p
  /\ Page.seqRunning p' = false
  /\ mirrors p' st'
  /\ seqBPM st' = constrain (Page.bpm song) 40 240.
Proof.
  intros [Hsong Hbpm] Hp Hst Hm p' st'.
  set (B := constrain (Page.bpm song) 40 240).
  (* the shape of the song *)
  pose proof (Page.ok_mel _ Hsong) as Lm. cbn [Page.melPat] in Lm.
  pose proof (Page.ok_drm _ Hsong) as Ld. cbn [Page.drmPat] in Ld.
  pose proof (Page.ok_melSteps _ Hsong) as Sm. cbn [Page.melPat] in Sm.
  pose proof (Page.ok_drmSteps _ Hsong) as Sd. cbn [Page.drmPat] in Sd.
  pose proof (Page.ok_cells _ Hsong) as Cm. cbn [Page.melPat] in Cm.
  rewrite (list2_ext _ Lm) in Sm, Cm.
  rewrite (list3_ext _ Ld) in Sd.
  inversion Sm as [|? ? Sm0 Sm']; subst.
  inversion Sm' as [|? ? Sm1 _]; subst.
  inversion Cm as [|? ? Cm0 Cm']; subst.
  inversion Cm' as [|? ? Cm1 _]; subst.
  inversion Sd as [|? ? Sd0 Sd']; subst.
  inversion Sd' as [|? ? Sd1 Sd'']; subst.
  inversion Sd'' as [|? ? Sd2 _]; subst.
  (* stop, then the tempo *)
  set (r0 := if Page.seqRunning p then Page.stopSeq p
             else (p, @nil string)).
  assert (H0 : Page.ok (fst r0) /\ wellFormed (deliver now (snd r0) st)
               /\ mirrors (fst r0) (deliver now (snd r0) st)
               /\ Page.curWave (fst r0) = Page.curWave p
               /\ Page.seqRunning (fst r0) = false).
  { unfold r0. destruct (Page.seqRunning p) eqn:Er.
    - destruct (act_mirrors now AStop p st I Hp Hst Hm) as (A1 & A2 & A3).
      cbn [act fst snd] in A1, A2, A3.
      split; [exact A1 | split; [exact A2 | split; [exact A3
        | split; reflexivity]]].
    - cbn [fst snd deliver fold_left].
      split; [exact Hp | split; [exact Hst | split; [exact Hm
        | split; [reflexivity | exact Er]]]]. }
  destruct H0 as (Hp0 & Hst0 & Hm0 & Hw0 & Hr0).
  set (r1 := (fst r0,
              (snd r0 ++ [("SEQ_BPM:" ++ String_of_int (Page.bpm song))%string])
              %list)).
  assert (H1 : inStep now st B r1).
  { unfold inStep, r1. cbn [fst snd]. rewrite deliver_snoc.
    rewrite message_SEQ_BPM by exact Hbpm. fold B.
    split; [exact Hp0|].
    split; [|split; [|reflexivity]].
    - destruct Hst0. constructor; try assumption.
      cbn [seqBPM set_seqBPM]. apply constrain_range. lia.
    - apply (mirrors_pattern _ (deliver now (snd r0) st)); [|exact Hm0].
      split; [reflexivity | split; [reflexivity | split; reflexivity]]. }
  (* the two melodic rows, then the three drum rows *)
  unfold p', st', Page.loadSong. fold r0. cbv zeta. fold r1.
  rewrite (list2_ext _ Lm), (list3_ext _ Ld).
  cbn [Page.loadMel Page.loadDrm].
  destruct (loadMelRow_whole now st B 0 _ r1 ltac:(lia) Sm0 Cm0 H1)
    as (I2 & R2 & K2 & O2 & D2 & W2 & S2).
  set (r2 := Page.loadMelRow 0 0 (nth 0 (Page.mel_of song) []) r1) in *.
  destruct (loadMelRow_whole now st B 1 _ r2 ltac:(lia) Sm1 Cm1 I2)
    as (I3 & R3 & K3 & O3 & D3 & W3 & S3).
  set (r3 := Page.loadMelRow 1 0 (nth 1 (Page.mel_of song) []) r2) in *.
  destruct (loadDrmRow_whole now st B 0 _ r3 ltac:(lia) Sd0 I3)
    as (I4 & R4 & K4 & O4 & D4 & W4 & S4).
  set (r4 := Page.loadDrmRow 0 0 (nth 0 (Page.drm_of song) []) r3) in *.
  destruct (loadDrmRow_whole now st B 1 _ r4 ltac:(lia) Sd1 I4)
    as (I5 & R5 & K5 & O5 & D5 & W5 & S5).
  set (r5 := Page.loadDrmRow 1 0 (nth 1 (Page.drm_of song) []) r4) in *.
  destruct (loadDrmRow_whole now st B 2 _ r5 ltac:(lia) Sd2 I5)
    as (I6 & R6 & K6 & O6 & D6 & W6 & S6).
  set (r6 := Page.loadDrmRow 2 0 (nth 2 (Page.drm_of song) []) r5) in *.
  destruct I6 as (Hp6 & _ & Hm6 & Hb6).
  split; [|split; [|split; [|split; [|split; [exact Hm6 | exact Hb6]]]]].
  - rewrite D6, D5, D4.
    rewrite (list2_ext (Page.melPat (fst r3))) by apply I3.
    rewrite R3, (O3 0%nat ltac:(lia)), R2. reflexivity.
  - rewrite (list3_ext (Page.drmPat (fst r6))) by apply Hp6.
    rewrite R6, (O6 1%nat ltac:(lia)), (O6 0%nat ltac:(lia)), R5,
      (O5 0%nat ltac:(lia)), R4. reflexivity.
  - rewrite W6, W5, W4, W3, W2. exact Hw0.
  - rewrite S6, S5, S4, S3, S2. exact Hr0.
Qed.

(** X23: a saved pattern comes back: after the pattern of a page is saved
    under a non-empty name, the list shows a song of that name, and loading
    that song later, on the page in whatever pattern it then shows and
    with every message delivered in order, makes the page's melodic and
    drum grids the saved ones again and the device's pattern equal to
    them; the device's tempo becomes the saved BPM (120 if the BPM field
    held no number or 0) clamped to 40..240. *)
Theorem saved_song_loads_back
        (nm : string) (bpmIn : option Z) (p0 : Page.State)
        (songs : list Page.Song) (now : Z) (p : Page.State) (st : Synth) :
  nm <> ""%string -> Page.ok p0 ->
  match bpmIn with Some b => - 2 ^ 31 <= b < 2 ^ 31 | None => True end ->
  Page.ok p -> wellFormed st -> mirrors p st ->
  exists song,
    Page.findSong nm (Page.saveSong nm bpmIn p0 songs) = Some song
    /\ let p' := fst (Page.loadSong song p) in
       let st' := deliver now (snd (Page.loadSong song p)) st in
       Page.melPat p' = Page.melPat p0
       /\ Page.drmPat p' = Page.drmPat p0
       /\ mirrors p' st'
       /\ seqBPM st'
          = constrain (match bpmIn with
                       | Some b => if b =? 0 then 120 else b
                       | None => 120
                       end) 40 240.
Proof.
  intros Hnm Hp0 Hb Hp Hst Hm.
  set (b := match bpmIn with
            | Some b => if b =? 0 then 120 else b
            | None => 120
            end).
  set (song := Page.mkSong nm b (Page.melPat p0) (Page.drmPat p0)).
  exists song. split.
  - unfold Page.saveSong.
    destruct (String.eqb nm "") eqn:E;
      [apply String.eqb_eq in E; contradiction|].
    apply (findSong_putSong song).
  - assert (Hok : Page.songOk song).
    { split.
      - destruct Hp0. constructor; cbn; try assumption. lia.
      - cbn [Page.bpm song]. unfold b. destruct bpmIn as [x|]; [|lia].
        destruct (x =? 0); lia. }
    destruct (loadSong_restores song now p st Hok Hp Hst Hm)
      as (H1 & H2 & _ & _ & H5 & H6).
    cbv zeta. split; [exact H1 | split; [exact H2 | split; [exact H5|]]].
    exact H6.
Qed.

Lemma saved_song_loads_back_witness :
  let p0 := fst (Page.cycleMel 0 3 Page.State0) in
  exists song,
    Page.findSong "a" (Page.saveSong "a" None p0 []) = Some song
    /\ let p' := fst (Page.loadSong song Page.State0) in
       let st' := deliver 0 (snd (Page.loadSong song Page.State0)) Synth0 in
       Page.melPat p' = Page.melPat p0
       /\ Page.drmPat p' = Page.drmPat p0
       /\ mirrors p' st'
       /\ seqBPM st'
          = constrain (match @None Z with
                       | Some b => if b =? 0 then 120 else b
                       | None => 120
                       end) 40 240.
Proof.
  intros p0.
  apply (saved_song_loads_back "a" None p0 [] 0 Page.State0 Synth0).
  - discriminate.
  - apply (act_mirrors 0 (ACycle 0 3) Page.State0 Synth0);
      [cbn; lia | exact page_ok_State0 | exact wellFormed_Synth0
      | exact mirrors_start].
  - exact I.
  - exact page_ok_State0.
  - exact wellFormed_Synth0.
  - exact mirrors_start.
Defined.
